(** * Round/lap timing machine and scoring engine of the leaderboard

    A shallow embedding of [backend/models.py]: the answer scheduler
    ([RoundsConfig.__init__], [RoundsConfig.restart]), the pausable clock
    ([time], [play], [pause]), the position resolution
    ([get_current_lap]), the submission queries and the scoring loop of
    [Config.get_leaderboard_status].

    Modelling conventions.
    - A Python [float] is an exact rational ([Q]), the value of the
      double; the state machine reads its arithmetic as exact.  [a // b]
      is [floor (a / b)] and [a % b] is [a - b * floor (a / b)]; both
      raise on [b = 0].  Whether a configuration is accepted depends on
      the rounding of the validator's sum, so the construction of a
      [Config] ([Config_init]) computes that sum in IEEE 754 binary64
      ([Module B64], over the Standard Library's [SpecFloat]).
    - A Python [str] is the string of the bytes of its UTF-8 encoding;
      [len] counts code points ([py_len]).
    - [time.time()] reads the field [wall] of the state; a method call
      takes no time, the environment moves [wall] between calls.
    - The module-level generator of [random] is the Mersenne Twister
      MT19937 of CPython, embedded in [Module MT]; its state is a field
      of the machine state because every instance shares it.
    - The [Submission] table is a list of rows in insertion order;
      [ORDER BY timestamp DESC] keeps rows of equal timestamp in that
      order (SQL leaves it open), and no statement below depends on it.
    - Construction is pydantic validation: the field constraints, the
      root validator of [RoundsConfig], the validator of [group_configs].
    - A Python exception is [None] in the state-and-error monad [M].
    - The validation of the returned [LeaderboardStatus]
      ([current_lap: conint(ge=0)]) is not part of
      [get_leaderboard_status]: where it returns a negative lap, the
      source raises.  Every statement below that gives a returned status
      proves its lap non-negative, or holds for every returned status. *)

From Stdlib Require Import ZArith QArith Qround Lia Lqa Bool.
From Stdlib Require SpecFloat.
From stdpp Require Import base list strings gmap.

Open Scope Z_scope.

(** ** The pseudo-random generator of CPython's [random] module *)

Module MT.

Definition N : nat := 624.
Definition M : nat := 397.
Definition MATRIX_A : Z := 0x9908b0df.
Definition UPPER_MASK : Z := 0x80000000.
Definition LOWER_MASK : Z := 0x7fffffff.

Definition u32 (x : Z) : Z := Z.land x 0xffffffff.

(** Generator state: the 624 words and the read position. *)
Record state := mk { mt : list Z; mti : nat }.

Definition word (l : list Z) (i : nat) : Z := default 0 (l !! i).

(** [init_genrand]: [mt[i] = 1812433253 * (mt[i-1] ^ (mt[i-1] >> 30)) + i]. *)
Fixpoint init_fill (n : nat) (i : Z) (prev : Z) : list Z :=
  match n with
  | O => []
  | S n' =>
      let x := u32 (1812433253 * Z.lxor prev (Z.shiftr prev 30) + i) in
      x :: init_fill n' (i + 1) x
  end.

Definition init_genrand (s : Z) : list Z :=
  let s0 := u32 s in s0 :: init_fill (N - 1) 1 s0.

(** First loop of [init_by_array]. *)
Fixpoint key_mix (k : nat) (key : list Z) (i j : nat) (l : list Z) : list Z :=
  match k with
  | O => l
  | S k' =>
      let p := word l (i - 1) in
      let v := u32 (Z.lxor (word l i) (Z.lxor p (Z.shiftr p 30) * 1664525)
                    + word key j + Z.of_nat j) in
      let l := <[i := v]> l in
      let i := S i in
      let j := S j in
      let '(l, i) := if (N <=? i)%nat then (<[O := word l (N - 1)]> l, 1%nat) else (l, i) in
      let j := if (length key <=? j)%nat then O else j in
      key_mix k' key i j l
  end.

(** Second loop of [init_by_array]; returns the words and the position. *)
Fixpoint index_mix (k : nat) (i : nat) (l : list Z) : list Z :=
  match k with
  | O => l
  | S k' =>
      let p := word l (i - 1) in
      let v := u32 (Z.lxor (word l i) (Z.lxor p (Z.shiftr p 30) * 1566083941)
                    - Z.of_nat i) in
      let l := <[i := v]> l in
      let i := S i in
      let '(l, i) := if (N <=? i)%nat then (<[O := word l (N - 1)]> l, 1%nat) else (l, i) in
      index_mix k' i l
  end.

(** Position reached by the first loop, needed to start the second. *)
Fixpoint key_mix_pos (k : nat) (i : nat) : nat :=
  match k with
  | O => i
  | S k' => let i := S i in key_mix_pos k' (if (N <=? i)%nat then 1%nat else i)
  end.

Definition init_by_array (key : list Z) : state :=
  let l := init_genrand 19650218 in
  let k := Nat.max N (length key) in
  let l1 := key_mix k key 1 0 l in
  let i1 := key_mix_pos k 1 in
  let l2 := index_mix (N - 1) i1 l1 in
  mk (<[O := 0x80000000]> l2) N.

(** The 32-bit limbs of a non-negative integer, least significant first;
    zero has the single limb 0. *)
Fixpoint limbs (fuel : nat) (n : Z) : list Z :=
  match fuel with
  | O => []
  | S f =>
      if n <? 4294967296 then [n]
      else (n mod 4294967296) :: limbs f (n / 4294967296)
  end.

(** [random.seed(a)] for an integer [a]: [init_by_array] on the limbs of
    [abs a]. *)
Definition seed (a : Z) : state :=
  let n := Z.abs a in
  init_by_array (limbs (S (Z.to_nat (Z.log2 n))) n).

(** One word of the regeneration ("twist") at position [kk]. *)
Definition twist_at (l : list Z) (kk : nat) : list Z :=
  let y := Z.lor (Z.land (word l kk) UPPER_MASK)
                 (Z.land (word l ((kk + 1) mod N)) LOWER_MASK) in
  let mag := if Z.testbit y 0 then MATRIX_A else 0 in
  <[kk := Z.lxor (Z.lxor (word l ((kk + M) mod N)) (Z.shiftr y 1)) mag]> l.

Definition twist (l : list Z) : list Z := foldl twist_at l (seq 0 N).

Definition temper (y : Z) : Z :=
  let y := Z.lxor y (Z.shiftr y 11) in
  let y := Z.lxor y (Z.land (Z.shiftl y 7) 0x9d2c5680) in
  let y := Z.lxor y (Z.land (Z.shiftl y 15) 0xefc60000) in
  Z.lxor y (Z.shiftr y 18).

(** [genrand_uint32]. *)
Definition genrand_uint32 (s : state) : Z * state :=
  let '(l, i) := if (N <=? mti s)%nat then (twist (mt s), O) else (mt s, mti s) in
  (u32 (temper (word l i)), mk l (S i)).

(** [random.random()]: 53 random bits, as a rational in [0, 1). *)
Definition random (s : state) : Q * state :=
  let '(x, s) := genrand_uint32 s in
  let '(y, s) := genrand_uint32 s in
  let a := Z.shiftr x 5 in
  let b := Z.shiftr y 6 in
  (Qmake (a * 67108864 + b) 9007199254740992, s).

End MT.

(** ** Python helpers *)

(** [l[i]] for a Python integer index: negative indices count from the
    end, anything else out of range raises [IndexError]. *)
Definition py_index {A} (l : list A) (i : Z) : option A :=
  let n := Z.of_nat (length l) in
  if 0 <=? i then l !! Z.to_nat i
  else if - n <=? i then l !! Z.to_nat (n + i)
  else None.

(** [a // b] on floats; the integral result is kept as an integer. *)
Definition py_floordiv (a b : Q) : option Z :=
  if Qeq_bool b 0 then None else Some (Qfloor (a / b)).

(** [a % b] on floats. *)
Definition py_mod (a b : Q) : option Q :=
  if Qeq_bool b 0 then None else Some (a - b * inject_Z (Qfloor (a / b)))%Q.

(** [range(n)]. *)
Definition py_range (n : Z) : list nat := seq 0 (Z.to_nat n).

(** ** Data model *)

Module Guess.

Inductive t : Set :=
  | birds | chainsaw | fire | handsaw | helicopter
  | nothing | received | disqualified.

#[global] Instance eq_dec : EqDecision t.
Proof. solve_decision. Defined.

Definition eqb (a b : t) : bool := bool_decide (a = b).

(** The members of the enumeration, in declaration order. *)
Definition members : list t :=
  [birds; chainsaw; fire; handsaw; helicopter; nothing; received; disqualified].

Definition possible_values : list t :=
  filter (fun guess => guess ∉ [nothing; received; disqualified]) members.

End Guess.

Record GroupConfig := {
  key : string;
  name : string;
  admin : bool
}.

Record Answer := {
  guess : Guess.t;
  correct : bool;
  hide : bool
}.

Record RoundConfig := {
  lap_count : Z;
  lap_duration : Q;
  only_check_for_presence : bool
}.

(** The declared fields of [RoundsConfig]. *)
Record RoundsConfig := {
  rounds : list RoundConfig;
  seed : Z;
  start_paused : bool;
  restart_when_finished : bool;
  pause_between_rounds : bool;
  latency_margin : Q;
  delay_before_playing : Q;
  delay_after_playing : Q;
  sound_duration : Q
}.

(** The private attributes of [RoundsConfig], all assigned by [restart]
    ([__current_lap] is declared but never assigned nor read). *)
Record Private := {
  answers : list (list Guess.t);
  play_delays : list (list Q);
  round_start_time : Q;
  time_when_paused : Q;
  paused : bool;
  current_round : nat;
  finished : bool
}.

Record LeaderboardRow := {
  row_name : string;
  row_answers : list Answer;
  score : Q
}.

Record LeaderboardStatus := {
  st_current_correct_guess : Guess.t;
  st_current_round : nat;
  st_current_lap : Z;
  st_number_of_rounds : nat;
  st_number_of_laps : Z;
  st_paused : bool;
  st_time_before_next_lap : Q;
  st_time_before_playing : Q;
  st_finished : bool;
  leaderboard : list LeaderboardRow
}.

(** ** The submission table *)

Module Submission.

Record t := {
  id : Z;
  timestamp : Z;
  seed : Z;
  round : Z;
  lap : Z;
  key : string;
  guess : Guess.t;
  disqualified : bool
}.

#[global] Instance eq_dec : EqDecision t.
Proof. solve_decision. Defined.

(** [filter_by(key=key, round=round, lap=lap)]. *)
Definition filter_by (k : string) (r l : Z) (table : list t) : list t :=
  filter (fun s => key s = k ∧ round s = r ∧ lap s = l) table.

(** [order_by(timestamp.desc())]: rows by decreasing timestamp; rows
    with equal timestamps keep their insertion order. *)
Fixpoint insert_desc (s : t) (l : list t) : list t :=
  match l with
  | [] => [s]
  | s' :: l' =>
      if timestamp s' <=? timestamp s then s :: s' :: l'
      else s' :: insert_desc s l'
  end.

Definition order_by_timestamp_desc (l : list t) : list t :=
  foldr insert_desc [] l.

Definition get_submissions (table : list t) (k : string) (r l : Z) : list Guess.t :=
  let guesses := order_by_timestamp_desc (filter_by k r l table) in
  match guesses with
  | [] => [Guess.nothing]
  | _ => map guess guesses
  end.

Definition is_disqualified (table : list t) (k : string) (r l : Z) : bool :=
  existsb disqualified (filter_by k r l table).

Definition clear (table : list t) : list t := [].

End Submission.

(** ** The machine state and its monad *)

(** One [RoundsConfig] object together with the process-wide state its
    methods touch: the generator of [random], the [Submission] table and
    the wall clock. *)
Record World := {
  self : RoundsConfig;
  priv : Private;
  rng : MT.state;
  table : list Submission.t;
  wall : Q
}.

Definition M (A : Type) : Type := World -> option (A * World).

Definition ret {A} (a : A) : M A := fun w => Some (a, w).

Definition bind {A B} (c : M A) (k : A -> M B) : M B :=
  fun w => match c w with
           | Some (a, w') => k a w'
           | None => None
           end.

(** Raising an exception. *)
Definition raise {A} : M A := fun _ => None.

Declare Scope m_scope.
Delimit Scope m_scope with m.
Notation "x <- c ;; k" := (bind c (fun x => k))
  (at level 100, c at next level, right associativity) : m_scope.
Notation "c ;;; k" := (bind c (fun _ => k))
  (at level 100, right associativity) : m_scope.
Open Scope m_scope.

Definition lift {A} (o : option A) : M A :=
  match o with Some a => ret a | None => raise end.

(** Reading a declared field and a private attribute of [self]. *)
Definition field {A} (f : RoundsConfig -> A) : M A := fun w => Some (f (self w), w).
Definition attr {A} (f : Private -> A) : M A := fun w => Some (f (priv w), w).

Definition set_priv (p : Private) : M unit :=
  fun w => Some (tt, {| self := self w; priv := p; rng := rng w;
                        table := table w; wall := wall w |}).

Definition modify_priv (f : Private -> Private) : M unit :=
  p <- attr id ;; set_priv (f p).

Definition set_answers (x : list (list Guess.t)) (p : Private) : Private :=
  {| answers := x; play_delays := play_delays p;
     round_start_time := round_start_time p; time_when_paused := time_when_paused p;
     paused := paused p; current_round := current_round p; finished := finished p |}.
Definition set_play_delays (x : list (list Q)) (p : Private) : Private :=
  {| answers := answers p; play_delays := x;
     round_start_time := round_start_time p; time_when_paused := time_when_paused p;
     paused := paused p; current_round := current_round p; finished := finished p |}.
Definition set_round_start_time (x : Q) (p : Private) : Private :=
  {| answers := answers p; play_delays := play_delays p;
     round_start_time := x; time_when_paused := time_when_paused p;
     paused := paused p; current_round := current_round p; finished := finished p |}.
Definition set_time_when_paused (x : Q) (p : Private) : Private :=
  {| answers := answers p; play_delays := play_delays p;
     round_start_time := round_start_time p; time_when_paused := x;
     paused := paused p; current_round := current_round p; finished := finished p |}.
Definition set_paused (x : bool) (p : Private) : Private :=
  {| answers := answers p; play_delays := play_delays p;
     round_start_time := round_start_time p; time_when_paused := time_when_paused p;
     paused := x; current_round := current_round p; finished := finished p |}.
Definition set_current_round (x : nat) (p : Private) : Private :=
  {| answers := answers p; play_delays := play_delays p;
     round_start_time := round_start_time p; time_when_paused := time_when_paused p;
     paused := paused p; current_round := x; finished := finished p |}.
Definition set_finished (x : bool) (p : Private) : Private :=
  {| answers := answers p; play_delays := play_delays p;
     round_start_time := round_start_time p; time_when_paused := time_when_paused p;
     paused := paused p; current_round := current_round p; finished := x |}.

(** [time.time()]. *)
Definition time_time : M Q := fun w => Some (wall w, w).

(** [random.random()] on the shared generator. *)
Definition random_random : M Q :=
  fun w => let '(r, g) := MT.random (rng w) in
           Some (r, {| self := self w; priv := priv w; rng := g;
                       table := table w; wall := wall w |}).

(** [Submission.clear()]. *)
Definition Submission_clear : M unit :=
  fun w => Some (tt, {| self := self w; priv := priv w; rng := rng w;
                        table := Submission.clear (table w); wall := wall w |}).

Definition read_table : M (list Submission.t) := fun w => Some (table w, w).

(** Monadic list comprehension: [[f x for x in l]], left to right. *)
Fixpoint mapM {A B} (f : A -> M B) (l : list A) : M (list B) :=
  match l with
  | [] => ret []
  | x :: l' => y <- f x ;; ys <- mapM f l' ;; ret (y :: ys)
  end.

(** [random.choices(population, k=k)] without weights:
    [[population[floor(random() * n)] for i in repeat(None, k)]]. *)
Definition random_choices {A} (population : list A) (k : Z) : M (list A) :=
  let n := inject_Z (Z.of_nat (length population)) in
  mapM (fun _ => r <- random_random ;; lift (py_index population (Qfloor (r * n))))
       (py_range k).

(** ** Methods of [RoundsConfig] *)

Definition total_overhead (c : RoundsConfig) : Q :=
  (latency_margin c + delay_before_playing c + delay_after_playing c
   + sound_duration c)%Q.

Definition is_paused : M bool := attr paused.

Definition is_finished : M bool := attr finished.

Definition get_current_round : M nat := attr current_round.

Definition get_number_of_rounds : M nat :=
  rs <- field rounds ;; ret (length rs).

Definition get_current_round_config : M RoundConfig :=
  rs <- field rounds ;;
  r <- get_current_round ;;
  lift (rs !! r).

Definition get_current_number_of_laps : M Z :=
  rs <- field rounds ;;
  r <- get_current_round ;;
  rc <- lift (rs !! r) ;;
  ret (lap_count rc).

Definition get_current_round_answers : M (list Guess.t) :=
  a <- attr answers ;;
  r <- get_current_round ;;
  lift (a !! r).

Definition time : M Q :=
  p <- attr paused ;;
  if p then attr time_when_paused else time_time.

Definition play : M unit :=
  p <- attr paused ;;
  if negb p then ret tt
  else
    now <- time_time ;;
    modify_priv (fun p =>
      set_round_start_time (round_start_time p + (now - time_when_paused p))%Q p) ;;;
    modify_priv (set_paused false).

Definition pause : M unit :=
  p <- attr paused ;;
  if p then ret tt
  else
    now <- time_time ;;
    modify_priv (set_time_when_paused now) ;;;
    modify_priv (set_paused true).

Definition restart : M unit :=
  Submission_clear ;;;
  let possibles_answers := Guess.possible_values in
  rs <- field rounds ;;
  a <- mapM (fun round_config =>
               random_choices possibles_answers (lap_count round_config)) rs ;;
  modify_priv (set_answers a) ;;;
  total <- field total_overhead ;;
  start <- field delay_before_playing ;;
  rs <- field rounds ;;
  d <- mapM (fun round_config =>
               mapM (fun _ =>
                       r <- random_random ;;
                       ret (start + r * (lap_duration round_config - total))%Q)
                    (py_range (lap_count round_config))) rs ;;
  modify_priv (set_play_delays d) ;;;
  now <- time_time ;;
  modify_priv (set_round_start_time now) ;;;
  modify_priv (fun p => set_time_when_paused (round_start_time p) p) ;;;
  modify_priv (set_paused true) ;;;
  modify_priv (set_current_round 0%nat) ;;;
  modify_priv (set_finished false) ;;;
  sp <- field start_paused ;;
  if negb sp then play else ret tt.

Definition get_current_lap : M Z :=
  t <- time ;;
  rst <- attr round_start_time ;;
  let elapsed := (t - rst)%Q in
  rc <- get_current_round_config ;;
  current_lap <- lift (py_floordiv elapsed (lap_duration rc)) ;;
  n <- get_current_number_of_laps ;;
  if n <=? current_lap then
    r <- get_current_round ;;
    nr <- get_number_of_rounds ;;
    if (r + 1 =? nr)%nat then
      rwf <- field restart_when_finished ;;
      if rwf then
        restart ;;; ret 0
      else
        modify_priv (set_finished true) ;;;
        pause ;;;
        n <- get_current_number_of_laps ;;
        ret (n - 1)
    else
      modify_priv (fun p => set_current_round (current_round p + 1)%nat p) ;;;
      now <- time_time ;;
      modify_priv (set_round_start_time now) ;;;
      pbr <- field pause_between_rounds ;;
      (if pbr then pause else ret tt) ;;;
      ret 0
  else ret current_lap.

Definition get_current_time_within_lap : M Q :=
  t <- time ;;
  rst <- attr round_start_time ;;
  rc <- get_current_round_config ;;
  lift (py_mod (t - rst) (lap_duration rc)).

Definition get_current_play_delay : M Q :=
  d <- attr play_delays ;;
  r <- get_current_round ;;
  row <- lift (d !! r) ;;
  l <- get_current_lap ;;
  lift (py_index row l).

Definition accepts_submissions : M bool :=
  current_time <- get_current_time_within_lap ;;
  current_play_delay <- get_current_play_delay ;;
  sd <- field sound_duration ;;
  lm <- field latency_margin ;;
  ret (Qle_bool current_play_delay current_time
       && Qle_bool current_time (current_play_delay + sd + lm)).

Definition get_current_correct_guess : M Guess.t :=
  a <- attr answers ;;
  r <- get_current_round ;;
  row <- lift (a !! r) ;;
  l <- get_current_lap ;;
  lift (py_index row l).

Definition time_before_next_lap : M Q :=
  f <- attr finished ;;
  if f then ret 0%Q
  else
    t <- time ;;
    rst <- attr round_start_time ;;
    rc <- get_current_round_config ;;
    m <- lift (py_mod (t - rst) (lap_duration rc)) ;;
    ret (lap_duration rc - m)%Q.

Definition time_before_playing : M Q :=
  f <- attr finished ;;
  if f then ret (-1)%Q
  else
    t <- time ;;
    rst <- attr round_start_time ;;
    rc <- get_current_round_config ;;
    play_delay <- get_current_play_delay ;;
    m <- lift (py_mod (t - rst) (lap_duration rc)) ;;
    ret (play_delay - m)%Q.

(** ** Construction *)

(** Field constraints: [PositiveInt], [PositiveFloat],
    [constr(min_length=1, max_length=128)]. *)
Definition RoundConfig_fields_ok (rc : RoundConfig) : bool :=
  (0 <? lap_count rc) && negb (Qle_bool (lap_duration rc) 0).

Definition RoundsConfig_fields_ok (c : RoundsConfig) : bool :=
  forallb RoundConfig_fields_ok (rounds c)
  && (0 <? seed c)
  && negb (Qle_bool (latency_margin c) 0)
  && negb (Qle_bool (delay_before_playing c) 0)
  && negb (Qle_bool (delay_after_playing c) 0)
  && negb (Qle_bool (sound_duration c) 0).

(** [len(s)] of a [str]: its number of code points, the bytes of the
    UTF-8 encoding that are not continuation bytes [10xxxxxx]. *)
Definition is_continuation_byte (a : Ascii.ascii) : bool :=
  match a with
  | Ascii.Ascii _ _ _ _ _ _ b6 b7 => b7 && negb b6
  end.

Fixpoint py_len (s : string) : nat :=
  match s with
  | EmptyString => 0%nat
  | String a s' => ((if is_continuation_byte a then 0 else 1) + py_len s')%nat
  end.

Definition GroupConfig_fields_ok (g : GroupConfig) : bool :=
  let lk := py_len (key g) in
  let ln := py_len (name g) in
  (1 <=? lk)%nat && (lk <=? 128)%nat && (1 <=? ln)%nat && (ln <=? 128)%nat.

(** The root validator: every lap duration is at least the overhead.
    This is the validator with its sum read as exact, the reading of the
    state machine; [validate_timing_float] below is the validator with
    the sum as the interpreter computes it. *)
Definition validate_timing (values : RoundsConfig) : bool :=
  let total := total_overhead values in
  forallb (fun round_config => Qle_bool total (lap_duration round_config))
          (rounds values).

(** [RoundsConfig(...)]: validation, then [random.seed(self.seed)] on the
    shared generator.  [None] is a failed construction. *)
Definition RoundsConfig_init (c : RoundsConfig) (g : MT.state) : option MT.state :=
  if RoundsConfig_fields_ok c && validate_timing c
  then Some (MT.seed (seed c))
  else None.

(** The loop of the [group_configs] validator, with its two sets. *)
Fixpoint unique_loop (v : list GroupConfig) (keys names : gset string) : bool :=
  match v with
  | [] => true
  | group_config :: v' =>
      let k := key group_config in
      let n := name group_config in
      if decide (k ∈ keys) then false
      else
        let keys := {[k]} ∪ keys in
        if decide (n ∈ names) then false
        else unique_loop v' keys ({[n]} ∪ names)
  end.

Definition unique_names_and_keys (v : list GroupConfig) : option (list GroupConfig) :=
  if unique_loop v ∅ ∅ then Some v else None.

(** IEEE 754 binary64, the [float] of CPython: 53 bits of precision,
    round to nearest, ties to even. *)
Module B64.

Definition prec : Z := 53.
Definition emax : Z := 1024.

Definition t : Set := SpecFloat.spec_float.

Definition of_Z (n : Z) : t := SpecFloat.binary_normalize prec emax n 0 false.

(** The double of a rational: the quotient of numerator by denominator,
    correctly rounded; the rational itself when it is the value of a
    double, as the fields of a configuration are. *)
Definition of_Q (q : Q) : t :=
  SpecFloat.SFdiv prec emax (of_Z (Qnum q)) (of_Z (Zpos (Qden q))).

(** [a + b] and [a >= b] on floats. *)
Definition add (a b : t) : t := SpecFloat.SFadd prec emax a b.

Definition ge (a b : t) : bool := SpecFloat.SFleb b a.

End B64.

(** [latency_margin + delay_before_playing + delay_after_playing +
    sound_duration] as the validator computes it: three float additions,
    from left to right. *)
Definition total_overhead_float (values : RoundsConfig) : B64.t :=
  B64.add
    (B64.add
       (B64.add (B64.of_Q (latency_margin values))
                (B64.of_Q (delay_before_playing values)))
       (B64.of_Q (delay_after_playing values)))
    (B64.of_Q (sound_duration values)).

(** The root validator as it runs: [assert lap_duration >= total] for
    every round, on floats. *)
Definition validate_timing_float (values : RoundsConfig) : bool :=
  let total := total_overhead_float values in
  forallb (fun round_config =>
             B64.ge (B64.of_Q (lap_duration round_config)) total)
          (rounds values).

(** [RoundsConfig(...)] with the validator as it runs. *)
Definition RoundsConfig_init_float (c : RoundsConfig) (g : MT.state)
  : option MT.state :=
  if RoundsConfig_fields_ok c && validate_timing_float c
  then Some (MT.seed (seed c))
  else None.

(** [Config(group_configs=..., rounds_config=...)]. *)
Definition Config_init (gs : list GroupConfig) (c : RoundsConfig) (g : MT.state)
  : option (list GroupConfig * MT.state) :=
  if forallb GroupConfig_fields_ok gs then
    match unique_names_and_keys gs with
    | Some gs' =>
        match RoundsConfig_init_float c g with
        | Some g' => Some (gs', g')
        | None => None
        end
    | None => None
    end
  else None.

(** The first [restart()] of a freshly constructed object: the private
    attributes do not exist before it, and it assigns all of them. *)
Definition blank : Private :=
  {| answers := []; play_delays := []; round_start_time := 0;
     time_when_paused := 0; paused := true; current_round := 0%nat;
     finished := false |}.

Definition boot (c : RoundsConfig) (g : MT.state) (tbl : list Submission.t) (now : Q)
  : option World :=
  match restart {| self := c; priv := blank; rng := g; table := tbl; wall := now |} with
  | Some (_, w) => Some w
  | None => None
  end.

(** ** The scoring engine: [Config.get_leaderboard_status] *)

Definition Submission_get_submissions (k : string) (r l : Z) : M (list Guess.t) :=
  tbl <- read_table ;; ret (Submission.get_submissions tbl k r l).

Definition Submission_is_disqualified (k : string) (r l : Z) : M bool :=
  tbl <- read_table ;; ret (Submission.is_disqualified tbl k r l).

(** [enumerate(l)]. *)
Definition py_enumerate {A} (l : list A) : list (nat * A) :=
  zip (seq 0 (length l)) l.

(** A [for] loop threading its local variables. *)
Fixpoint foldM {A B} (f : B -> A -> M B) (b : B) (l : list A) : M B :=
  match l with
  | [] => ret b
  | x :: l' => b' <- f b x ;; foldM f b' l'
  end.

(** Body of the inner loop: one lap of one group.  The loop variables
    are the list [answers] and the running [score]. *)
Definition score_lap (group_config : GroupConfig) (current_round : nat)
    (current_lap : Z) (acc : list Answer * Q) (it : nat * Guess.t)
  : M (list Answer * Q) :=
  let '(answers, score) := acc in
  let '(lap, correct_answer) := it in
  subs <- Submission_get_submissions (key group_config)
            (Z.of_nat current_round) (Z.of_nat lap) ;;
  guess <- lift (py_index subs (-1)) ;;
  dq <- Submission_is_disqualified (key group_config)
          (Z.of_nat current_round) (Z.of_nat lap) ;;
  res <-
    (if dq : bool then
       ret (Guess.disqualified, false, (score - (1 # 2))%Q)
     else
       rc <- get_current_round_config ;;
       if only_check_for_presence rc then
         if negb (Guess.eqb guess Guess.nothing)
         then ret (Guess.received, true, score)
         else ret (guess, false, score)
       else ret (guess, Guess.eqb guess correct_answer, score)) ;;
  let '(guess, correct, score) := res in
  let score := if correct : bool then (score + 1)%Q else score in
  let hide := current_lap <? Z.of_nat lap in
  ret (answers ++ [{| guess := guess; correct := correct; hide := hide |}], score).

(** Body of the outer loop: one leaderboard row. *)
Definition score_group (current_round : nat) (current_lap : Z)
    (correct_answers : list Guess.t) (group_config : GroupConfig)
  : M LeaderboardRow :=
  res <- foldM (score_lap group_config current_round current_lap)
           ([], 0%Q) (py_enumerate correct_answers) ;;
  let '(answers, score) := res in
  ret {| row_name := name group_config; row_answers := answers; score := score |}.

Definition get_leaderboard_status (group_configs : list GroupConfig)
  : M LeaderboardStatus :=
  current_correct_guess <- get_current_correct_guess ;;
  current_round <- get_current_round ;;
  current_lap <- get_current_lap ;;
  number_of_rounds <- get_number_of_rounds ;;
  number_of_laps <- get_current_number_of_laps ;;
  paused <- is_paused ;;
  time_before_next_lap <- time_before_next_lap ;;
  time_before_playing <- time_before_playing ;;
  finished <- is_finished ;;
  correct_answers <- get_current_round_answers ;;
  rows <- mapM (score_group current_round current_lap correct_answers)
            group_configs ;;
  ret {| st_current_correct_guess := current_correct_guess;
         st_current_round := current_round;
         st_current_lap := current_lap;
         st_number_of_rounds := number_of_rounds;
         st_number_of_laps := number_of_laps;
         st_paused := paused;
         st_time_before_next_lap := time_before_next_lap;
         st_time_before_playing := time_before_playing;
         st_finished := finished;
         leaderboard := rows |}.

(** ** The environment: what happens between two method calls *)

Definition advance (d : Q) (w : World) : World :=
  {| self := self w; priv := priv w; rng := rng w; table := table w;
     wall := (wall w + d)%Q |}.

Definition append_row (s : Submission.t) (w : World) : World :=
  {| self := self w; priv := priv w; rng := rng w; table := table w ++ [s];
     wall := wall w |}.

(** State after a call, when it returns. *)
Definition after {A} (c : M A) (w : World) : option World :=
  match c w with Some (_, w') => Some w' | None => None end.

(** Calls and environment moves that a running server performs:
    [play()], [pause()], a position query, a status request for a
    roster, the passing of [d] seconds and the storing of a row. *)
Inductive op : Type :=
  | OpPlay
  | OpPause
  | OpLap
  | OpStatus (gs : list GroupConfig)
  | OpWait (d : Q)
  | OpSubmit (s : Submission.t).

Definition run_op (o : op) (w : World) : option World :=
  match o with
  | OpPlay => after play w
  | OpPause => after pause w
  | OpLap => after get_current_lap w
  | OpStatus gs => after (get_leaderboard_status gs) w
  | OpWait d => Some (advance d w)
  | OpSubmit s => Some (append_row s w)
  end.

Fixpoint run (ops : list op) (w : World) : option World :=
  match ops with
  | [] => Some w
  | o :: ops' =>
      match run_op o w with
      | Some w' => run ops' w'
      | None => None
      end
  end.

(** Time only moves forward. *)
Definition op_ok (o : op) : Prop :=
  match o with
  | OpWait d => (0 <= d)%Q
  | _ => True
  end.

(** The states a server can be in: a validated configuration, its first
    [restart()], then any calls. *)
Definition reachable (w : World) : Prop :=
  exists c g0 g tbl now w0 ops,
    RoundsConfig_init c g0 = Some g /\
    boot c g tbl now = Some w0 /\
    Forall op_ok ops /\
    run ops w0 = Some w.

(** The clock alone: a trace of pauses, resumes and waits. *)
Inductive clock_event : Type :=
  | CPause
  | CPlay
  | CWait (d : Q).

Definition clock_step (e : clock_event) (w : World) : option World :=
  match e with
  | CPause => after pause w
  | CPlay => after play w
  | CWait d => Some (advance d w)
  end.

Fixpoint clock_run (es : list clock_event) (w : World) : option World :=
  match es with
  | [] => Some w
  | e :: es' =>
      match clock_step e w with
      | Some w' => clock_run es' w'
      | None => None
      end
  end.

(** Wall-clock time spent by a trace. *)
Fixpoint wall_duration (es : list clock_event) : Q :=
  match es with
  | [] => 0
  | CWait d :: es' => d + wall_duration es'
  | _ :: es' => wall_duration es'
  end.

(** Time a trace spends paused, when it starts paused or not ([p]). *)
Fixpoint paused_duration (es : list clock_event) (p : bool) : Q :=
  match es with
  | [] => 0
  | CPause :: es' => paused_duration es' true
  | CPlay :: es' => paused_duration es' false
  | CWait d :: es' => (if p then d else 0) + paused_duration es' p
  end.

(** ** Notions used in the statements *)

(** Active time shown by the clock: [self.time() - self.__round_start_time],
    the [elapsed] of [get_current_lap]. *)
Definition shown (w : World) : Q :=
  ((if paused (priv w) then time_when_paused (priv w) else wall w)
   - round_start_time (priv w))%Q.

(** [elapsed // lap_duration] as [get_current_lap] computes it. *)
Definition raw_lap (w : World) (rc : RoundConfig) : Z :=
  Qfloor (shown w / lap_duration rc).

Definition with_priv (p : Private) (w : World) : World :=
  {| self := self w; priv := p; rng := rng w; table := table w; wall := wall w |}.

Definition with_rng (g : MT.state) (w : World) : World :=
  {| self := self w; priv := priv w; rng := g; table := table w; wall := wall w |}.

(** What [pause()] does to the private attributes at time [now]. *)
Definition paused_at (now : Q) (p : Private) : Private :=
  if paused p then p else set_paused true (set_time_when_paused now p).

(** The private attributes right after [restart()], for the schedule
    [a], [d] it drew at time [now]. *)
Definition restarted (c : RoundsConfig) (a : list (list Guess.t))
    (d : list (list Q)) (now : Q) : Private :=
  {| answers := a; play_delays := d;
     round_start_time := if start_paused c then now else (now + (now - now))%Q;
     time_when_paused := now;
     paused := start_paused c;
     current_round := 0%nat;
     finished := false |}.

(** The schedule of a state: answers and play delays of every round. *)
Definition schedule (w : World) : list (list Guess.t) * list (list Q) :=
  (answers (priv w), play_delays (priv w)).

(** What one pass of the inner loop adds to the score of a group, read
    off the loop body itself (run from a score of zero). *)
Definition lap_points (w : World) (group_config : GroupConfig)
    (current_round : nat) (it : nat * Guess.t) : Q :=
  match score_lap group_config current_round 0 ([], 0%Q) it w with
  | Some ((_, s), _) => s
  | None => 0
  end.

(** The answer entry one pass of the inner loop appends. *)
Definition lap_entry (w : World) (group_config : GroupConfig)
    (current_round : nat) (current_lap : Z) (it : nat * Guess.t) : option Answer :=
  match score_lap group_config current_round current_lap ([], 0%Q) it w with
  | Some ((a, _), _) => last a
  | None => None
  end.

Definition Qsum (l : list Q) : Q := foldr Qplus 0%Q l.

(** One round of answers: one guessable category per lap. *)
Definition answers_ok (rc : RoundConfig) (row : list Guess.t) : Prop :=
  length row = Z.to_nat (lap_count rc) /\
  forall g, g ∈ row -> g ∈ Guess.possible_values.

(** One round of play delays: per lap, [start + r * (lap_duration - total)]
    for a draw [r] of [random()]. *)
Definition delays_ok (c : RoundsConfig) (rc : RoundConfig) (row : list Q) : Prop :=
  length row = Z.to_nat (lap_count rc) /\
  forall x, x ∈ row ->
    exists r, (0 <= r < 1)%Q /\
      x = (delay_before_playing c + r * (lap_duration rc - total_overhead c))%Q.

(** The last round of configuration [c] has run out in state [w]: [rc]
    is that round, [arow] its answers. *)
Definition frozen (c : RoundsConfig) (rc : RoundConfig) (arow : list Guess.t)
    (w : World) : Prop :=
  self w = c /\
  rounds c !! current_round (priv w) = Some rc /\
  (current_round (priv w) + 1)%nat = length (rounds c) /\
  finished (priv w) = true /\
  lap_count rc <= raw_lap w rc /\
  answers (priv w) !! current_round (priv w) = Some arow.

(** [c] always returns, touches nothing but the generator, yields a
    result satisfying [P], and its result and the generator state it
    leaves depend only on the declared fields of [self] and on the
    generator state it starts from. *)
Definition draws_with {A} (c : M A) (P : A -> Prop) : Prop :=
  forall w, exists y g',
    c w = Some (y, with_rng g' w) /\
    P y /\
    forall w2, self w2 = self w -> rng w2 = rng w ->
               c w2 = Some (y, with_rng g' w2).

(** A computation never changes the declared fields of [self]. *)
Definition keeps_self {A} (c : M A) : Prop :=
  forall w a w', c w = Some (a, w') -> self w' = self w.

(** A computation that only reads the state. *)
Definition reads_only {A} (c : M A) : Prop :=
  forall w a w', c w = Some (a, w') -> w' = w.

(** ** The claims that fail, as they are stated *)

(** Determinism including [restart()]: regenerating the schedule of a
    constructed and started configuration reproduces it. *)
Definition restart_reproduces_schedule (c : RoundsConfig) : Prop :=
  forall g0 g tbl now w1 w2,
    RoundsConfig_init c g0 = Some g ->
    boot c g tbl now = Some w1 ->
    restart w1 = Some (tt, w2) ->
    schedule w2 = schedule w1.

(** Every play offset lies in [[pre-delay, lap_duration - total_overhead)]. *)
Definition offsets_in_stated_interval (w : World) : Prop :=
  forall r rc row x,
    rounds (self w) !! r = Some rc ->
    play_delays (priv w) !! r = Some row ->
    x ∈ row ->
    (delay_before_playing (self w) <= x
     /\ x < lap_duration rc - total_overhead (self w))%Q.

(** A query is read-only: in every reachable state, calling it leaves
    the whole state unchanged. *)
Definition read_only {A} (query : M A) : Prop :=
  forall w a w', reachable w -> query w = Some (a, w') -> w' = w.

(** Construction fails exactly on a short lap or a duplicate key or name. *)
Definition short_lap (c : RoundsConfig) : Prop :=
  exists rc, rc ∈ rounds c /\ (lap_duration rc < total_overhead c)%Q.

Definition shared_key (gs : list GroupConfig) : Prop :=
  exists i j g1 g2, i <> j /\ gs !! i = Some g1 /\ gs !! j = Some g2
                    /\ key g1 = key g2.

Definition shared_name (gs : list GroupConfig) : Prop :=
  exists i j g1 g2, i <> j /\ gs !! i = Some g1 /\ gs !! j = Some g2
                    /\ name g1 = name g2.

Definition construction_fails_only_as_stated
    (gs : list GroupConfig) (c : RoundsConfig) : Prop :=
  forall g, Config_init gs c g = None <->
            short_lap c \/ shared_key gs \/ shared_name gs.

(** A round whose lap duration fails the test [lap_duration >= total] of
    the validator, [total] being the float sum. *)
Definition float_short_lap (c : RoundsConfig) : Prop :=
  exists rc, rc ∈ rounds c /\
    B64.ge (B64.of_Q (lap_duration rc)) (total_overhead_float c) = false.

(** Once the last lap of the last round is over, in the state [w1] left
    by the position query that found it so, every later query reports the
    clock paused. *)
Definition finished_stays_paused (w1 : World) : Prop :=
  forall ops w2,
    Forall op_ok ops -> run ops w1 = Some w2 ->
    is_paused w2 = Some (true, w2).

(** ** Concrete configurations and runs *)

(** [RoundConfig()] and [RoundsConfig()] with the defaults of the source. *)
Definition default_round (presence : bool) : RoundConfig :=
  {| lap_count := 20; lap_duration := 13; only_check_for_presence := presence |}.

Definition default_rounds_config : RoundsConfig :=
  {| rounds := [default_round true; default_round false; default_round false;
                default_round false; default_round false];
     seed := 1234;
     start_paused := true;
     restart_when_finished := false;
     pause_between_rounds := true;
     latency_margin := 1;
     delay_before_playing := 2;
     delay_after_playing := 1;
     sound_duration := 5 |}.

(** Two rounds of three laps of ten seconds, overhead nine seconds. *)
Definition sample_config (restart_at_end between : bool) : RoundsConfig :=
  {| rounds := [ {| lap_count := 3; lap_duration := 10;
                    only_check_for_presence := false |};
                 {| lap_count := 3; lap_duration := 10;
                    only_check_for_presence := true |} ];
     seed := 1234;
     start_paused := true;
     restart_when_finished := restart_at_end;
     pause_between_rounds := between;
     latency_margin := 1;
     delay_before_playing := 2;
     delay_after_playing := 1;
     sound_duration := 5 |}.

(** A configuration with a round of zero laps: long enough laps, no
    group at all, but [lap_count] is not a [PositiveInt]. *)
Definition zero_lap_config : RoundsConfig :=
  {| rounds := [ {| lap_count := 0; lap_duration := 13;
                    only_check_for_presence := false |} ];
     seed := 1234;
     start_paused := true;
     restart_when_finished := false;
     pause_between_rounds := true;
     latency_margin := 1;
     delay_before_playing := 2;
     delay_after_playing := 1;
     sound_duration := 5 |}.

(** Two configurations with valid fields on which the float sum and the
    exact sum of the four delays differ.  Every field is the exact value
    of a double.

    Delays 0.1, 0.1, 0.4, 0.3 and laps of 0.9: the exact sum of the four
    doubles is the double 0.9, the float sum is the next double. *)
Definition rounding_rejected_config : RoundsConfig :=
  {| rounds := [ {| lap_count := 3;
                    lap_duration := 8106479329266893 # 9007199254740992;
                    only_check_for_presence := false |} ];
     seed := 1234;
     start_paused := true;
     restart_when_finished := false;
     pause_between_rounds := true;
     latency_margin := 3602879701896397 # 36028797018963968;
     delay_before_playing := 3602879701896397 # 36028797018963968;
     delay_after_playing := 3602879701896397 # 9007199254740992;
     sound_duration := 5404319552844595 # 18014398509481984 |}.

(** Delays 5.4, 2.5, 2.8, 3.9 and laps of 14.6: the exact sum of the four
    doubles is greater than the double 14.6, the float sum is that
    double. *)
Definition rounding_accepted_config : RoundsConfig :=
  {| rounds := [ {| lap_count := 3;
                    lap_duration := 8219069319951155 # 562949953421312;
                    only_check_for_presence := false |} ];
     seed := 1234;
     start_paused := true;
     restart_when_finished := false;
     pause_between_rounds := true;
     latency_margin := 3039929748475085 # 562949953421312;
     delay_before_playing := 5 # 2;
     delay_after_playing := 3152519739159347 # 1125899906842624;
     sound_duration := 8782019273372467 # 2251799813685248 |}.

(** A roster and a table for the sample runs: in round 0 the correct
    categories are helicopter, fire, birds. *)
Definition sample_group : GroupConfig :=
  {| key := "k1"; name := "team one"; admin := false |}.

Definition sample_row (i ts l : Z) (k : string) (g : Guess.t) (dq : bool)
  : Submission.t :=
  {| Submission.id := i; Submission.timestamp := ts; Submission.seed := 1234;
     Submission.round := 0; Submission.lap := l; Submission.key := k;
     Submission.guess := g; Submission.disqualified := dq |}.

(** Lap 0: three guesses, the earliest one (at 105) is wrong.
    Lap 1: a correct guess and a disqualification.
    Lap 2: a correct guess stored before the lap is reached. *)
Definition sample_table : list Submission.t :=
  [ sample_row 1 106 0 "k1" Guess.helicopter false;
    sample_row 2 105 0 "k1" Guess.fire false;
    sample_row 3 107 0 "k1" Guess.birds false;
    sample_row 4 115 1 "k1" Guess.fire false;
    sample_row 5 116 1 "k1" Guess.nothing true;
    sample_row 6 117 2 "k1" Guess.birds false ].

Definition run_from (c : RoundsConfig) (now : Q) (ops : list op) : option World :=
  match RoundsConfig_init c (MT.mk [] 0) with
  | Some g =>
      match boot c g [] now with
      | Some w => run ops w
      | None => None
      end
  | None => None
  end.

(** The state of a run that is known to return. *)
Definition force (o : option World) : World :=
  match o with
  | Some w => w
  | None => {| self := sample_config false false; priv := blank;
               rng := MT.mk [] 0; table := []; wall := 0 |}
  end.

(** The default configuration, constructed and started at time 0. *)
Definition default_started : World :=
  Eval vm_compute in force (run_from default_rounds_config 0 []).

(** The same after a second [restart()]. *)
Definition default_restarted : World :=
  Eval vm_compute in force (after restart default_started).

(** Just started, still paused. *)
Definition sample_paused : World :=
  Eval vm_compute in force (run_from (sample_config false false) 100 []).

(** Started and resumed four seconds later. *)
Definition sample_running : World :=
  Eval vm_compute in
    force (run_from (sample_config false false) 100 [OpWait 4; OpPlay]).

(** Running, in lap 1 of round 0, with the sample table stored. *)
Definition sample_scored : World :=
  Eval vm_compute in
    force (run_from (sample_config false false) 100
             ([OpWait 4; OpPlay; OpWait 14] ++ map OpSubmit sample_table)).

(** Round 0 has just run its thirty seconds; no query came since. *)
Definition sample_started_between : World :=
  Eval vm_compute in force (run_from (sample_config false true) 100 []).

Definition sample_boundary : World :=
  Eval vm_compute in
    force (run_from (sample_config false true) 100 [OpWait 4; OpPlay; OpWait 30]).

Definition sample_after_playing_query : World :=
  Eval vm_compute in force (after time_before_playing sample_boundary).

Definition sample_after_guess_query : World :=
  Eval vm_compute in force (after get_current_correct_guess sample_boundary).

(** The last round has run its thirty seconds; no query came since.
    Without and with [restart_when_finished]. *)
Definition sample_end : World :=
  Eval vm_compute in
    force (run_from (sample_config false false) 100
             [OpWait 4; OpPlay; OpWait 30; OpLap; OpWait 30]).

Definition sample_end_restarting : World :=
  Eval vm_compute in
    force (run_from (sample_config true false) 100
             [OpWait 4; OpPlay; OpWait 30; OpLap; OpWait 30]).

(** Both rounds have run: finished, paused, frozen. *)
Definition sample_finished : World :=
  Eval vm_compute in
    force (run_from (sample_config false false) 100
             [OpWait 4; OpPlay; OpWait 30; OpLap; OpWait 30; OpLap]).

(** The finished game after a [play()]. *)
Definition sample_finished_resumed : World :=
  Eval vm_compute in force (run [OpPlay] sample_finished).

(** ** The rest of [models.py], [app.py] and [play.py] *)

(** [Config.get_group_by_name] and [Config.get_group_by_key]:
    [next(filter(...))], the first match; [StopIteration] becomes an
    [IndexError]. *)
Definition get_group_by_name (group_configs : list GroupConfig) (n : string)
  : option GroupConfig :=
  head (filter (fun group_config => name group_config = n) group_configs).

Definition get_group_by_key (group_configs : list GroupConfig) (k : string)
  : option GroupConfig :=
  head (filter (fun group_config => key group_config = k) group_configs).

(** The [value] of a member of [Guess], and [CATEGORIES] of [play.py]. *)
Definition Guess_value (g : Guess.t) : string :=
  match g with
  | Guess.birds => "birds"
  | Guess.chainsaw => "chainsaw"
  | Guess.fire => "fire"
  | Guess.handsaw => "handsaw"
  | Guess.helicopter => "helicopter"
  | Guess.nothing => "nothing"
  | Guess.received => "received"
  | Guess.disqualified => "disqualified"
  end.

Definition CATEGORIES : list string :=
  ["birds"; "chainsaw"; "fire"; "handsaw"; "helicopter"].

(** [s.startswith(p)] and [s[n:]] on strings. *)
Definition py_startswith (s p : string) : bool := String.prefix p s.

Fixpoint py_slice_from (n : nat) (s : string) : string :=
  match n, s with
  | O, _ => s
  | S n', String _ s' => py_slice_from n' s'
  | S _, EmptyString => EmptyString
  end.

(** [PrefixMiddleware.__call__] of [app.py].  The WSGI environment is a
    dictionary, here with string values (the two entries the method
    touches are strings); the method updates it in place and hands it to
    the wrapped application, whose answer [app environ] it returns, or it
    answers by itself through [start_response]. *)
Inductive wsgi_result (R : Type) : Type :=
  | Passed (environ : gmap string string) (r : R)
  | Rejected (status : string) (headers : list (string * string))
             (body : list string).

Arguments Passed {R} environ r.
Arguments Rejected {R} status headers body.

Definition PrefixMiddleware_call {R} (prefix : string)
    (app : gmap string string -> R) (environ : gmap string string)
  : option (wsgi_result R) :=
  match environ !! "PATH_INFO" with
  | None => None
  | Some path_info =>
      if py_startswith path_info prefix then
        let environ := <["PATH_INFO" := py_slice_from (String.length prefix) path_info]> environ in
        let environ := <["SCRIPT_NAME" := prefix]> environ in
        Some (Passed environ (app environ))
      else
        Some (Rejected "404" [("Content-Type", "text/plain")]
                ["This url does not belong to the app."])
  end.

(** ** Well-formed states *)

(** What construction and [restart()] establish and every call keeps:
    validated fields and timing, a round index inside the round list
    (when there is a round at all), a schedule with one guessable answer
    and one offset in range per lap of every round, the finished flag
    only in the last round, and a pause instant that is not in the
    future. *)
Definition well_formed (w : World) : Prop :=
  RoundsConfig_fields_ok (self w) = true /\
  validate_timing (self w) = true /\
  (rounds (self w) <> [] ->
   (current_round (priv w) < length (rounds (self w)))%nat) /\
  Forall2 answers_ok (rounds (self w)) (answers (priv w)) /\
  Forall2 (delays_ok (self w)) (rounds (self w)) (play_delays (priv w)) /\
  (finished (priv w) = true ->
   (current_round (priv w) + 1)%nat = length (rounds (self w))) /\
  (paused (priv w) = true -> (time_when_paused (priv w) <= wall w)%Q).

(** A computation keeps a property of the state. *)
Definition keeps {A} (P : World -> Prop) (c : M A) : Prop :=
  forall w a w', P w -> c w = Some (a, w') -> P w'.

(** The clock was paused a second after the thirty seconds of round 0
    had run, before any query; five more seconds have passed. *)
Definition sample_paused_late : World :=
  Eval vm_compute in
    force (run_from (sample_config false true) 100
             [OpWait 4; OpPlay; OpWait 31; OpPause; OpWait 5]).

(** Counting in a leaderboard row: the entries marked correct, and the
    laps of [laps] in which some stored row of the group carries the
    disqualified flag. *)
Definition correct_count (entries : list Answer) : nat :=
  length (filter (fun a => correct a = true) entries).

Definition disqualified_laps (tbl : list Submission.t) (k : string) (r : nat)
    (laps : list nat) : nat :=
  length (filter (fun lap =>
                    Submission.is_disqualified tbl k (Z.of_nat r) (Z.of_nat lap) = true)
                 laps).

(** A second group, and a configuration without rounds. *)
Definition sample_group_two : GroupConfig :=
  {| key := "k2"; name := "team two"; admin := false |}.

Definition no_rounds_config : RoundsConfig :=
  {| rounds := [];
     seed := 1234;
     start_paused := true;
     restart_when_finished := false;
     pause_between_rounds := true;
     latency_margin := 1;
     delay_before_playing := 2;
     delay_after_playing := 1;
     sound_duration := 5 |}.

(** A request environment for the path [/lelec/leaderboard]. *)
Definition sample_environ : gmap string string :=
  <["PATH_INFO" := "/lelec/leaderboard"]> (<["REQUEST_METHOD" := "GET"]> ∅).

(** Rows in an order in which no row comes before a newer one. *)
Fixpoint newest_first (l : list Submission.t) : Prop :=
  match l with
  | [] => True
  | x :: l' =>
      Forall (fun y => Submission.timestamp y <= Submission.timestamp x) l'
      /\ newest_first l'
  end.

(* ===================================================================== *)
(** * Properties *)

(** ** Reasoning about the monad *)

Ltac munfold :=
  unfold after, get_leaderboard_status, score_group, score_lap,
    Submission_get_submissions, Submission_is_disqualified, read_table,
    time_before_playing, time_before_next_lap, get_current_correct_guess,
    accepts_submissions, get_current_play_delay, get_current_time_within_lap,
    get_current_lap, play, pause, time, get_current_round_answers,
    get_current_number_of_laps, get_current_round_config,
    get_number_of_rounds, get_current_round, is_finished, is_paused,
    modify_priv, set_priv, time_time, field, attr, lift, raise, bind, ret in *.

Ltac mred :=
  cbv beta iota;
  cbn [self priv rng table wall answers play_delays round_start_time
       time_when_paused paused current_round finished set_answers
       set_play_delays set_round_start_time set_time_when_paused set_paused
       set_current_round set_finished fst snd id].

Lemma bind_some {A B} (c : M A) (k : A -> M B) w a w' :
  c w = Some (a, w') -> bind c k w = k a w'.
Proof. intros H. unfold bind. now rewrite H. Qed.

Lemma bind_inv {A B} (c : M A) (k : A -> M B) w b w' :
  bind c k w = Some (b, w') ->
  exists a w1, c w = Some (a, w1) /\ k a w1 = Some (b, w').
Proof.
  unfold bind. destruct (c w) as [[a w1]|]; [|discriminate].
  intros H. now exists a, w1.
Qed.

(** ** The clock *)

Section Clock.

Lemma pause_paused w :
  paused (priv w) = true -> pause w = Some (tt, w).
Proof. intros H. munfold. now rewrite H. Qed.

Lemma play_running w :
  paused (priv w) = false -> play w = Some (tt, w).
Proof. intros H. munfold. now rewrite H. Qed.

Lemma play_paused w :
  paused (priv w) = true ->
  play w = Some (tt,
    {| self := self w;
       priv := set_paused false
                 (set_round_start_time
                    (round_start_time (priv w)
                     + (wall w - time_when_paused (priv w)))%Q (priv w));
       rng := rng w; table := table w; wall := wall w |}).
Proof. intros H. munfold. now rewrite H. Qed.

Lemma pause_running w :
  paused (priv w) = false ->
  pause w = Some (tt,
    {| self := self w;
       priv := set_paused true (set_time_when_paused (wall w) (priv w));
       rng := rng w; table := table w; wall := wall w |}).
Proof. intros H. munfold. now rewrite H. Qed.

Lemma time_value w :
  time w = Some (if paused (priv w) then time_when_paused (priv w) else wall w, w).
Proof. munfold. now destruct (paused (priv w)). Qed.

End Clock.

Section ClockTrace.

Lemma clock_run_total es : forall w,
  exists w', clock_run es w = Some w' /\
    (wall w' == wall w + wall_duration es)%Q /\
    (shown w' == shown w
                 + (wall_duration es - paused_duration es (paused (priv w))))%Q.
Proof.
  induction es as [|e es IH]; intros w.
  - exists w. cbn. repeat split; lra.
  - destruct e as [| |d]; cbn [clock_run clock_step wall_duration paused_duration].
    + destruct (paused (priv w)) eqn:Hp; unfold after.
      * rewrite (pause_paused w Hp).
        destruct (IH w) as (w' & Hr & Hw & Hs). exists w'.
        rewrite Hp in Hs. auto.
      * rewrite (pause_running w Hp).
        match goal with |- context [clock_run es ?x] =>
          destruct (IH x) as (w' & Hr & Hw & Hs) end.
        exists w'. split; [exact Hr|]. split; [exact Hw|].
        rewrite Hs. unfold shown. cbn. rewrite Hp. lra.
    + destruct (paused (priv w)) eqn:Hp; unfold after.
      * rewrite (play_paused w Hp).
        match goal with |- context [clock_run es ?x] =>
          destruct (IH x) as (w' & Hr & Hw & Hs) end.
        exists w'. split; [exact Hr|]. split; [exact Hw|].
        rewrite Hs. unfold shown. cbn. rewrite Hp. lra.
      * rewrite (play_running w Hp).
        destruct (IH w) as (w' & Hr & Hw & Hs). exists w'.
        rewrite Hp in Hs. auto.
    + destruct (IH (advance d w)) as (w' & Hr & Hw & Hs).
      exists w'. split; [exact Hr|]. split.
      * rewrite Hw. cbn. lra.
      * rewrite Hs. unfold shown. cbn. destruct (paused (priv w)); lra.
Qed.

End ClockTrace.

(** C4. The clock is a pausable stopwatch: [pause()] on a paused clock
    and [play()] on a running clock change nothing; [play()] on a paused
    clock moves the reference start time forward by exactly the length of
    the pause, [now - time_when_paused], and clears the flag; and after
    any trace of pauses, resumes and waits the active time [time() -
    round_start_time] has grown by the wall-clock time of the trace minus
    the time it spent paused. *)
Theorem clock_pausable_stopwatch (wp wr w : World) (es : list clock_event) :
  paused (priv wp) = true ->
  paused (priv wr) = false ->
  pause wp = Some (tt, wp) /\
  play wr = Some (tt, wr) /\
  (exists wp',
     play wp = Some (tt, wp') /\
     paused (priv wp') = false /\
     round_start_time (priv wp')
     = (round_start_time (priv wp) + (wall wp - time_when_paused (priv wp)))%Q /\
     time_when_paused (priv wp') = time_when_paused (priv wp) /\
     wall wp' = wall wp) /\
  (exists w' t t',
     clock_run es w = Some w' /\
     time w = Some (t, w) /\
     time w' = Some (t', w') /\
     (wall w' == wall w + wall_duration es)%Q /\
     (t' - round_start_time (priv w')
      == (t - round_start_time (priv w))
         + (wall_duration es - paused_duration es (paused (priv w))))%Q).
Proof.
  intros Hp Hr. split; [now apply pause_paused|].
  split; [now apply play_running|]. split.
  - eexists. split; [now apply play_paused|]. cbn. auto.
  - destruct (clock_run_total es w) as (w' & Hrun & Hw & Hs).
    exists w'. do 2 eexists. split; [exact Hrun|].
    split; [apply time_value|]. split; [apply time_value|].
    split; [exact Hw|]. exact Hs.
Qed.

Lemma clock_pausable_stopwatch_witness :
  run_from (sample_config false false) 100 [] = Some sample_paused /\
  run_from (sample_config false false) 100 [OpWait 4; OpPlay] = Some sample_running /\
  pause sample_paused = Some (tt, sample_paused) /\
  play sample_running = Some (tt, sample_running) /\
  exists w',
    clock_run [CWait 3; CPause; CWait 5; CPlay; CWait 2] sample_running = Some w' /\
    (shown w' == shown sample_running + 5)%Q.
Proof.
  split; [vm_compute; reflexivity|]. split; [vm_compute; reflexivity|].
  destruct (clock_pausable_stopwatch sample_paused sample_running sample_running
              [CWait 3; CPause; CWait 5; CPlay; CWait 2] eq_refl eq_refl)
    as (H1 & H2 & _ & (w' & t & t' & Hrun & Ht & Ht' & _ & Hs)).
  split; [exact H1|]. split; [exact H2|].
  exists w'. split; [exact Hrun|].
  rewrite time_value in Ht, Ht'.
  injection Ht as <-. injection Ht' as <-.
  unfold shown. rewrite Hs. cbn [wall_duration paused_duration].
  vm_compute. reflexivity.
Defined.

(** ** Python indexing *)

Lemma py_index_last {A} (l : list A) : l <> [] -> py_index l (-1) = last l.
Proof.
  intros Hl. unfold py_index. cbn [Z.leb Z.compare].
  destruct l as [|a l]; [congruence|].
  replace (- Z.of_nat (length (a :: l)) <=? -1) with true
    by (symmetry; apply Z.leb_le; cbn [length]; lia).
  rewrite last_lookup. f_equal. cbn [length]. lia.
Qed.

Lemma last_map {A B} (f : A -> B) (l : list A) :
  last (map f l) = option_map f (last l).
Proof.
  induction l as [|a [|b l] IH]; [reflexivity..|].
  cbn [map] in *. now rewrite !last_cons_cons.
Qed.

Lemma py_index_nat {A} (l : list A) (i : Z) :
  0 <= i -> py_index l i = l !! Z.to_nat i.
Proof.
  intros Hi. unfold py_index.
  now replace (0 <=? i) with true by (symmetry; apply Z.leb_le; lia).
Qed.

(** ** Ordering of the submissions of a slot *)

Section Ordering.

Import Submission.

Lemma elem_of_insert_desc s l x :
  x ∈ insert_desc s l <-> x = s \/ x ∈ l.
Proof.
  induction l as [|y l IH]; cbn [insert_desc].
  - rewrite list_elem_of_singleton, elem_of_nil. tauto.
  - destruct (timestamp y <=? timestamp s).
    + rewrite !elem_of_cons. tauto.
    + rewrite !elem_of_cons, IH. tauto.
Qed.

Lemma elem_of_order_by l x :
  x ∈ order_by_timestamp_desc l <-> x ∈ l.
Proof.
  induction l as [|y l IH]; cbn [order_by_timestamp_desc foldr].
  - reflexivity.
  - fold (order_by_timestamp_desc l).
    rewrite elem_of_insert_desc, IH, elem_of_cons. tauto.
Qed.

Lemma length_insert_desc s l : length (insert_desc s l) = S (length l).
Proof.
  induction l as [|y l IH]; cbn [insert_desc]; [reflexivity|].
  destruct (timestamp y <=? timestamp s); cbn [length]; [reflexivity|].
  now rewrite IH.
Qed.

Lemma order_by_nil_inv l : order_by_timestamp_desc l = [] -> l = [].
Proof.
  destruct l as [|y l]; [reflexivity|].
  cbn [order_by_timestamp_desc foldr]. intros H.
  apply (f_equal length) in H. rewrite length_insert_desc in H. discriminate.
Qed.

(** A row older than every row of a sorted list goes to its end. *)
Lemma insert_desc_oldest s l :
  (forall x, x ∈ l -> timestamp s < timestamp x) ->
  insert_desc s l = l ++ [s].
Proof.
  induction l as [|y l IH]; intros H; cbn [insert_desc]; [reflexivity|].
  replace (timestamp y <=? timestamp s) with false.
  - cbn [app]. f_equal. apply IH. intros x Hx. apply H.
    apply elem_of_cons. now right.
  - symmetry. apply Z.leb_gt. apply H. apply elem_of_cons. now left.
Qed.

(** Inserting a younger row leaves the last row in place. *)
Lemma insert_desc_keeps_last s y l :
  last l = Some s -> timestamp s < timestamp y ->
  last (insert_desc y l) = Some s.
Proof.
  induction l as [|z l IH]; intros Hl Hlt; [discriminate|].
  cbn [insert_desc].
  destruct (timestamp z <=? timestamp y) eqn:Hz.
  - now rewrite last_cons_cons.
  - destruct l as [|z' l].
    + cbn in Hl. injection Hl as ->. apply Z.leb_gt in Hz. lia.
    + rewrite last_cons_cons in Hl. specialize (IH Hl Hlt).
      destruct (insert_desc y (z' :: l)) as [|u v] eqn:E;
        [discriminate IH|].
      rewrite last_cons_cons. exact IH.
Qed.

(** The row with the strictly earliest timestamp comes last. *)
Lemma order_by_last l1 s l2 :
  (forall x, x ∈ l1 ++ l2 -> timestamp s < timestamp x) ->
  last (order_by_timestamp_desc (l1 ++ s :: l2)) = Some s.
Proof.
  induction l1 as [|y l1 IH]; intros H.
  - cbn [app order_by_timestamp_desc foldr].
    fold (order_by_timestamp_desc l2).
    rewrite insert_desc_oldest.
    + apply last_snoc.
    + intros x Hx. apply H. now apply (proj1 (elem_of_order_by _ _)) in Hx.
  - cbn [app order_by_timestamp_desc foldr].
    fold (order_by_timestamp_desc (l1 ++ s :: l2)).
    apply insert_desc_keeps_last.
    + apply IH. intros x Hx. apply H. cbn [app]. apply elem_of_cons. now right.
    + apply H. cbn [app]. apply elem_of_cons. now left.
Qed.

(** Whatever the ties, the last row of the ordering has the least
    timestamp. *)
Lemma insert_desc_last_min y l :
  (forall m, last l = Some m -> forall x, x ∈ l -> timestamp m <= timestamp x) ->
  forall m, last (insert_desc y l) = Some m ->
            forall x, x ∈ insert_desc y l -> timestamp m <= timestamp x.
Proof.
  induction l as [|z l IH]; intros Hl m Hm x Hx; cbn [insert_desc] in *.
  - injection Hm as <-. apply list_elem_of_singleton in Hx. subst x. lia.
  - destruct (timestamp z <=? timestamp y) eqn:Hz.
    + rewrite last_cons_cons in Hm. apply Z.leb_le in Hz.
      pose proof (Hl m Hm z (list_elem_of_here _ _)) as Hmz.
      apply elem_of_cons in Hx. destruct Hx as [-> | Hx]; [lia|].
      now apply (Hl m Hm).
    + apply Z.leb_gt in Hz.
      assert (Hl' : forall m, last l = Some m ->
                      forall x, x ∈ l -> timestamp m <= timestamp x).
      { intros m' Hm' x' Hx'. destruct l as [|z' l']; [discriminate Hm'|].
        apply (Hl m'); [now rewrite last_cons_cons | now apply list_elem_of_further]. }
      destruct (insert_desc y l) as [|u v] eqn:E.
      { apply (f_equal length) in E. rewrite length_insert_desc in E. discriminate E. }
      rewrite last_cons_cons in Hm.
      pose proof (IH Hl' m Hm) as Hmin.
      assert (Hy : y ∈ u :: v) by (rewrite <- E; apply elem_of_insert_desc; now left).
      apply elem_of_cons in Hx. destruct Hx as [-> | Hx].
      * specialize (Hmin y Hy). lia.
      * now apply Hmin.
Qed.

Lemma order_by_last_min l m :
  last (order_by_timestamp_desc l) = Some m ->
  m ∈ l /\ forall x, x ∈ l -> timestamp m <= timestamp x.
Proof.
  intros Hm. split.
  - apply elem_of_order_by. apply list_elem_of_lookup.
    rewrite last_lookup in Hm. eauto.
  - revert m Hm. induction l as [|y l IH]; intros m Hm x Hx.
    + now apply elem_of_nil in Hx.
    + cbn [order_by_timestamp_desc foldr] in Hm.
      fold (order_by_timestamp_desc l) in Hm.
      apply (insert_desc_last_min y (order_by_timestamp_desc l)) with (m := m).
      * intros m' Hm' x' Hx'. apply IH; [exact Hm'|].
        now apply (proj1 (elem_of_order_by _ _)) in Hx'.
      * exact Hm.
      * apply elem_of_insert_desc. apply elem_of_cons in Hx.
        destruct Hx as [-> | Hx]; [now left|].
        right. now apply elem_of_order_by.
Qed.

Lemma get_submissions_nonempty tbl k r l : get_submissions tbl k r l <> [].
Proof.
  unfold get_submissions.
  destruct (order_by_timestamp_desc (filter_by k r l tbl)); discriminate.
Qed.

Lemma get_submissions_last_total tbl k r l :
  exists g, py_index (get_submissions tbl k r l) (-1) = Some g.
Proof.
  rewrite py_index_last by apply get_submissions_nonempty.
  destruct (get_submissions tbl k r l) as [|a l'] eqn:E.
  - now apply get_submissions_nonempty in E.
  - clear E. revert a. induction l' as [|b l' IH]; intros a.
    + now exists a.
    + rewrite last_cons_cons. apply IH.
Qed.

(** The guess taken for a non-empty slot is the guess of a row of the
    slot with the least timestamp. *)
Lemma get_submissions_minimal tbl k r l :
  filter_by k r l tbl <> [] ->
  exists s,
    s ∈ filter_by k r l tbl /\
    (forall x, x ∈ filter_by k r l tbl -> timestamp s <= timestamp x) /\
    py_index (get_submissions tbl k r l) (-1) = Some (guess s).
Proof.
  intros Hne.
  rewrite py_index_last by apply get_submissions_nonempty.
  unfold get_submissions.
  destruct (order_by_timestamp_desc (filter_by k r l tbl)) as [|a l'] eqn:E.
  { now apply order_by_nil_inv in E. }
  rewrite <- E, last_map.
  destruct (last (order_by_timestamp_desc (filter_by k r l tbl))) as [s|] eqn:Hs.
  - destruct (order_by_last_min _ _ Hs) as [Hin Hmin]. now exists s.
  - rewrite E in Hs. apply last_None in Hs. discriminate Hs.
Qed.

Lemma get_submissions_earliest tbl k r l l1 s l2 :
  filter_by k r l tbl = l1 ++ s :: l2 ->
  (forall x, x ∈ l1 ++ l2 -> timestamp s < timestamp x) ->
  py_index (get_submissions tbl k r l) (-1) = Some (guess s).
Proof.
  intros Hf Hmin.
  rewrite py_index_last by apply get_submissions_nonempty.
  unfold get_submissions. rewrite Hf.
  pose proof (order_by_last l1 s l2 Hmin) as Hlast.
  destruct (order_by_timestamp_desc (l1 ++ s :: l2)) as [|a l'] eqn:E;
    [discriminate|].
  now rewrite last_map, Hlast.
Qed.

Lemma is_disqualified_true tbl k r l :
  is_disqualified tbl k r l = true <->
  exists s, s ∈ tbl /\ key s = k /\ round s = r /\ lap s = l
            /\ disqualified s = true.
Proof.
  unfold is_disqualified, filter_by. rewrite existsb_exists. split.
  - intros (s & Hin & Hd). apply list_elem_of_In, list_elem_of_filter in Hin.
    destruct Hin as ((? & ? & ?) & ?). now exists s.
  - intros (s & Hin & Hk & Hr & Hl & Hd). exists s. split; [|exact Hd].
    apply list_elem_of_In, list_elem_of_filter. auto.
Qed.

End Ordering.

(** ** The scoring loop *)

Section Scoring.

Variables (w : World) (group_config : GroupConfig) (r : nat).

Let slot_guesses (lap : nat) : list Guess.t :=
  Submission.get_submissions (table w) (key group_config)
    (Z.of_nat r) (Z.of_nat lap).

Let slot_disqualified (lap : nat) : bool :=
  Submission.is_disqualified (table w) (key group_config)
    (Z.of_nat r) (Z.of_nat lap).

(** A disqualified slot never looks at the round configuration. *)
Lemma score_lap_disqualified current_lap acc sc lap correct_answer :
  slot_disqualified lap = true ->
  score_lap group_config r current_lap (acc, sc)
    (lap, correct_answer) w
  = Some ((acc ++ [{| guess := Guess.disqualified; correct := false;
                      hide := current_lap <? Z.of_nat lap |}],
           (sc - (1 # 2))%Q), w).
Proof.
  intros Hd. subst slot_disqualified slot_guesses. cbn beta in Hd.
  destruct (get_submissions_last_total (table w) (key group_config)
              (Z.of_nat r) (Z.of_nat lap)) as (g0 & Hg0).
  munfold. rewrite Hg0, Hd. reflexivity.
Qed.

(** The other slots, in a round that exists. *)
Lemma score_lap_regular current_lap acc sc lap correct_answer rc g0 :
  rounds (self w) !! current_round (priv w) = Some rc ->
  slot_disqualified lap = false ->
  py_index (slot_guesses lap) (-1) = Some g0 ->
  score_lap group_config r current_lap (acc, sc)
    (lap, correct_answer) w
  = Some
      (if only_check_for_presence rc then
         if Guess.eqb g0 Guess.nothing then
           (acc ++ [{| guess := g0; correct := false;
                       hide := current_lap <? Z.of_nat lap |}], sc)
         else
           (acc ++ [{| guess := Guess.received; correct := true;
                       hide := current_lap <? Z.of_nat lap |}], (sc + 1)%Q)
       else
         (acc ++ [{| guess := g0; correct := Guess.eqb g0 correct_answer;
                     hide := current_lap <? Z.of_nat lap |}],
          if Guess.eqb g0 correct_answer then (sc + 1)%Q else sc), w).
Proof.
  intros Hrc Hd Hg0. subst slot_disqualified slot_guesses. cbn beta in *.
  munfold. rewrite Hg0, Hd, Hrc.
  destruct (only_check_for_presence rc).
  - now destruct (Guess.eqb g0 Guess.nothing).
  - now destruct (Guess.eqb g0 correct_answer).
Qed.

(** One pass appends one entry, adds the points of the lap, and leaves
    the state alone; the current lap only decides the [hide] flag. *)
Lemma score_lap_step rc current_lap acc sc it :
  rounds (self w) !! current_round (priv w) = Some rc ->
  exists a sc',
    score_lap group_config r current_lap (acc, sc) it w
    = Some ((acc ++ [a], sc'), w) /\
    (sc' == sc + lap_points w group_config r it)%Q /\
    lap_entry w group_config r current_lap it = Some a /\
    hide a = (current_lap <? Z.of_nat (fst it)) /\
    forall current_lap' a',
      lap_entry w group_config r current_lap' it = Some a' ->
      guess a' = guess a /\ correct a' = correct a.
Proof.
  intros Hrc. destruct it as [lap ca]. unfold lap_points, lap_entry.
  destruct (slot_disqualified lap) eqn:Hd.
  - rewrite !score_lap_disqualified by exact Hd.
    do 2 eexists. split; [reflexivity|]. cbn [app last fst hide].
    split; [lra|]. split; [reflexivity|]. split; [reflexivity|].
    intros cl' a'. rewrite score_lap_disqualified by exact Hd.
    cbn [app last]. intros [= <-]. split; reflexivity.
  - destruct (get_submissions_last_total (table w) (key group_config)
                (Z.of_nat r) (Z.of_nat lap)) as (g0 & Hg0).
    rewrite !(score_lap_regular _ _ _ _ _ rc g0 Hrc Hd Hg0).
    destruct (only_check_for_presence rc) eqn:Hp;
      [destruct (Guess.eqb g0 Guess.nothing) eqn:Hn|
       destruct (Guess.eqb g0 ca) eqn:Hc];
      (do 2 eexists; split; [reflexivity|]; cbn [app last fst hide];
       split; [lra|]; split; [reflexivity|]; split; [reflexivity|];
       intros cl' a';
       rewrite (score_lap_regular _ _ _ _ _ rc g0 Hrc Hd Hg0), Hp;
       rewrite ?Hn, ?Hc; cbn [app last]; intros [= <-]; split; reflexivity).
Qed.

(** The inner loop over any list of laps. *)
Lemma foldM_score_lap rc current_lap its :
  rounds (self w) !! current_round (priv w) = Some rc ->
  forall acc sc,
  exists entries sc',
    foldM (score_lap group_config r current_lap) (acc, sc) its w
    = Some ((acc ++ entries, sc'), w) /\
    (sc' == sc + Qsum (map (lap_points w group_config r) its))%Q /\
    Forall2 (fun it a => lap_entry w group_config r current_lap it = Some a)
            its entries.
Proof.
  intros Hrc. induction its as [|it its IH]; intros acc sc.
  - exists [], sc. cbn [foldM map Qsum foldr]. rewrite app_nil_r.
    split; [reflexivity|]. split; [lra|constructor].
  - destruct (score_lap_step rc current_lap acc sc it Hrc)
      as (a & sc1 & Hstep & Hsc1 & Hent & _).
    destruct (IH (acc ++ [a]) sc1) as (entries & sc' & Hfold & Hsc' & Hall).
    exists (a :: entries), sc'. cbn [foldM].
    rewrite (bind_some _ _ _ _ _ Hstep), Hfold, <- app_assoc.
    split; [reflexivity|]. split.
    + rewrite Hsc', Hsc1. unfold Qsum. cbn [map foldr]. lra.
    + now constructor.
Qed.

(** One leaderboard row. *)
Lemma score_group_row rc current_lap correct_answers :
  rounds (self w) !! current_round (priv w) = Some rc ->
  exists row,
    score_group r current_lap correct_answers group_config w = Some (row, w) /\
    row_name row = name group_config /\
    (score row
     == Qsum (map (lap_points w group_config r) (py_enumerate correct_answers)))%Q /\
    Forall2 (fun it a => lap_entry w group_config r current_lap it = Some a)
            (py_enumerate correct_answers) (row_answers row).
Proof.
  intros Hrc.
  destruct (foldM_score_lap rc current_lap (py_enumerate correct_answers) Hrc [] 0%Q)
    as (entries & sc' & Hfold & Hsc' & Hall).
  eexists. unfold score_group. rewrite (bind_some _ _ _ _ _ Hfold).
  cbn [app]. unfold ret. split; [reflexivity|]. cbn.
  split; [reflexivity|]. split; [rewrite Hsc'; lra | exact Hall].
Qed.

End Scoring.

Lemma py_enumerate_lookup {A} (l : list A) (i : nat) (x : A) :
  l !! i = Some x -> py_enumerate l !! i = Some (i, x).
Proof.
  intros H. unfold py_enumerate. apply lookup_zip_with_Some.
  exists i, x. split; [reflexivity|]. split; [|exact H].
  apply lookup_seq. split; [reflexivity|]. now apply lookup_lt_Some in H.
Qed.

Lemma length_py_enumerate {A} (l : list A) : length (py_enumerate l) = length l.
Proof. unfold py_enumerate. rewrite length_zip, length_seq. lia. Qed.

(** C2. First submission wins.  When the slot of a group, round and lap
    holds at least one submission and none of them is disqualified, the
    guess the scoring loop takes for the slot ([get_submissions(...)[-1]])
    is the guess of a submission [s] of the slot whose timestamp is the
    least of the slot, whatever the insertion order; when one submission
    is strictly earlier than all the others, [s] is that one.  The entry
    and the score of the lap are computed from that guess alone (compared
    with the correct answer in an ordinary round, tested against
    "nothing" in a presence-only round). *)
Theorem first_submission_wins (w : World) (g : GroupConfig) (r : nat)
    (cl : Z) (acc : list Answer) (sc : Q) (lap : nat) (ca : Guess.t)
    (rc : RoundConfig) (slot : list Submission.t) :
  Submission.filter_by (key g) (Z.of_nat r) (Z.of_nat lap) (table w) = slot ->
  slot <> [] ->
  (forall x, x ∈ slot -> Submission.disqualified x = false) ->
  rounds (self w) !! current_round (priv w) = Some rc ->
  exists s,
    s ∈ slot /\
    (forall x, x ∈ slot -> Submission.timestamp s <= Submission.timestamp x) /\
    (forall s1, s1 ∈ slot ->
       (forall x, x ∈ slot -> x <> s1 ->
                  Submission.timestamp s1 < Submission.timestamp x) ->
       s = s1) /\
    py_index (Submission.get_submissions (table w) (key g) (Z.of_nat r) (Z.of_nat lap))
             (-1)
    = Some (Submission.guess s) /\
    score_lap g r cl (acc, sc) (lap, ca) w
    = Some
        (if only_check_for_presence rc then
           if Guess.eqb (Submission.guess s) Guess.nothing then
             (acc ++ [{| guess := Submission.guess s; correct := false;
                         hide := cl <? Z.of_nat lap |}], sc)
           else
             (acc ++ [{| guess := Guess.received; correct := true;
                         hide := cl <? Z.of_nat lap |}], (sc + 1)%Q)
         else
           (acc ++ [{| guess := Submission.guess s;
                       correct := Guess.eqb (Submission.guess s) ca;
                       hide := cl <? Z.of_nat lap |}],
            if Guess.eqb (Submission.guess s) ca then (sc + 1)%Q else sc), w).
Proof.
  intros Hslot Hne Hdq Hrc. subst slot.
  destruct (get_submissions_minimal _ _ _ _ Hne) as (s & Hin & Hmin & Hg).
  exists s. split; [exact Hin|]. split; [exact Hmin|]. split.
  - intros s1 Hin1 Hstrict.
    destruct (decide (s = s1)) as [Heq | Hneq]; [exact Heq | exfalso].
    pose proof (Hstrict s Hin Hneq). pose proof (Hmin s1 Hin1). lia.
  - split; [exact Hg|].
    apply score_lap_regular; [exact Hrc| |exact Hg].
    unfold Submission.is_disqualified.
    apply not_true_is_false. intros H. apply existsb_exists in H.
    destruct H as (x & Hx & Hd). apply list_elem_of_In in Hx.
    rewrite (Hdq x Hx) in Hd. discriminate.
Qed.

Lemma first_submission_wins_witness :
  run_from (sample_config false false) 100
    ([OpWait 4; OpPlay; OpWait 14] ++ map OpSubmit sample_table)
  = Some sample_scored /\
  py_index (Submission.get_submissions (table sample_scored) "k1" 0 0) (-1)
  = Some Guess.fire /\
  score_lap sample_group 0 1 ([], 0%Q) (0%nat, Guess.helicopter) sample_scored
  = Some (([{| guess := Guess.fire; correct := false; hide := false |}], 0%Q),
          sample_scored).
Proof.
  split; [vm_compute; reflexivity|].
  destruct (first_submission_wins sample_scored sample_group 0 1 [] 0%Q 0
              Guess.helicopter
              {| lap_count := 3; lap_duration := 10; only_check_for_presence := false |}
              [sample_row 1 106 0 "k1" Guess.helicopter false;
               sample_row 2 105 0 "k1" Guess.fire false;
               sample_row 3 107 0 "k1" Guess.birds false]
              eq_refl)
    as (s & _ & _ & Huniq & Hg & Hrow); [discriminate | | reflexivity |].
  - intros x Hx.
    repeat (apply elem_of_cons in Hx; destruct Hx as [-> | Hx]; [reflexivity|]).
    now apply elem_of_nil in Hx.
  - assert (Heq : s = sample_row 2 105 0 "k1" Guess.fire false).
    { apply Huniq; [apply list_elem_of_further, list_elem_of_here|].
      intros x Hx Hne.
      repeat (apply elem_of_cons in Hx; destruct Hx as [-> | Hx];
              [first [cbn; lia | congruence]|]).
      now apply elem_of_nil in Hx. }
    rewrite Heq in Hg, Hrow. split; [exact Hg | exact Hrow].
Defined.

(** C9. Disqualification dominates: when some submission of the slot of
    a group, round and lap carries the disqualified flag, the entry of
    that lap in the leaderboard row is ("disqualified", incorrect), and
    the lap takes exactly one half off the score, whatever else the slot
    holds and whatever kind of round it is. *)
Theorem disqualification_dominates (w : World) (g : GroupConfig) (r : nat)
    (cl : Z) (acc : list Answer) (sc : Q) (lap : nat) (ca : Guess.t)
    (cas : list Guess.t) (rc : RoundConfig) (s : Submission.t) :
  s ∈ table w ->
  Submission.key s = key g ->
  Submission.round s = Z.of_nat r ->
  Submission.lap s = Z.of_nat lap ->
  Submission.disqualified s = true ->
  rounds (self w) !! current_round (priv w) = Some rc ->
  cas !! lap = Some ca ->
  score_lap g r cl (acc, sc) (lap, ca) w
  = Some ((acc ++ [{| guess := Guess.disqualified; correct := false;
                      hide := cl <? Z.of_nat lap |}], (sc - (1 # 2))%Q), w) /\
  (lap_points w g r (lap, ca) == - (1 # 2))%Q /\
  exists row,
    score_group r cl cas g w = Some (row, w) /\
    row_answers row !! lap
    = Some {| guess := Guess.disqualified; correct := false;
              hide := cl <? Z.of_nat lap |} /\
    (score row == Qsum (map (lap_points w g r) (py_enumerate cas)))%Q.
Proof.
  intros Hin Hk Hr Hl Hd Hrc Hca.
  assert (Hdq : Submission.is_disqualified (table w) (key g) (Z.of_nat r)
                  (Z.of_nat lap) = true)
    by (apply is_disqualified_true; now exists s).
  split; [now apply score_lap_disqualified|]. split.
  - unfold lap_points. rewrite score_lap_disqualified by exact Hdq. lra.
  - destruct (score_group_row w g r rc cl cas Hrc) as (row & Hrow & _ & Hsc & Hall).
    exists row. split; [exact Hrow|]. split; [|exact Hsc].
    destruct (Forall2_lookup_l _ _ _ _ _ Hall (py_enumerate_lookup _ _ _ Hca))
      as (a & Ha & Hent).
    rewrite Ha. unfold lap_entry in Hent.
    rewrite score_lap_disqualified in Hent by exact Hdq.
    cbn [app last] in Hent. now injection Hent as <-.
Qed.

Lemma disqualification_dominates_witness :
  exists row,
    score_group 0 1 [Guess.helicopter; Guess.fire; Guess.birds]
      sample_group sample_scored = Some (row, sample_scored) /\
    row_answers row !! 1%nat
    = Some {| guess := Guess.disqualified; correct := false; hide := false |} /\
    (lap_points sample_scored sample_group 0 (1%nat, Guess.fire) == - (1 # 2))%Q.
Proof.
  destruct (disqualification_dominates sample_scored sample_group 0 1 [] 0%Q 1
              Guess.fire [Guess.helicopter; Guess.fire; Guess.birds]
              {| lap_count := 3; lap_duration := 10;
                 only_check_for_presence := false |}
              (sample_row 5 116 1 "k1" Guess.nothing true))
    as (_ & Hp & row & Hrow & Hent & _);
    [ | reflexivity..| ].
  - change (table sample_scored) with sample_table. unfold sample_table.
    do 4 (apply elem_of_cons; right). apply elem_of_cons. now left.
  - exists row. auto.
Defined.

(** C10. The score of a leaderboard row is the sum of the points of
    every lap index of the current round, the laps after the current lap
    included: the current lap only sets the [hide] flag.  For a lap not
    yet reached, a stored submission that is disqualified already takes
    one half off, and in an ordinary round a stored first guess equal to
    the correct answer already adds one, while the entry is hidden. *)
Theorem score_counts_future_laps (w : World) (g : GroupConfig) (r : nat)
    (cl : Z) (cas : list Guess.t) (rc : RoundConfig) (lap : nat) (ca : Guess.t) :
  rounds (self w) !! current_round (priv w) = Some rc ->
  cas !! lap = Some ca ->
  cl < Z.of_nat lap ->
  exists row a,
    score_group r cl cas g w = Some (row, w) /\
    length (row_answers row) = length cas /\
    (score row == Qsum (map (lap_points w g r) (py_enumerate cas)))%Q /\
    (forall cl' row',
       score_group r cl' cas g w = Some (row', w) -> (score row' == score row)%Q) /\
    row_answers row !! lap = Some a /\
    hide a = true /\
    (Submission.is_disqualified (table w) (key g) (Z.of_nat r) (Z.of_nat lap) = true ->
     guess a = Guess.disqualified /\ correct a = false /\
     (lap_points w g r (lap, ca) == - (1 # 2))%Q) /\
    (Submission.is_disqualified (table w) (key g) (Z.of_nat r) (Z.of_nat lap) = false ->
     only_check_for_presence rc = false ->
     py_index (Submission.get_submissions (table w) (key g) (Z.of_nat r) (Z.of_nat lap))
              (-1) = Some ca ->
     guess a = ca /\ correct a = true /\
     (lap_points w g r (lap, ca) == 1)%Q).
Proof.
  intros Hrc Hca Hfut.
  destruct (score_group_row w g r rc cl cas Hrc) as (row & Hrow & _ & Hsc & Hall).
  destruct (Forall2_lookup_l _ _ _ _ _ Hall (py_enumerate_lookup _ _ _ Hca))
    as (a & Ha & Hent).
  exists row, a. split; [exact Hrow|]. split.
  { rewrite <- (Forall2_length _ _ _ Hall). apply length_py_enumerate. }
  split; [exact Hsc|]. split.
  { intros cl' row' Hrow'.
    destruct (score_group_row w g r rc cl' cas Hrc) as (row2 & Hrow2 & _ & Hsc2 & _).
    rewrite Hrow' in Hrow2. injection Hrow2 as <-. now rewrite Hsc, Hsc2. }
  split; [exact Ha|].
  unfold lap_entry, lap_points in *.
  split; [|split].
  - destruct (Submission.is_disqualified (table w) (key g) (Z.of_nat r) (Z.of_nat lap))
      eqn:Hd.
    + rewrite score_lap_disqualified in Hent by exact Hd.
      cbn [app last] in Hent. injection Hent as <-. cbn [hide].
      now apply Z.ltb_lt.
    + destruct (get_submissions_last_total (table w) (key g)
                  (Z.of_nat r) (Z.of_nat lap)) as (g0 & Hg0).
      rewrite (score_lap_regular _ _ _ _ _ _ _ _ rc g0 Hrc Hd Hg0) in Hent.
      destruct (only_check_for_presence rc);
        [destruct (Guess.eqb g0 Guess.nothing)|];
        cbn [app last] in Hent; injection Hent as <-; cbn [hide];
        now apply Z.ltb_lt.
  - intros Hd. rewrite score_lap_disqualified in Hent by exact Hd.
    rewrite score_lap_disqualified by exact Hd.
    cbn [app last] in Hent. injection Hent as <-. cbn [guess correct].
    split; [reflexivity|]. split; [reflexivity|]. lra.
  - intros Hd Hp Hg0.
    rewrite (score_lap_regular _ _ _ _ _ _ _ _ rc ca Hrc Hd Hg0), Hp in Hent.
    rewrite (score_lap_regular _ _ _ _ _ _ _ _ rc ca Hrc Hd Hg0), Hp.
    assert (He : Guess.eqb ca ca = true) by (unfold Guess.eqb; now apply bool_decide_eq_true).
    rewrite He in *. cbn [app last] in Hent. injection Hent as <-.
    cbn [guess correct]. split; [reflexivity|]. split; [reflexivity|]. lra.
Qed.

Lemma score_counts_future_laps_witness :
  exists row,
    score_group 0 1 [Guess.helicopter; Guess.fire; Guess.birds]
      sample_group sample_scored = Some (row, sample_scored) /\
    row_answers row !! 2%nat
    = Some {| guess := Guess.birds; correct := true; hide := true |} /\
    (lap_points sample_scored sample_group 0 (2%nat, Guess.birds) == 1)%Q /\
    (score row == 1 # 2)%Q.
Proof.
  destruct (score_counts_future_laps sample_scored sample_group 0 1
              [Guess.helicopter; Guess.fire; Guess.birds]
              {| lap_count := 3; lap_duration := 10;
                 only_check_for_presence := false |}
              2 Guess.birds eq_refl eq_refl eq_refl)
    as (row & a & Hrow & _ & Hsc & _ & Ha & Hh & _ & Hok).
  destruct (Hok eq_refl eq_refl eq_refl) as (Hg & Hc & Hp).
  exists row. split; [exact Hrow|]. split.
  - rewrite Ha. destruct a as [ga co hi]. cbn in Hg, Hc, Hh. now subst.
  - split; [exact Hp|]. rewrite Hsc. vm_compute. reflexivity.
Defined.

(** ** The generator *)

Section Generator.

(** The embedding against known outputs: the first word of the reference
    test vector of MT19937, and the first [random()] after
    [random.seed(1234)] and [random.seed(42)] (0.9664535356921388 and
    0.6394267984578837). *)
Example init_by_array_reference :
  fst (MT.genrand_uint32 (MT.init_by_array [0x123; 0x234; 0x345; 0x456]))
  = 1067595299.
Proof. vm_compute. reflexivity. Qed.

Example random_after_seed_1234 :
  fst (MT.random (MT.seed 1234)) = 8705039566428029 # 9007199254740992.
Proof. vm_compute. reflexivity. Qed.

Example random_after_seed_42 :
  fst (MT.random (MT.seed 42)) = 5759444582531269 # 9007199254740992.
Proof. vm_compute. reflexivity. Qed.

Lemma u32_range x : 0 <= MT.u32 x < 4294967296.
Proof.
  unfold MT.u32. change 0xffffffff with (Z.ones 32).
  rewrite Z.land_ones by lia. change (2 ^ 32) with 4294967296.
  apply Z.mod_pos_bound. lia.
Qed.

Lemma genrand_uint32_range s :
  0 <= fst (MT.genrand_uint32 s) < 4294967296.
Proof.
  unfold MT.genrand_uint32.
  destruct (MT.N <=? MT.mti s)%nat; cbn [fst]; apply u32_range.
Qed.

(** [random()] lies in [0, 1). *)
Lemma random_range s : (0 <= fst (MT.random s) < 1)%Q.
Proof.
  unfold MT.random.
  pose proof (genrand_uint32_range s) as Hx.
  destruct (MT.genrand_uint32 s) as [x s1]. cbn [fst] in Hx.
  pose proof (genrand_uint32_range s1) as Hy.
  destruct (MT.genrand_uint32 s1) as [y s2]. cbn [fst] in *.
  rewrite !Z.shiftr_div_pow2 by lia.
  change (2 ^ 5) with 32. change (2 ^ 6) with 64.
  assert (0 <= x / 32 < 134217728)
    by (split; [apply Z.div_pos; lia | apply Z.div_lt_upper_bound; lia]).
  assert (0 <= y / 64 < 67108864)
    by (split; [apply Z.div_pos; lia | apply Z.div_lt_upper_bound; lia]).
  unfold Qle, Qlt. cbn [Qnum Qden]. lia.
Qed.

Lemma random_random_eq w :
  random_random w = Some (fst (MT.random (rng w)), with_rng (snd (MT.random (rng w))) w).
Proof. unfold random_random. now destruct (MT.random (rng w)). Qed.

End Generator.

(** ** Drawing computations *)

Section Draws.

Lemma draws_ret {A} (a : A) (P : A -> Prop) : P a -> draws_with (ret a) P.
Proof.
  intros HP w. exists a, (rng w). unfold ret, with_rng.
  split; [now destruct w|]. split; [exact HP|].
  intros w2 _ <-. now destruct w2.
Qed.

Lemma draws_random :
  draws_with random_random (fun r => (0 <= r < 1)%Q).
Proof.
  intros w. exists (fst (MT.random (rng w))), (snd (MT.random (rng w))).
  split; [apply random_random_eq|]. split; [apply random_range|].
  intros w2 _ Hg. rewrite random_random_eq. now rewrite Hg.
Qed.

Lemma draws_bind {A B} (c : M A) (k : A -> M B) (P : A -> Prop) (Q : B -> Prop) :
  draws_with c P -> (forall a, P a -> draws_with (k a) Q) ->
  draws_with (bind c k) Q.
Proof.
  intros Hc Hk w.
  destruct (Hc w) as (a & g1 & Hrun & HP & Hdet).
  destruct (Hk a HP (with_rng g1 w)) as (b & g2 & Hrun2 & HQ & Hdet2).
  exists b, g2. rewrite (bind_some _ _ _ _ _ Hrun).
  split; [exact Hrun2|]. split; [exact HQ|].
  intros w2 Hs Hg. rewrite (bind_some _ _ _ _ _ (Hdet w2 Hs Hg)).
  apply (Hdet2 (with_rng g1 w2)); [exact Hs | reflexivity].
Qed.

Lemma draws_mapM {A B} (f : A -> M B) (P : A -> B -> Prop) (l : list A) :
  (forall x, x ∈ l -> draws_with (f x) (P x)) ->
  draws_with (mapM f l) (Forall2 P l).
Proof.
  induction l as [|x l IH]; intros Hf; cbn [mapM].
  - apply draws_ret. constructor.
  - eapply draws_bind; [apply Hf; apply elem_of_cons; now left|].
    intros y Hy. eapply draws_bind.
    + apply IH. intros x' Hx'. apply Hf. apply elem_of_cons. now right.
    + intros ys Hys. apply draws_ret. now constructor.
Qed.

End Draws.

(** ** The answer scheduler *)

Section Scheduler.

Lemma possible_values_eq :
  Guess.possible_values
  = [Guess.birds; Guess.chainsaw; Guess.fire; Guess.handsaw; Guess.helicopter].
Proof. reflexivity. Qed.

Lemma draws_choices (k : Z) :
  draws_with (random_choices Guess.possible_values k)
    (fun row => length row = Z.to_nat k /\
                forall g, g ∈ row -> g ∈ Guess.possible_values).
Proof.
  unfold random_choices.
  assert (H : draws_with
            (mapM (fun _ : nat =>
                     r <- random_random ;;
                     lift (py_index Guess.possible_values
                             (Qfloor (r * inject_Z (Z.of_nat (length Guess.possible_values))))))
                  (py_range k))
            (Forall2 (fun _ g => g ∈ Guess.possible_values) (py_range k))).
  { apply draws_mapM. intros _ _. eapply draws_bind; [apply draws_random|].
    intros r [Hr0 Hr1]. cbn beta.
    rewrite possible_values_eq at 1 2. cbn [length].
    assert (Hf : 0 <= Qfloor (r * inject_Z 5) < 5).
    { split.
      - change 0 with (Qfloor 0). apply Qfloor_resp_le. change (inject_Z 5) with 5%Q. nra.
      - apply Z.lt_nge. intros Hge.
        pose proof (Qfloor_le (r * inject_Z 5)) as Hle.
        assert (inject_Z 5 <= inject_Z (Qfloor (r * inject_Z 5)))%Q
          by (rewrite <- Zle_Qle; exact Hge).
        change (inject_Z 5) with 5%Q in *.
        generalize dependent (inject_Z (Qfloor (r * 5))). intros F HF1 HF2. lra. }
    rewrite py_index_nat by exact (proj1 Hf).
    destruct (lookup_lt_is_Some_2
                [Guess.birds; Guess.chainsaw; Guess.fire; Guess.handsaw; Guess.helicopter]
                (Z.to_nat (Qfloor (r * inject_Z 5)))) as (g & Hg);
      [cbn [length]; lia|].
    change (Z.of_nat 5) with 5. rewrite Hg. cbn [lift]. apply draws_ret.
    rewrite possible_values_eq. now apply list_elem_of_lookup_2 in Hg. }
  intros w. destruct (H w) as (row & g' & Hrun & HP & Hdet).
  exists row, g'. split; [exact Hrun|]. split; [|exact Hdet]. split.
  - rewrite <- (Forall2_length _ _ _ HP). unfold py_range. apply length_seq.
  - intros g Hg. apply list_elem_of_lookup in Hg. destruct Hg as (i & Hi).
    destruct (Forall2_lookup_r _ _ _ _ _ HP Hi) as (_ & _ & Hok). exact Hok.
Qed.

Lemma draws_delays (c : RoundsConfig) (start total : Q) (rc : RoundConfig) :
  draws_with
    (mapM (fun _ : nat =>
             r <- random_random ;;
             ret (start + r * (lap_duration rc - total))%Q)
          (py_range (lap_count rc)))
    (fun row => length row = Z.to_nat (lap_count rc) /\
                forall x, x ∈ row ->
                  exists r, (0 <= r < 1)%Q /\
                            x = (start + r * (lap_duration rc - total))%Q).
Proof.
  intros w.
  destruct (draws_mapM
              (fun _ : nat =>
                 r <- random_random ;;
                 ret (start + r * (lap_duration rc - total))%Q)
              (fun _ x => exists r, (0 <= r < 1)%Q /\
                                    x = (start + r * (lap_duration rc - total))%Q)
              (py_range (lap_count rc))) with (w := w)
    as (row & g' & Hrun & HP & Hdet).
  { intros _ _. eapply draws_bind; [apply draws_random|].
    intros r Hr. apply draws_ret. now exists r. }
  exists row, g'. split; [exact Hrun|]. split; [|exact Hdet]. split.
  - rewrite <- (Forall2_length _ _ _ HP). unfold py_range. apply length_seq.
  - intros x Hx. apply list_elem_of_lookup in Hx. destruct Hx as (i & Hi).
    destruct (Forall2_lookup_r _ _ _ _ _ HP Hi) as (_ & _ & Hok). exact Hok.
Qed.

End Scheduler.

Section Restart.

(** [restart()] once the two comprehensions have been run. *)
Lemma restart_run w a g1 d g2 :
  (forall W, self W = self w -> rng W = rng w ->
     mapM (fun round_config =>
             random_choices Guess.possible_values (lap_count round_config))
          (rounds (self w)) W = Some (a, with_rng g1 W)) ->
  (forall W, self W = self w -> rng W = g1 ->
     mapM (fun round_config =>
             mapM (fun _ : nat =>
                     r <- random_random ;;
                     ret (delay_before_playing (self w)
                          + r * (lap_duration round_config - total_overhead (self w)))%Q)
                  (py_range (lap_count round_config)))
          (rounds (self w)) W = Some (d, with_rng g2 W)) ->
  restart w
  = Some (tt, {| self := self w; priv := restarted (self w) a d (wall w);
                 rng := g2; table := []; wall := wall w |}).
Proof.
  intros H1 H2. unfold restart.
  unfold bind at 1. unfold Submission_clear at 1.
  unfold bind at 1. unfold field at 1. cbn [self].
  unfold bind at 1. rewrite H1 by reflexivity.
  unfold bind at 1. unfold modify_priv at 1, bind at 1, attr at 1, set_priv at 1.
  cbn [with_rng self priv rng table wall].
  unfold bind at 1, field at 1. cbn [self].
  unfold bind at 1, field at 1. cbn [self].
  unfold bind at 1, field at 1. cbn [self].
  unfold bind at 1. rewrite H2 by reflexivity.
  munfold. cbn. unfold restarted.
  destruct (start_paused (self w)); reflexivity.
Qed.

Lemma restart_spec w :
  exists a d g',
    restart w
    = Some (tt, {| self := self w; priv := restarted (self w) a d (wall w);
                   rng := g'; table := []; wall := wall w |}) /\
    Forall2 answers_ok (rounds (self w)) a /\
    Forall2 (delays_ok (self w)) (rounds (self w)) d /\
    forall w2, self w2 = self w -> rng w2 = rng w ->
      restart w2
      = Some (tt, {| self := self w2; priv := restarted (self w2) a d (wall w2);
                     rng := g'; table := []; wall := wall w2 |}).
Proof.
  destruct (draws_mapM
              (fun round_config =>
                 random_choices Guess.possible_values (lap_count round_config))
              answers_ok (rounds (self w))
              (fun rc _ => draws_choices (lap_count rc)) w)
    as (a & g1 & Ha & Hoka & Hdeta).
  destruct (draws_mapM
              (fun round_config =>
                 mapM (fun _ : nat =>
                         r <- random_random ;;
                         ret (delay_before_playing (self w)
                              + r * (lap_duration round_config - total_overhead (self w)))%Q)
                      (py_range (lap_count round_config)))
              (delays_ok (self w)) (rounds (self w))
              (fun rc _ => draws_delays (self w) _ _ rc) (with_rng g1 w))
    as (d & g2 & Hd & Hokd & Hdetd).
  exists a, d, g2.
  assert (Hrun : forall w2, self w2 = self w -> rng w2 = rng w ->
            restart w2
            = Some (tt, {| self := self w2; priv := restarted (self w2) a d (wall w2);
                           rng := g2; table := []; wall := wall w2 |})).
  { intros w2 Hs Hg. apply restart_run with (g1 := g1); rewrite Hs.
    - intros W HW HgW. apply Hdeta; congruence.
    - intros W HW HgW. apply Hdetd; [exact HW | exact HgW]. }
  split; [now apply Hrun|]. split; [exact Hoka|]. split; [exact Hokd|exact Hrun].
Qed.

End Restart.

(** ** Determinism of the schedule *)

(** C1, as stated, fails on the default configuration: constructed with
    seed 1234 and started, its first round of answers begins helicopter,
    fire, birds; after a second [restart()] it begins handsaw, chainsaw,
    helicopter. *)
Lemma schedule_not_reproduced_by_restart :
  ~ restart_reproduces_schedule default_rounds_config /\
  run_from default_rounds_config 0 [] = Some default_started /\
  restart default_started = Some (tt, default_restarted) /\
  take 3 <$> head (answers (priv default_started))
  = Some [Guess.helicopter; Guess.fire; Guess.birds] /\
  take 3 <$> head (answers (priv default_restarted))
  = Some [Guess.handsaw; Guess.chainsaw; Guess.helicopter].
Proof.
  assert (H1 : RoundsConfig_init default_rounds_config (MT.mk [] 0) = Some (MT.seed 1234))
    by reflexivity.
  assert (H2 : boot default_rounds_config (MT.seed 1234) [] 0 = Some default_started)
    by (vm_compute; reflexivity).
  assert (H3 : restart default_started = Some (tt, default_restarted))
    by (vm_compute; reflexivity).
  split; [|split; [vm_compute; reflexivity|split; [exact H3|split; reflexivity]]].
  intros H.
  specialize (H (MT.mk [] 0) (MT.seed 1234) [] 0%Q default_started default_restarted
                H1 H2 H3).
  apply (f_equal (fun s => head (concat (fst s)))) in H.
  vm_compute in H. discriminate H.
Qed.

(** C1, amended. The schedule drawn by the first [restart()] after
    construction depends on the configuration (seed included) only: two
    runs that construct the same configuration and start it get the same
    answers and the same play delays, whatever the generator state, the
    table and the time they begin with.  [restart()] itself does not
    reseed: the schedule it draws is a function of the declared fields
    and of the generator state at the call. *)
Theorem schedule_determined_by_seed (c : RoundsConfig)
    (g1 g2 g1' g2' : MT.state) (tbl1 tbl2 : list Submission.t) (now1 now2 : Q)
    (w w2 : World) :
  RoundsConfig_init c g1 = Some g1' ->
  RoundsConfig_init c g2 = Some g2' ->
  self w2 = self w ->
  rng w2 = rng w ->
  (exists b1 b2,
     boot c g1' tbl1 now1 = Some b1 /\
     boot c g2' tbl2 now2 = Some b2 /\
     schedule b1 = schedule b2 /\
     rng b1 = rng b2) /\
  (exists w' w2',
     restart w = Some (tt, w') /\
     restart w2 = Some (tt, w2') /\
     schedule w' = schedule w2' /\
     rng w' = rng w2').
Proof.
  intros Hi1 Hi2 Hs Hg.
  assert (Hdet : forall u u2, self u2 = self u -> rng u2 = rng u ->
            exists u' u2', restart u = Some (tt, u') /\ restart u2 = Some (tt, u2')
                           /\ schedule u' = schedule u2' /\ rng u' = rng u2').
  { intros u u2 Hsu Hgu.
    destruct (restart_spec u) as (a & d & g' & Hru & _ & _ & Hdet).
    do 2 eexists. split; [exact Hru|]. split; [exact (Hdet u2 Hsu Hgu)|].
    split; reflexivity. }
  split; [|exact (Hdet w w2 Hs Hg)].
  unfold RoundsConfig_init in Hi1, Hi2.
  destruct (RoundsConfig_fields_ok c && validate_timing c); [|discriminate].
  injection Hi1 as <-. injection Hi2 as <-.
  destruct (Hdet {| self := c; priv := blank; rng := MT.seed (seed c);
                    table := tbl1; wall := now1 |}
                 {| self := c; priv := blank; rng := MT.seed (seed c);
                    table := tbl2; wall := now2 |} eq_refl eq_refl)
    as (b1 & b2 & Hb1 & Hb2 & Hsch & Hrng).
  exists b1, b2. unfold boot. rewrite Hb1, Hb2. auto.
Qed.

Lemma schedule_determined_by_seed_witness :
  exists b1 b2,
    boot (sample_config false false) (MT.seed 1234) [] 100 = Some b1 /\
    boot (sample_config false false) (MT.seed 1234) sample_table 7 = Some b2 /\
    schedule b1 = schedule b2.
Proof.
  destruct (schedule_determined_by_seed (sample_config false false)
              (MT.mk [] 0) (MT.seed 99) (MT.seed 1234) (MT.seed 1234)
              [] sample_table 100 7 sample_paused sample_running
              eq_refl eq_refl eq_refl)
    as ((b1 & b2 & H1 & H2 & H3 & _) & _);
    [vm_compute; reflexivity|].
  exists b1, b2. auto.
Defined.

(** ** Range of the play offsets *)




(** ** Position resolution *)

Section Position.

Variables (w : World) (rc : RoundConfig).
Hypothesis Hrc : rounds (self w) !! current_round (priv w) = Some rc.
Hypothesis Hdur : ~ (lap_duration rc == 0)%Q.

Lemma pause_value u : pause u = Some (tt, with_priv (paused_at (wall u) (priv u)) u).
Proof.
  unfold paused_at, with_priv. destruct (paused (priv u)) eqn:Hp.
  - rewrite pause_paused by exact Hp. now destruct u.
  - now rewrite pause_running by exact Hp.
Qed.

Lemma floordiv_value : py_floordiv (shown w) (lap_duration rc) = Some (raw_lap w rc).
Proof.
  unfold py_floordiv, raw_lap.
  destruct (Qeq_bool (lap_duration rc) 0) eqn:E; [|reflexivity].
  now apply Qeq_bool_iff in E.
Qed.

(** No boundary crossed: the lap is read off the clock, nothing changes. *)
Lemma get_current_lap_within :
  raw_lap w rc < lap_count rc ->
  get_current_lap w = Some (raw_lap w rc, w).
Proof.
  intros Hlt. unfold get_current_lap.
  rewrite (bind_some _ _ _ _ _ (time_value w)).
  pose proof floordiv_value as Hf. unfold shown in Hf.
  munfold. rewrite Hrc. mred. rewrite Hf. mred. rewrite Hrc. mred.
  now replace (lap_count rc <=? raw_lap w rc) with false
    by (symmetry; apply Z.leb_gt; exact Hlt).
Qed.

(** Boundary crossed, not in the last round. *)
Lemma get_current_lap_next :
  lap_count rc <= raw_lap w rc ->
  (current_round (priv w) + 1)%nat <> length (rounds (self w)) ->
  get_current_lap w
  = Some (0,
      with_priv
        (let p := set_round_start_time (wall w)
                    (set_current_round (current_round (priv w) + 1)%nat (priv w)) in
         if pause_between_rounds (self w) then paused_at (wall w) p else p) w).
Proof.
  intros Hge Hlast. unfold get_current_lap.
  rewrite (bind_some _ _ _ _ _ (time_value w)).
  pose proof floordiv_value as Hf. unfold shown in Hf.
  munfold. rewrite Hrc. mred. rewrite Hf. mred. rewrite Hrc. mred.
  replace (lap_count rc <=? raw_lap w rc) with true
    by (symmetry; apply Z.leb_le; exact Hge).
  replace (current_round (priv w) + 1 =? length (rounds (self w)))%nat with false
    by (symmetry; apply Nat.eqb_neq; exact Hlast).
  unfold with_priv, paused_at. mred.
  destruct (pause_between_rounds (self w)); [|reflexivity].
  destruct (paused (priv w)) eqn:Hp; mred; rewrite ?Hp; reflexivity.
Qed.

(** Boundary crossed in the last round, no restart. *)
Lemma get_current_lap_finish :
  lap_count rc <= raw_lap w rc ->
  (current_round (priv w) + 1)%nat = length (rounds (self w)) ->
  restart_when_finished (self w) = false ->
  get_current_lap w
  = Some (lap_count rc - 1,
          with_priv (paused_at (wall w) (set_finished true (priv w))) w).
Proof.
  intros Hge Hlast Hrwf. unfold get_current_lap.
  rewrite (bind_some _ _ _ _ _ (time_value w)).
  pose proof floordiv_value as Hf. unfold shown in Hf.
  munfold. rewrite Hrc. mred. rewrite Hf. mred. rewrite Hrc. mred.
  replace (lap_count rc <=? raw_lap w rc) with true
    by (symmetry; apply Z.leb_le; exact Hge).
  replace (current_round (priv w) + 1 =? length (rounds (self w)))%nat with true
    by (symmetry; apply Nat.eqb_eq; exact Hlast).
  rewrite Hrwf. unfold with_priv, paused_at. mred.
  destruct (paused (priv w)) eqn:Hp; mred; rewrite ?Hp; mred; now rewrite Hrc.
Qed.

(** Boundary crossed in the last round, with restart. *)
Lemma get_current_lap_restart :
  lap_count rc <= raw_lap w rc ->
  (current_round (priv w) + 1)%nat = length (rounds (self w)) ->
  restart_when_finished (self w) = true ->
  get_current_lap w
  = match restart w with Some (_, w') => Some (0, w') | None => None end.
Proof.
  intros Hge Hlast Hrwf. unfold get_current_lap.
  rewrite (bind_some _ _ _ _ _ (time_value w)).
  pose proof floordiv_value as Hf. unfold shown in Hf.
  unfold get_current_round_config, get_current_number_of_laps,
    get_number_of_rounds, get_current_round, field, attr, lift, bind, ret.
  rewrite Hrc. mred. rewrite Hf. mred. rewrite Hrc. mred.
  replace (lap_count rc <=? raw_lap w rc) with true
    by (symmetry; apply Z.leb_le; exact Hge).
  replace (current_round (priv w) + 1 =? length (rounds (self w)))%nat with true
    by (symmetry; apply Nat.eqb_eq; exact Hlast).
  mred. rewrite Hrwf. now destruct (restart w) as [[[] w']|].
Qed.

End Position.

Lemma Qfloor_inject_Z (n : Z) : Qfloor (inject_Z n) = n.
Proof. unfold Qfloor, inject_Z. now rewrite Z.div_1_r. Qed.

Lemma Qfloor_eq (x y : Q) : (x == y)%Q -> Qfloor x = Qfloor y.
Proof. intros H. now rewrite H. Qed.

Lemma Qfloor_div_range (d D : Q) (n : Z) :
  (0 < D)%Q -> (0 <= d)%Q -> (d < inject_Z n * D)%Q ->
  0 <= Qfloor (d / D) < n.
Proof.
  intros HD Hd0 Hd1.
  assert (H0 : (0 <= d / D)%Q)
    by (apply Qle_shift_div_l; [exact HD | lra]).
  assert (H1 : (d / D < inject_Z n)%Q)
    by (apply Qlt_shift_div_r; [exact HD | exact Hd1]).
  split.
  - change 0 with (Qfloor 0). now apply Qfloor_resp_le.
  - apply Z.lt_nge. intros Hge.
    pose proof (Qfloor_le (d / D)) as Hle.
    assert (inject_Z n <= inject_Z (Qfloor (d / D)))%Q
      by (rewrite <- Zle_Qle; exact Hge).
    lra.
Qed.

(** C6. Lap rollover.  Take a round of [N] laps of [D] seconds that is
    not the last one, with the clock running and the round just started
    ([wall = round_start_time]).  While less than [N * D] seconds have
    run, the position query returns lap [floor (d / D)], below [N], and
    changes nothing.  After exactly [N * D] seconds it returns lap 0,
    with the round index advanced by one, the round start time reset to
    the current time, the clock paused exactly when
    [pause_between_rounds] is set, and everything else as before. *)
Theorem lap_rollover (w : World) (rc : RoundConfig) (d : Q) :
  rounds (self w) !! current_round (priv w) = Some rc ->
  (0 < lap_duration rc)%Q ->
  (current_round (priv w) + 1 < length (rounds (self w)))%nat ->
  paused (priv w) = false ->
  (wall w == round_start_time (priv w))%Q ->
  (0 <= d)%Q ->
  (d < inject_Z (lap_count rc) * lap_duration rc)%Q ->
  (get_current_lap (advance d w)
   = Some (Qfloor (d / lap_duration rc), advance d w) /\
   0 <= Qfloor (d / lap_duration rc) < lap_count rc) /\
  exists w',
    get_current_lap (advance (inject_Z (lap_count rc) * lap_duration rc) w)
    = Some (0, w') /\
    current_round (priv w') = (current_round (priv w) + 1)%nat /\
    round_start_time (priv w') = wall w' /\
    (wall w' == wall w + inject_Z (lap_count rc) * lap_duration rc)%Q /\
    paused (priv w') = pause_between_rounds (self w) /\
    (pause_between_rounds (self w) = true -> time_when_paused (priv w') = wall w') /\
    finished (priv w') = finished (priv w) /\
    schedule w' = schedule w /\
    self w' = self w /\ rng w' = rng w /\ table w' = table w.
Proof.
  intros Hrc HD Hnl Hp Hw Hd0 Hd1.
  assert (HD0 : ~ (lap_duration rc == 0)%Q) by lra.
  assert (Hraw : forall e, raw_lap (advance e w) rc = Qfloor (e / lap_duration rc)).
  { intros e. unfold raw_lap, shown, advance. cbn [priv wall]. rewrite Hp.
    apply Qfloor_eq. rewrite Hw. field. exact HD0. }
  pose proof (Qfloor_div_range d (lap_duration rc) (lap_count rc) HD Hd0 Hd1) as Hrange.
  split.
  - split; [|exact Hrange].
    rewrite <- Hraw. apply get_current_lap_within; [exact Hrc | exact HD0 |].
    rewrite Hraw. apply Hrange.
  - eexists. split.
    + apply (get_current_lap_next _ rc); [exact Hrc | exact HD0 | | cbn; lia].
      rewrite Hraw.
      replace (Qfloor (inject_Z (lap_count rc) * lap_duration rc / lap_duration rc))
        with (Qfloor (inject_Z (lap_count rc))).
      * rewrite Qfloor_inject_Z. lia.
      * apply Qfloor_eq. field. exact HD0.
    + unfold with_priv, paused_at, schedule, advance. mred. rewrite Hp.
      destruct (pause_between_rounds (self w)); mred;
        repeat split; try reflexivity; try discriminate; exact Hp.
Qed.

Lemma lap_rollover_witness :
  run_from (sample_config false false) 100 [OpWait 4; OpPlay] = Some sample_running /\
  get_current_lap (advance 25 sample_running) = Some (2, advance 25 sample_running) /\
  exists w',
    get_current_lap (advance (inject_Z 3 * 10) sample_running) = Some (0, w') /\
    current_round (priv w') = 1%nat /\
    paused (priv w') = false.
Proof.
  split; [vm_compute; reflexivity|].
  destruct (lap_rollover sample_running
              {| lap_count := 3; lap_duration := 10; only_check_for_presence := false |}
              25 eq_refl) as ((Hlap & _) & w' & Hrun & Hcur & _ & _ & Hpa & _);
    [reflexivity | cbn; lia | reflexivity | vm_compute; reflexivity
    | vm_compute; discriminate | reflexivity |].
  split; [exact Hlap|]. exists w'. auto.
Defined.

(** ** The derived queries *)

Lemma lift_inv {A} (o : option A) w a w' :
  lift o w = Some (a, w') -> o = Some a /\ w' = w.
Proof.
  destruct o as [x|]; cbn; [|discriminate]. unfold ret. now intros [= -> ->].
Qed.

Lemma sample_boundary_reachable : reachable sample_boundary.
Proof.
  exists (sample_config false true), (MT.mk [] 0), (MT.seed 1234), [], 100%Q,
    sample_started_between, [OpWait 4; OpPlay; OpWait 30].
  split; [reflexivity|]. split; [vm_compute; reflexivity|].
  split; [|vm_compute; reflexivity].
  repeat constructor; cbn; discriminate.
Qed.

(** C5, as stated, fails: when the thirty seconds of round 0 have run,
    [time_before_playing()] and [get_current_correct_guess()] move the
    machine to round 1 and pause it. *)
Lemma queries_not_read_only :
  ~ read_only time_before_playing /\
  ~ read_only get_current_correct_guess /\
  after time_before_playing sample_boundary = Some sample_after_playing_query /\
  after get_current_correct_guess sample_boundary = Some sample_after_guess_query /\
  current_round (priv sample_boundary) = 0%nat /\
  paused (priv sample_boundary) = false /\
  current_round (priv sample_after_playing_query) = 1%nat /\
  paused (priv sample_after_playing_query) = true /\
  current_round (priv sample_after_guess_query) = 1%nat.
Proof.
  assert (H1 : after time_before_playing sample_boundary
               = Some sample_after_playing_query) by (vm_compute; reflexivity).
  assert (H2 : after get_current_correct_guess sample_boundary
               = Some sample_after_guess_query) by (vm_compute; reflexivity).
  split; [|split; [|repeat split; assumption || reflexivity]].
  - intros H. unfold after in H1.
    destruct (time_before_playing sample_boundary) as [[a w']|] eqn:E;
      [|discriminate H1].
    injection H1 as ->.
    specialize (H _ _ _ sample_boundary_reachable E).
    apply (f_equal (fun w => current_round (priv w))) in H.
    vm_compute in H. discriminate H.
  - intros H. unfold after in H2.
    destruct (get_current_correct_guess sample_boundary) as [[a w']|] eqn:E;
      [|discriminate H2].
    injection H2 as ->.
    specialize (H _ _ _ sample_boundary_reachable E).
    apply (f_equal (fun w => current_round (priv w))) in H.
    vm_compute in H. discriminate H.
Qed.

(** C5, amended. [is_paused()], [is_finished()] and
    [time_before_next_lap()] return and leave every field of the state
    unchanged.  [time_before_playing()] does so once the competition is
    finished (it answers -1).  Otherwise [time_before_playing()], and
    always [get_current_correct_guess()], end in the state that
    [get_current_lap()] ends in; that is the unchanged state whenever no
    round boundary is pending ([elapsed // lap_duration < lap_count]). *)
Theorem queries_frame (w : World) (rc : RoundConfig) :
  rounds (self w) !! current_round (priv w) = Some rc ->
  ~ (lap_duration rc == 0)%Q ->
  is_paused w = Some (paused (priv w), w) /\
  is_finished w = Some (finished (priv w), w) /\
  (exists t, time_before_next_lap w = Some (t, w)) /\
  (finished (priv w) = true -> time_before_playing w = Some ((-1)%Q, w)) /\
  (forall a w', get_current_correct_guess w = Some (a, w') ->
     exists l, get_current_lap w = Some (l, w')) /\
  (finished (priv w) = false ->
   forall a w', time_before_playing w = Some (a, w') ->
     exists l, get_current_lap w = Some (l, w')) /\
  (raw_lap w rc < lap_count rc ->
   get_current_lap w = Some (raw_lap w rc, w) /\
   (forall a w', get_current_correct_guess w = Some (a, w') -> w' = w) /\
   (forall a w', time_before_playing w = Some (a, w') -> w' = w)).
Proof.
  intros Hrc HD.
  assert (Hmod : exists m, py_mod (shown w) (lap_duration rc) = Some m).
  { unfold py_mod. destruct (Qeq_bool (lap_duration rc) 0) eqn:E; [|eauto].
    now apply Qeq_bool_iff in E. }
  assert (Hg : forall a w', get_current_correct_guess w = Some (a, w') ->
                 exists l, get_current_lap w = Some (l, w')).
  { intros a w' H. unfold get_current_correct_guess in H.
    apply bind_inv in H. destruct H as (x1 & u1 & E1 & H).
    unfold attr in E1. injection E1 as <- <-.
    apply bind_inv in H. destruct H as (x2 & u2 & E2 & H).
    unfold get_current_round, attr in E2. injection E2 as <- <-.
    apply bind_inv in H. destruct H as (row & u3 & E3 & H).
    apply lift_inv in E3. destruct E3 as [_ ->].
    apply bind_inv in H. destruct H as (l & w2 & Hl & H).
    apply lift_inv in H. destruct H as [_ ->]. now exists l. }
  assert (Hp : finished (priv w) = false ->
               forall a w', time_before_playing w = Some (a, w') ->
                 exists l, get_current_lap w = Some (l, w')).
  { intros Hf a w' H. unfold time_before_playing in H.
    apply bind_inv in H. destruct H as (x1 & u1 & E1 & H).
    unfold attr in E1. injection E1 as <- <-. rewrite Hf in H.
    rewrite (bind_some _ _ _ _ _ (time_value w)) in H.
    apply bind_inv in H. destruct H as (x2 & u2 & E2 & H).
    unfold attr in E2. injection E2 as <- <-.
    apply bind_inv in H. destruct H as (rc' & u3 & E3 & H).
    unfold get_current_round_config, bind, field, get_current_round, attr in E3.
    apply lift_inv in E3. destruct E3 as [_ ->].
    apply bind_inv in H. destruct H as (pd & w1 & Hpd & H).
    apply bind_inv in H. destruct H as (m & w2 & Hm & H).
    apply lift_inv in Hm. destruct Hm as [_ ->].
    unfold ret in H. injection H as _ <-.
    unfold get_current_play_delay in Hpd.
    apply bind_inv in Hpd. destruct Hpd as (y1 & v1 & F1 & Hpd).
    unfold attr in F1. injection F1 as <- <-.
    apply bind_inv in Hpd. destruct Hpd as (y2 & v2 & F2 & Hpd).
    unfold get_current_round, attr in F2. injection F2 as <- <-.
    apply bind_inv in Hpd. destruct Hpd as (row & v3 & F3 & Hpd).
    apply lift_inv in F3. destruct F3 as [_ ->].
    apply bind_inv in Hpd. destruct Hpd as (l & w4 & Hl & Hpd).
    apply lift_inv in Hpd. destruct Hpd as [_ ->]. now exists l. }
  split; [reflexivity|]. split; [reflexivity|]. split.
  { destruct Hmod as (m & Hm). unfold shown in Hm.
    unfold time_before_next_lap. unfold bind at 1, attr at 1.
    destruct (finished (priv w)); [now eexists|].
    rewrite (bind_some _ _ _ _ _ (time_value w)).
    munfold. rewrite Hrc. mred. rewrite Hm. mred. now eexists. }
  split.
  { intros Hf. unfold time_before_playing, bind, attr. now rewrite Hf. }
  split; [exact Hg|]. split; [exact Hp|].
  intros Hlt.
  pose proof (get_current_lap_within w rc Hrc HD Hlt) as Hlap.
  split; [exact Hlap|]. split.
  - intros a w' H. destruct (Hg a w' H) as (l & Hl).
    rewrite Hlap in Hl. now injection Hl as _ <-.
  - intros a w' H. destruct (finished (priv w)) eqn:Hf.
    + unfold time_before_playing, bind, attr in H. rewrite Hf in H.
      unfold ret in H. now injection H as _ <-.
    + destruct (Hp eq_refl a w' H) as (l & Hl).
      rewrite Hlap in Hl. now injection Hl as _ <-.
Qed.

Lemma queries_frame_witness :
  run_from (sample_config false false) 100
    [OpWait 4; OpPlay; OpWait 30; OpLap; OpWait 30; OpLap] = Some sample_finished /\
  is_paused sample_running = Some (false, sample_running) /\
  get_current_lap sample_running = Some (0, sample_running) /\
  (forall a w', time_before_playing sample_running = Some (a, w') ->
                w' = sample_running) /\
  time_before_playing sample_finished = Some ((-1)%Q, sample_finished).
Proof.
  split; [vm_compute; reflexivity|].
  destruct (queries_frame sample_running
              {| lap_count := 3; lap_duration := 10; only_check_for_presence := false |}
              eq_refl) as (Hp & _ & _ & _ & _ & _ & Hin);
    [intros H; vm_compute in H; discriminate H|].
  destruct Hin as (Hlap & _ & Hplay); [vm_compute; reflexivity|].
  destruct (queries_frame sample_finished
              {| lap_count := 3; lap_duration := 10; only_check_for_presence := true |}
              eq_refl) as (_ & _ & _ & Hfin & _);
    [intros H; vm_compute in H; discriminate H|].
  split; [exact Hp|]. split; [exact Hlap|]. split; [exact Hplay|].
  exact (Hfin eq_refl).
Defined.

(** ** Construction *)

Section Construction.

Lemma validate_timing_false c :
  validate_timing c = false <-> short_lap c.
Proof.
  unfold validate_timing, short_lap.
  induction (rounds c) as [|rc l IH]; cbn [forallb].
  - split; [discriminate|]. intros (rc & Hin & _). now apply elem_of_nil in Hin.
  - rewrite andb_false_iff, IH. split.
    + intros [H | (rc' & Hin & Hlt)].
      * exists rc. split; [apply list_elem_of_here|].
        apply Qnot_le_lt. intros Hle. apply Qle_bool_iff in Hle. congruence.
      * exists rc'. split; [now apply list_elem_of_further | exact Hlt].
    + intros (rc' & Hin & Hlt). apply elem_of_cons in Hin.
      destruct Hin as [-> | Hin].
      * left. apply not_true_is_false. intros Hle. apply Qle_bool_iff in Hle. lra.
      * right. now exists rc'.
Qed.

(** The validator loop accepts exactly the rosters without a repeated
    key or name, given what the two sets already hold. *)
Lemma unique_loop_spec v : forall keys names,
  unique_loop v keys names = true <->
  NoDup (map key v) /\ NoDup (map name v) /\
  forall g, g ∈ v -> (key g ∉ keys) /\ (name g ∉ names).
Proof.
  induction v as [|g v IH]; intros keys names; cbn [unique_loop map].
  - split; [|reflexivity]. intros _.
    split; [constructor|]. split; [constructor|].
    intros g' Hg'. now apply elem_of_nil in Hg'.
  - destruct (decide (key g ∈ keys)) as [Hk | Hk].
    { split; [discriminate|]. intros (_ & _ & H).
      destruct (H g (list_elem_of_here _ _)) as [Hn _]. contradiction. }
    destruct (decide (name g ∈ names)) as [Hn | Hn].
    { split; [discriminate|]. intros (_ & _ & H).
      destruct (H g (list_elem_of_here _ _)) as [_ Hn']. contradiction. }
    rewrite IH, !NoDup_cons. split.
    + intros (Hdk & Hdn & H).
      split; [split; [|exact Hdk]|].
      { intros Hin. apply list_elem_of_In, in_map_iff in Hin.
        destruct Hin as (g' & Heq & Hin'). apply list_elem_of_In in Hin'.
        destruct (H g' Hin') as [Hk' _]. apply Hk'.
        apply elem_of_union. left. now apply elem_of_singleton. }
      split; [split; [|exact Hdn]|].
      { intros Hin. apply list_elem_of_In, in_map_iff in Hin.
        destruct Hin as (g' & Heq & Hin'). apply list_elem_of_In in Hin'.
        destruct (H g' Hin') as [_ Hn']. apply Hn'.
        apply elem_of_union. left. now apply elem_of_singleton. }
      intros g' Hg'. apply elem_of_cons in Hg'.
      destruct Hg' as [-> | Hin]; [now split|].
      destruct (H g' Hin) as [Hk' Hn']. split.
      * intros Hc. apply Hk'. apply elem_of_union. now right.
      * intros Hc. apply Hn'. apply elem_of_union. now right.
    + intros ((Hnk & Hdk) & (Hnn & Hdn) & H).
      split; [exact Hdk|]. split; [exact Hdn|].
      intros g' Hin.
      destruct (H g' (list_elem_of_further _ _ _ Hin)) as [Hk' Hn'].
      split.
      * intros Hu. apply elem_of_union in Hu.
        destruct Hu as [Hu | Hu]; [|contradiction].
        apply elem_of_singleton in Hu. apply Hnk.
        apply list_elem_of_In, in_map_iff. exists g'.
        split; [exact Hu | now apply list_elem_of_In].
      * intros Hu. apply elem_of_union in Hu.
        destruct Hu as [Hu | Hu]; [|contradiction].
        apply elem_of_singleton in Hu. apply Hnn.
        apply list_elem_of_In, in_map_iff. exists g'.
        split; [exact Hu | now apply list_elem_of_In].
Qed.

(** A list has a repeated element exactly when two positions agree. *)
Lemma not_NoDup_shared {A B} `{EqDecision B} (f : A -> B) (l : list A) :
  ~ NoDup (map f l) <->
  exists i j x y, i <> j /\ l !! i = Some x /\ l !! j = Some y /\ f x = f y.
Proof.
  split.
  - induction l as [|a l IH]; intros Hnd; [destruct Hnd; constructor|].
    cbn [map] in Hnd. rewrite NoDup_cons in Hnd.
    destruct (decide (f a ∈ map f l)) as [Hin | Hnin].
    + apply list_elem_of_In, in_map_iff in Hin.
      destruct Hin as (b & Heq & Hin). apply list_elem_of_In in Hin.
      apply list_elem_of_lookup in Hin. destruct Hin as (j & Hj).
      exists 0%nat, (S j), a, b. repeat split; [lia | exact Hj | now symmetry].
    + destruct IH as (i & j & x & y & Hne & Hi & Hj & Heq); [tauto|].
      exists (S i), (S j), x, y. repeat split; [lia | exact Hi | exact Hj | exact Heq].
  - intros (i & j & x & y & Hne & Hi & Hj & Heq) Hnd.
    apply Hne. apply (NoDup_lookup _ i j (f x) Hnd).
    + change (map f l) with (f <$> l). now rewrite list_lookup_fmap, Hi.
    + change (map f l) with (f <$> l). rewrite list_lookup_fmap, Hj. cbn. now rewrite Heq.
Qed.

Lemma unique_names_and_keys_fails gs :
  unique_names_and_keys gs = None <-> shared_key gs \/ shared_name gs.
Proof.
  unfold unique_names_and_keys, shared_key, shared_name.
  rewrite <- !not_NoDup_shared.
  destruct (unique_loop gs ∅ ∅) eqn:E.
  - apply unique_loop_spec in E. destruct E as (Hk & Hn & _).
    split; [discriminate | tauto].
  - split; [intros _|reflexivity].
    destruct (decide (NoDup (map key gs))) as [Hk|Hk]; [|now left].
    destruct (decide (NoDup (map name gs))) as [Hn|Hn]; [|now right].
    exfalso. apply not_true_iff_false in E. apply E, unique_loop_spec.
    split; [exact Hk|]. split; [exact Hn|].
    intros g _. split; apply not_elem_of_empty.
Qed.

Lemma unique_names_and_keys_value gs gs' :
  unique_names_and_keys gs = Some gs' -> gs' = gs.
Proof.
  unfold unique_names_and_keys. destruct (unique_loop gs ∅ ∅); congruence.
Qed.

End Construction.

(** ** The declared fields are never written *)

Create HintDb ks discriminated.

Section KeepsSelf.

Lemma ks_ret {A} (a : A) : keeps_self (ret a).
Proof. intros w x w' [= _ <-]. reflexivity. Qed.

Lemma ks_raise {A} : keeps_self (@raise A).
Proof. intros w x w' H. discriminate H. Qed.

Lemma ks_lift {A} (o : option A) : keeps_self (lift o).
Proof. destruct o; [apply ks_ret | apply ks_raise]. Qed.

Lemma ks_bind {A B} (c : M A) (k : A -> M B) :
  keeps_self c -> (forall a, keeps_self (k a)) -> keeps_self (bind c k).
Proof.
  intros Hc Hk w b w' H. apply bind_inv in H.
  destruct H as (a & w1 & H1 & H2).
  rewrite (Hk a _ _ _ H2). exact (Hc _ _ _ H1).
Qed.

Lemma ks_attr {A} (f : Private -> A) : keeps_self (attr f).
Proof. intros w x w' [= _ <-]. reflexivity. Qed.

Lemma ks_field {A} (f : RoundsConfig -> A) : keeps_self (field f).
Proof. intros w x w' [= _ <-]. reflexivity. Qed.

Lemma ks_set_priv p : keeps_self (set_priv p).
Proof. intros w x w' [= _ <-]. reflexivity. Qed.

Lemma ks_time_time : keeps_self time_time.
Proof. intros w x w' [= _ <-]. reflexivity. Qed.

Lemma ks_read_table : keeps_self read_table.
Proof. intros w x w' [= _ <-]. reflexivity. Qed.

Lemma ks_clear : keeps_self Submission_clear.
Proof. intros w x w' [= _ <-]. reflexivity. Qed.

Lemma ks_random : keeps_self random_random.
Proof.
  intros w x w' H. rewrite random_random_eq in H.
  injection H as _ <-. reflexivity.
Qed.

Lemma ks_mapM {A B} (f : A -> M B) (l : list A) :
  (forall x, keeps_self (f x)) -> keeps_self (mapM f l).
Proof.
  intros Hf. induction l as [|x l IH]; cbn [mapM]; [apply ks_ret|].
  apply ks_bind; [apply Hf|]. intros y.
  apply ks_bind; [exact IH|]. intros ys. apply ks_ret.
Qed.

Lemma ks_foldM {A B} (f : B -> A -> M B) (l : list A) :
  (forall b x, keeps_self (f b x)) -> forall b, keeps_self (foldM f b l).
Proof.
  intros Hf. induction l as [|x l IH]; intros b; cbn [foldM]; [apply ks_ret|].
  apply ks_bind; [apply Hf | exact IH].
Qed.

End KeepsSelf.

#[local] Hint Resolve ks_ret ks_raise ks_lift ks_attr ks_field ks_set_priv
  ks_time_time ks_read_table ks_clear ks_random : ks.

Ltac ks :=
  repeat lazymatch goal with
    | |- keeps_self (bind _ _) => apply ks_bind; [|intros ?]
    | |- keeps_self (mapM _ _) => apply ks_mapM; intros ?
    | |- keeps_self (foldM _ _ _) => apply ks_foldM; intros ? ?
    | |- keeps_self (match ?x with _ => _ end) => destruct x
    | |- keeps_self _ => solve [auto with ks]
    end.

Section KeepsSelfMethods.

Lemma ks_modify_priv f : keeps_self (modify_priv f).
Proof. unfold modify_priv. ks. Qed.
Hint Resolve ks_modify_priv : ks.

Lemma ks_play : keeps_self play.
Proof. unfold play. ks. Qed.

Lemma ks_pause : keeps_self pause.
Proof. unfold pause. ks. Qed.
Hint Resolve ks_play ks_pause : ks.

Lemma ks_time : keeps_self time.
Proof. unfold time. ks. Qed.

Lemma ks_random_choices {A} (l : list A) k : keeps_self (random_choices l k).
Proof. unfold random_choices. ks. Qed.
Hint Resolve ks_time ks_random_choices : ks.

Lemma ks_restart : keeps_self restart.
Proof. unfold restart. ks. Qed.
Hint Resolve ks_restart : ks.

Lemma ks_get_current_round : keeps_self get_current_round.
Proof. unfold get_current_round. ks. Qed.
Hint Resolve ks_get_current_round : ks.

Lemma ks_get_number_of_rounds : keeps_self get_number_of_rounds.
Proof. unfold get_number_of_rounds. ks. Qed.

Lemma ks_get_current_round_config : keeps_self get_current_round_config.
Proof. unfold get_current_round_config. ks. Qed.

Lemma ks_get_current_number_of_laps : keeps_self get_current_number_of_laps.
Proof. unfold get_current_number_of_laps. ks. Qed.

Lemma ks_get_current_round_answers : keeps_self get_current_round_answers.
Proof. unfold get_current_round_answers. ks. Qed.
Hint Resolve ks_get_number_of_rounds ks_get_current_round_config
  ks_get_current_number_of_laps ks_get_current_round_answers : ks.

Lemma ks_get_current_lap : keeps_self get_current_lap.
Proof. unfold get_current_lap. ks. Qed.
Hint Resolve ks_get_current_lap : ks.

Lemma ks_get_current_play_delay : keeps_self get_current_play_delay.
Proof. unfold get_current_play_delay. ks. Qed.

Lemma ks_get_current_correct_guess : keeps_self get_current_correct_guess.
Proof. unfold get_current_correct_guess. ks. Qed.
Hint Resolve ks_get_current_play_delay ks_get_current_correct_guess : ks.

Lemma ks_time_before_next_lap : keeps_self time_before_next_lap.
Proof. unfold time_before_next_lap. ks. Qed.

Lemma ks_time_before_playing : keeps_self time_before_playing.
Proof. unfold time_before_playing. ks. Qed.

Lemma ks_score_group r cl cas g : keeps_self (score_group r cl cas g).
Proof.
  unfold score_group, score_lap, Submission_get_submissions,
    Submission_is_disqualified. ks.
Qed.
Hint Resolve ks_time_before_next_lap ks_time_before_playing ks_score_group : ks.

Lemma ks_get_leaderboard_status gs : keeps_self (get_leaderboard_status gs).
Proof. unfold get_leaderboard_status, is_paused, is_finished. ks. Qed.

Lemma run_op_keeps_self o w w' : run_op o w = Some w' -> self w' = self w.
Proof.
  destruct o; cbn [run_op]; unfold after.
  - destruct (play w) as [[a u]|] eqn:E; [|discriminate].
    intros [= <-]. exact (ks_play _ _ _ E).
  - destruct (pause w) as [[a u]|] eqn:E; [|discriminate].
    intros [= <-]. exact (ks_pause _ _ _ E).
  - destruct (get_current_lap w) as [[a u]|] eqn:E; [|discriminate].
    intros [= <-]. exact (ks_get_current_lap _ _ _ E).
  - destruct (get_leaderboard_status gs w) as [[a u]|] eqn:E; [|discriminate].
    intros [= <-]. exact (ks_get_leaderboard_status gs _ _ _ E).
  - intros [= <-]. reflexivity.
  - intros [= <-]. reflexivity.
Qed.

Lemma run_keeps_self ops : forall w w', run ops w = Some w' -> self w' = self w.
Proof.
  induction ops as [|o ops IH]; intros w w'; cbn [run].
  - now intros [= <-].
  - destruct (run_op o w) as [u|] eqn:E; [|discriminate].
    intros H. rewrite (IH _ _ H). exact (run_op_keeps_self _ _ _ E).
Qed.

End KeepsSelfMethods.

Lemma validate_timing_float_false c :
  validate_timing_float c = false <-> float_short_lap c.
Proof.
  unfold validate_timing_float, float_short_lap.
  generalize (total_overhead_float c). intros total.
  induction (rounds c) as [|rc l IH]; cbn [forallb].
  - split; [discriminate|]. intros (rc & Hin & _). now apply elem_of_nil in Hin.
  - rewrite andb_false_iff, IH. split.
    + intros [H | (rc' & Hin & Hlt)].
      * exists rc. split; [apply list_elem_of_here | exact H].
      * exists rc'. split; [now apply list_elem_of_further | exact Hlt].
    + intros (rc' & Hin & Hlt). apply elem_of_cons in Hin.
      destruct Hin as [-> | Hin]; [now left | right; now exists rc'].
Qed.




(** ** A status request *)

Section Status.

Lemma mapM_score_group w rc r cl cas :
  rounds (self w) !! current_round (priv w) = Some rc ->
  forall gs, exists rows,
    mapM (score_group r cl cas) gs w = Some (rows, w) /\
    Forall2 (fun g row => score_group r cl cas g w = Some (row, w)) gs rows.
Proof.
  intros Hrc. induction gs as [|g gs IH].
  - exists []. split; [reflexivity | constructor].
  - destruct (score_group_row w g r rc cl cas Hrc) as (row & Hrow & _).
    destruct IH as (rows & Hrows & Hall).
    exists (row :: rows). cbn [mapM].
    rewrite (bind_some _ _ _ _ _ Hrow), (bind_some _ _ _ _ _ Hrows).
    split; [reflexivity | now constructor].
Qed.

(** A status request whose first position query leaves a state [w1]
    in which the later queries change nothing. *)
Lemma status_run gs w w1 rc g l tn tp cas :
  get_current_correct_guess w = Some (g, w1) ->
  get_current_lap w1 = Some (l, w1) ->
  rounds (self w1) !! current_round (priv w1) = Some rc ->
  time_before_next_lap w1 = Some (tn, w1) ->
  time_before_playing w1 = Some (tp, w1) ->
  answers (priv w1) !! current_round (priv w1) = Some cas ->
  exists rows,
    Forall2 (fun g row =>
               score_group (current_round (priv w1)) l cas g w1 = Some (row, w1))
            gs rows /\
    get_leaderboard_status gs w
    = Some ({| st_current_correct_guess := g;
               st_current_round := current_round (priv w1);
               st_current_lap := l;
               st_number_of_rounds := length (rounds (self w1));
               st_number_of_laps := lap_count rc;
               st_paused := paused (priv w1);
               st_time_before_next_lap := tn;
               st_time_before_playing := tp;
               st_finished := finished (priv w1);
               leaderboard := rows |}, w1).
Proof.
  intros Hg Hl Hrc Htn Htp Hcas.
  destruct (mapM_score_group w1 rc (current_round (priv w1)) l cas Hrc gs)
    as (rows & Hrows & Hall).
  exists rows. split; [exact Hall|].
  unfold get_leaderboard_status.
  rewrite (bind_some _ _ _ _ _ Hg).
  unfold bind at 1, get_current_round at 1, attr at 1.
  rewrite (bind_some _ _ _ _ _ Hl).
  unfold bind at 1, get_number_of_rounds at 1, bind at 1, field at 1, ret at 1.
  unfold bind at 1, get_current_number_of_laps at 1, bind at 1, field at 1,
    bind at 1, get_current_round at 1, attr at 1.
  rewrite Hrc. unfold lift at 1, bind at 1, ret at 1 2.
  unfold bind at 1, is_paused at 1, attr at 1.
  rewrite (bind_some _ _ _ _ _ Htn), (bind_some _ _ _ _ _ Htp).
  unfold bind at 1, is_finished at 1, attr at 1.
  unfold bind at 1, get_current_round_answers at 1, bind at 1, attr at 1,
    bind at 1, get_current_round at 1, attr at 1.
  rewrite Hcas. unfold lift at 1, ret at 1.
  rewrite (bind_some _ _ _ _ _ Hrows). reflexivity.
Qed.

End Status.

(** ** After the last lap *)

Section Frozen.

Variables (c : RoundsConfig) (rc : RoundConfig) (arow : list Guess.t).
Hypothesis Hrwf : restart_when_finished c = false.
Hypothesis HD : (0 < lap_duration rc)%Q.
Hypothesis HN : 0 < lap_count rc.
Hypothesis Hlen : length arow = Z.to_nat (lap_count rc).

Let HD0 : ~ (lap_duration rc == 0)%Q.
Proof. lra. Qed.

Lemma raw_lap_eq w w' :
  (shown w' == shown w)%Q -> raw_lap w' rc = raw_lap w rc.
Proof. intros H. unfold raw_lap. apply Qfloor_eq. now rewrite H. Qed.

Lemma raw_lap_mono w w' :
  (shown w <= shown w')%Q -> raw_lap w rc <= raw_lap w' rc.
Proof.
  intros H. unfold raw_lap. apply Qfloor_resp_le.
  apply Qmult_le_compat_r; [exact H|]. apply Qinv_le_0_compat. lra.
Qed.

Lemma set_finished_id p : finished p = true -> set_finished true p = p.
Proof. intros H. destruct p. cbn in *. now subst. Qed.

Lemma with_priv_id w : with_priv (priv w) w = w.
Proof. now destruct w. Qed.

(** The position query in a frozen state. *)
Lemma frozen_lap w :
  frozen c rc arow w ->
  let w1 := with_priv (paused_at (wall w) (priv w)) w in
  get_current_lap w = Some (lap_count rc - 1, w1) /\
  frozen c rc arow w1 /\
  paused (priv w1) = true.
Proof.
  intros (Hs & Hrc & Hlast & Hf & Hraw & Ha). cbn zeta.
  rewrite <- Hs in Hrc, Hlast, Hrwf.
  rewrite (get_current_lap_finish w rc Hrc HD0 Hraw Hlast Hrwf).
  rewrite (set_finished_id _ Hf).
  split; [reflexivity|].
  unfold frozen, with_priv, paused_at, raw_lap, shown in *.
  cbn [self priv wall].
  destruct (paused (priv w)) eqn:Hp; mred; rewrite ?Hp;
    rewrite <- ?Hs; auto 10.
Qed.

Lemma frozen_lap_paused w :
  frozen c rc arow w -> paused (priv w) = true ->
  get_current_lap w = Some (lap_count rc - 1, w).
Proof.
  intros Hfz Hp. destruct (frozen_lap w Hfz) as (Hlap & _).
  rewrite Hlap. unfold paused_at. rewrite Hp. now rewrite with_priv_id.
Qed.

(** A status request in a frozen state. *)
Lemma frozen_status w gs :
  frozen c rc arow w ->
  let w1 := with_priv (paused_at (wall w) (priv w)) w in
  exists st,
    get_leaderboard_status gs w = Some (st, w1) /\
    st_finished st = true /\
    st_paused st = true /\
    st_current_lap st = lap_count rc - 1 /\
    st_current_round st = current_round (priv w) /\
    st_time_before_playing st = (-1)%Q.
Proof.
  intros Hfz. cbn zeta.
  destruct (frozen_lap w Hfz) as (Hlap & Hfz1 & Hp1). cbn zeta in *.
  set (w1 := with_priv (paused_at (wall w) (priv w)) w) in *.
  pose proof Hfz as (Hs & Hrc & Hlast & Hf & Hraw & Ha).
  pose proof Hfz1 as (Hs1 & Hrc1 & Hlast1 & Hf1 & Hraw1 & Ha1).
  assert (Hcur : current_round (priv w1) = current_round (priv w)).
  { subst w1. unfold with_priv, paused_at. cbn [priv].
    now destruct (paused (priv w)). }
  destruct (lookup_lt_is_Some_2 arow (Z.to_nat (lap_count rc - 1))) as (g & Hg);
    [lia|].
  assert (Hguess : get_current_correct_guess w = Some (g, w1)).
  { unfold get_current_correct_guess.
    unfold bind at 1, attr at 1, bind at 1, get_current_round at 1, attr at 1.
    rewrite Ha. unfold lift at 1, bind at 1, ret at 1.
    rewrite (bind_some _ _ _ _ _ Hlap).
    rewrite py_index_nat by lia. now rewrite Hg. }
  rewrite <- Hs1 in Hrc1.
  destruct (status_run gs w w1 rc g (lap_count rc - 1) 0%Q (-1)%Q arow Hguess)
    as (rows & _ & Hst).
  - now apply frozen_lap_paused.
  - exact Hrc1.
  - unfold time_before_next_lap, bind, attr. now rewrite Hf1.
  - unfold time_before_playing, bind, attr. now rewrite Hf1.
  - exact Ha1.
  - eexists. split; [exact Hst|]. cbn. auto.
Qed.

(** Nothing a server does afterwards unfreezes the state. *)
Lemma frozen_run_op o w :
  op_ok o -> frozen c rc arow w ->
  exists w', run_op o w = Some w' /\ frozen c rc arow w'.
Proof.
  intros Hok Hfz. pose proof Hfz as (Hs & Hrc & Hlast & Hf & Hraw & Ha).
  destruct o as [| | |gs|d|s]; cbn [run_op]; unfold after.
  - destruct (paused (priv w)) eqn:Hp.
    + rewrite (play_paused w Hp). eexists. split; [reflexivity|].
      unfold frozen. cbn [self priv]. mred.
      repeat split; try assumption.
      etransitivity; [exact Hraw|]. apply Z.eq_le_incl. symmetry.
      apply raw_lap_eq. unfold shown. mred. rewrite Hp. ring.
    + rewrite (play_running w Hp). eauto.
  - rewrite pause_value. eexists. split; [reflexivity|].
    exact (proj1 (proj2 (frozen_lap w Hfz))).
  - destruct (frozen_lap w Hfz) as (Hlap & Hfz1 & _). rewrite Hlap. eauto.
  - destruct (frozen_status w gs Hfz) as (st & Hst & _). rewrite Hst.
    eexists. split; [reflexivity|].
    exact (proj1 (proj2 (frozen_lap w Hfz))).
  - eexists. split; [reflexivity|].
    unfold frozen, advance. cbn [self priv].
    repeat split; try assumption.
    etransitivity; [exact Hraw|]. apply raw_lap_mono.
    unfold shown. cbn [priv wall]. cbn in Hok.
    destruct (paused (priv w)); lra.
  - eexists. split; [reflexivity|].
    unfold frozen, append_row. cbn [self priv].
    repeat split; assumption.
Qed.

Lemma frozen_run ops : forall w,
  Forall op_ok ops -> frozen c rc arow w ->
  exists w', run ops w = Some w' /\ frozen c rc arow w'.
Proof.
  induction ops as [|o ops IH]; intros w Hok Hfz; cbn [run].
  - eauto.
  - apply Forall_cons in Hok. destruct Hok as [Ho Hops].
    destruct (frozen_run_op o w Ho Hfz) as (w1 & Hrun & Hfz1).
    rewrite Hrun. now apply IH.
Qed.

End Frozen.

(** ** Queries inside a round *)

Section Within.

Variables (w : World) (rc : RoundConfig).
Hypothesis Hrc : rounds (self w) !! current_round (priv w) = Some rc.
Hypothesis HD0 : ~ (lap_duration rc == 0)%Q.

Lemma mod_total x : exists m, py_mod x (lap_duration rc) = Some m.
Proof.
  unfold py_mod. destruct (Qeq_bool (lap_duration rc) 0) eqn:E; [|eauto].
  now apply Qeq_bool_iff in E.
Qed.

Lemma time_before_next_lap_total :
  exists t, time_before_next_lap w = Some (t, w).
Proof.
  destruct (mod_total (shown w)) as (m & Hm). unfold shown in Hm.
  unfold time_before_next_lap. unfold bind at 1, attr at 1.
  destruct (finished (priv w)); [now eexists|].
  rewrite (bind_some _ _ _ _ _ (time_value w)).
  munfold. rewrite Hrc. mred. rewrite Hm. mred. now eexists.
Qed.

Hypothesis Hlo : 0 <= raw_lap w rc.
Hypothesis Hhi : raw_lap w rc < lap_count rc.

Lemma get_current_play_delay_within drow :
  play_delays (priv w) !! current_round (priv w) = Some drow ->
  length drow = Z.to_nat (lap_count rc) ->
  exists x, get_current_play_delay w = Some (x, w).
Proof.
  intros Hd Hlen.
  destruct (lookup_lt_is_Some_2 drow (Z.to_nat (raw_lap w rc))) as (x & Hx);
    [lia|].
  exists x. unfold get_current_play_delay.
  unfold bind at 1, attr at 1, bind at 1, get_current_round at 1, attr at 1.
  rewrite Hd. unfold lift at 1, bind at 1, ret at 1.
  rewrite (bind_some _ _ _ _ _ (get_current_lap_within w rc Hrc HD0 Hhi)).
  rewrite py_index_nat by exact Hlo. now rewrite Hx.
Qed.

Lemma time_before_playing_within drow :
  play_delays (priv w) !! current_round (priv w) = Some drow ->
  length drow = Z.to_nat (lap_count rc) ->
  exists t, time_before_playing w = Some (t, w).
Proof.
  intros Hd Hlen.
  destruct (get_current_play_delay_within drow Hd Hlen) as (x & Hx).
  destruct (mod_total (shown w)) as (m & Hm). unfold shown in Hm.
  unfold time_before_playing. unfold bind at 1, attr at 1.
  destruct (finished (priv w)); [now eexists|].
  rewrite (bind_some _ _ _ _ _ (time_value w)).
  unfold bind at 1, attr at 1.
  unfold bind at 1, get_current_round_config at 1, bind at 1, field at 1,
    bind at 1, get_current_round at 1, attr at 1.
  rewrite Hrc. unfold lift at 1, ret at 1.
  rewrite (bind_some _ _ _ _ _ Hx).
  rewrite Hm. unfold lift, bind, ret. now eexists.
Qed.

Lemma get_current_correct_guess_within arow :
  answers (priv w) !! current_round (priv w) = Some arow ->
  length arow = Z.to_nat (lap_count rc) ->
  exists g, get_current_correct_guess w = Some (g, w).
Proof.
  intros Ha Hlen.
  destruct (lookup_lt_is_Some_2 arow (Z.to_nat (raw_lap w rc))) as (g & Hg);
    [lia|].
  exists g. unfold get_current_correct_guess.
  unfold bind at 1, attr at 1, bind at 1, get_current_round at 1, attr at 1.
  rewrite Ha. unfold lift at 1, bind at 1, ret at 1.
  rewrite (bind_some _ _ _ _ _ (get_current_lap_within w rc Hrc HD0 Hhi)).
  rewrite py_index_nat by exact Hlo. now rewrite Hg.
Qed.

End Within.

(** ** Right after a restart *)

Section Restarted.

Lemma fields_ok_round c r rc :
  RoundsConfig_fields_ok c = true -> rounds c !! r = Some rc ->
  0 < lap_count rc /\ (0 < lap_duration rc)%Q.
Proof.
  intros Hok Hrc. unfold RoundsConfig_fields_ok in Hok.
  repeat (apply andb_prop in Hok; destruct Hok as [Hok _]).
  rewrite forallb_forall in Hok.
  assert (Hin : In rc (rounds c))
    by (apply list_elem_of_In, list_elem_of_lookup; now exists r).
  specialize (Hok rc Hin). unfold RoundConfig_fields_ok in Hok.
  apply andb_prop in Hok. destruct Hok as [Hn Hd].
  split; [now apply Z.ltb_lt|].
  apply Qnot_le_lt. intros Hle. apply Qle_bool_iff in Hle.
  rewrite Hle in Hd. discriminate.
Qed.

Lemma shown_restarted c a d now g tbl :
  (shown {| self := c; priv := restarted c a d now; rng := g;
            table := tbl; wall := now |} == 0)%Q.
Proof.
  unfold shown, restarted. cbn [priv wall paused time_when_paused round_start_time].
  destruct (start_paused c); ring.
Qed.

(** The state [restart()] leaves answers a status request with lap 0 of
    round 0, not finished, and is not changed by it. *)
Lemma restarted_stable w1 a d now g tbl rc0 :
  w1 = {| self := self w1; priv := restarted (self w1) a d now; rng := g;
          table := tbl; wall := now |} ->
  RoundsConfig_fields_ok (self w1) = true ->
  rounds (self w1) !! 0%nat = Some rc0 ->
  Forall2 answers_ok (rounds (self w1)) a ->
  Forall2 (delays_ok (self w1)) (rounds (self w1)) d ->
  get_current_lap w1 = Some (0, w1) /\
  (exists t, time_before_next_lap w1 = Some (t, w1)) /\
  (exists t, time_before_playing w1 = Some (t, w1)) /\
  (exists arow, answers (priv w1) !! current_round (priv w1) = Some arow) /\
  rounds (self w1) !! current_round (priv w1) = Some rc0.
Proof.
  intros Hw1 Hok Hrc0 Ha Hd.
  destruct (fields_ok_round _ _ _ Hok Hrc0) as [HN HD].
  assert (HD0 : ~ (lap_duration rc0 == 0)%Q) by lra.
  assert (Hcur : current_round (priv w1) = 0%nat) by (now rewrite Hw1).
  assert (Hrc : rounds (self w1) !! current_round (priv w1) = Some rc0)
    by (now rewrite Hcur).
  assert (Hraw : raw_lap w1 rc0 = 0).
  { unfold raw_lap. rewrite Hw1.
    rewrite (Qfloor_eq _ 0); [reflexivity|].
    rewrite shown_restarted. field. exact HD0. }
  destruct (Forall2_lookup_l _ _ _ _ _ Ha Hrc0) as (arow & Harow & Hla & _).
  destruct (Forall2_lookup_l _ _ _ _ _ Hd Hrc0) as (drow & Hdrow & Hld & _).
  assert (Hpd : play_delays (priv w1) !! current_round (priv w1) = Some drow)
    by (rewrite Hcur, Hw1; exact Hdrow).
  assert (Han : answers (priv w1) !! current_round (priv w1) = Some arow)
    by (rewrite Hcur, Hw1; exact Harow).
  split.
  { rewrite <- Hraw at 1. apply get_current_lap_within; [exact Hrc|exact HD0|lia]. }
  split; [now apply (time_before_next_lap_total w1 rc0)|].
  split; [apply (time_before_playing_within w1 rc0 Hrc HD0) with (drow := drow);
          [lia | lia | exact Hpd | exact Hld]|].
  split; [now exists arow | exact Hrc].
Qed.

End Restarted.

(** C3, as stated, fails: once the game is finished not every query
    reports the clock paused.  [play()] does not look at the finished
    flag: called in the finished state of the sample run it resumes the
    clock, and then [is_finished()] answers [True], [is_paused()] answers
    [False] and [time()] follows the wall clock again, until the next
    position query pauses the clock anew. *)
Lemma finished_not_always_paused :
  ~ finished_stays_paused sample_finished /\
  get_current_lap sample_end = Some (2, sample_finished) /\
  finished (priv sample_finished) = true /\
  paused (priv sample_finished) = true /\
  run [OpPlay] sample_finished = Some sample_finished_resumed /\
  is_finished sample_finished_resumed = Some (true, sample_finished_resumed) /\
  is_paused sample_finished_resumed = Some (false, sample_finished_resumed) /\
  time (advance 5 sample_finished_resumed)
  = Some ((wall sample_finished_resumed + 5)%Q, advance 5 sample_finished_resumed).
Proof.
  assert (Hrun : run [OpPlay] sample_finished = Some sample_finished_resumed)
    by (vm_compute; reflexivity).
  split; [|repeat split; try exact Hrun; vm_compute; reflexivity].
  intros H.
  assert (Hp : is_paused sample_finished_resumed
               = Some (true, sample_finished_resumed)).
  { apply (H [OpPlay]); [repeat constructor | exact Hrun]. }
  vm_compute in Hp. discriminate Hp.
Qed.

(** C3, amended. Finish or restart.  Take a state of a validated
    configuration in its last round whose elapsed time has crossed the
    last lap boundary ([lap_count <= elapsed // lap_duration]).

    With [restart_when_finished] unset, the position query returns
    [lap_count - 1] and leaves the machine finished and paused; from then
    on, after any sequence of resumes, pauses, waits, stored submissions,
    position queries and status requests, the finished flag is still
    set, the position query still returns [lap_count - 1] and leaves the
    clock paused, and every status request returns with finished = true,
    paused = true and lap [lap_count - 1].  The clock itself need not be
    paused between two such queries: a [play()] resumes it until the
    next position query or status request.

    With [restart_when_finished] set, the position query returns lap 0 in
    the state left by [restart()]: round 0, not finished, an empty table
    and a schedule drawn anew from the generator; the status request
    returns with round 0, lap 0 and finished = false. *)
Theorem finish_or_restart (w : World) (rc : RoundConfig) (arow : list Guess.t) :
  RoundsConfig_fields_ok (self w) = true ->
  rounds (self w) !! current_round (priv w) = Some rc ->
  (current_round (priv w) + 1)%nat = length (rounds (self w)) ->
  lap_count rc <= raw_lap w rc ->
  answers (priv w) !! current_round (priv w) = Some arow ->
  length arow = Z.to_nat (lap_count rc) ->
  if restart_when_finished (self w) then
    exists w1,
      restart w = Some (tt, w1) /\
      get_current_lap w = Some (0, w1) /\
      current_round (priv w1) = 0%nat /\
      finished (priv w1) = false /\
      table w1 = [] /\
      Forall2 answers_ok (rounds (self w)) (answers (priv w1)) /\
      Forall2 (delays_ok (self w)) (rounds (self w)) (play_delays (priv w1)) /\
      forall gs, exists st,
        get_leaderboard_status gs w = Some (st, w1) /\
        st_current_round st = 0%nat /\
        st_current_lap st = 0 /\
        st_finished st = false
  else
    exists w1,
      get_current_lap w = Some (lap_count rc - 1, w1) /\
      finished (priv w1) = true /\
      paused (priv w1) = true /\
      forall ops, Forall op_ok ops ->
        exists w2,
          run ops w1 = Some w2 /\
          finished (priv w2) = true /\
          (exists w3,
             get_current_lap w2 = Some (lap_count rc - 1, w3) /\
             finished (priv w3) = true /\
             paused (priv w3) = true) /\
          forall gs, exists st w3,
            get_leaderboard_status gs w2 = Some (st, w3) /\
            st_finished st = true /\
            st_paused st = true /\
            st_current_lap st = lap_count rc - 1.
Proof.
  intros Hok Hrc Hlast Hraw Ha Hlen.
  destruct (fields_ok_round _ _ _ Hok Hrc) as [HN HD].
  assert (HD0 : ~ (lap_duration rc == 0)%Q) by lra.
  destruct (restart_when_finished (self w)) eqn:Hrwf.
  - destruct (restart_spec w) as (a & d & g' & Hrun & Hoka & Hokd & _).
    set (w1 := {| self := self w; priv := restarted (self w) a d (wall w);
                  rng := g'; table := []; wall := wall w |}) in *.
    assert (Hlap : get_current_lap w = Some (0, w1))
      by (rewrite (get_current_lap_restart w rc Hrc HD0 Hraw Hlast Hrwf);
          now rewrite Hrun).
    exists w1. split; [exact Hrun|]. split; [exact Hlap|].
    do 3 (split; [reflexivity|]). split; [exact Hoka|]. split; [exact Hokd|].
    intros gs.
    destruct (lookup_lt_is_Some_2 (rounds (self w)) 0%nat) as (rc0 & Hrc0);
      [apply lookup_lt_Some in Hrc; lia|].
    destruct (restarted_stable w1 a d (wall w) g' [] rc0 eq_refl Hok Hrc0 Hoka Hokd)
      as (Hlap1 & (tn & Htn) & (tp & Htp) & (arow0 & Ha0) & Hrc1).
    destruct (lookup_lt_is_Some_2 arow 0%nat) as (g & Hg); [lia|].
    assert (Hguess : get_current_correct_guess w = Some (g, w1)).
    { unfold get_current_correct_guess.
      unfold bind at 1, attr at 1, bind at 1, get_current_round at 1, attr at 1.
      rewrite Ha. unfold lift at 1, bind at 1, ret at 1.
      rewrite (bind_some _ _ _ _ _ Hlap).
      rewrite py_index_nat by lia. change (Z.to_nat 0) with 0%nat.
      now rewrite Hg. }
    destruct (status_run gs w w1 rc0 g 0 tn tp arow0 Hguess Hlap1 Hrc1 Htn Htp Ha0)
      as (rows & _ & Hst).
    eexists. split; [exact Hst|]. cbn. auto.
  - set (w1 := with_priv (paused_at (wall w) (set_finished true (priv w))) w).
    assert (Hlap : get_current_lap w = Some (lap_count rc - 1, w1))
      by exact (get_current_lap_finish w rc Hrc HD0 Hraw Hlast Hrwf).
    assert (Hfz : frozen (self w) rc arow w1).
    { subst w1. unfold frozen, with_priv, paused_at, raw_lap, shown in *.
      cbn [self priv wall]. mred.
      destruct (paused (priv w)) eqn:Hp; mred; rewrite ?Hp; auto 10. }
    assert (Hp1 : paused (priv w1) = true).
    { subst w1. unfold with_priv, paused_at. cbn [priv]. mred.
      destruct (paused (priv w)) eqn:Hp; mred; rewrite ?Hp; reflexivity. }
    exists w1. split; [exact Hlap|].
    split; [exact (proj1 (proj2 (proj2 (proj2 Hfz))))|]. split; [exact Hp1|].
    intros ops Hops.
    destruct (frozen_run (self w) rc arow Hrwf HD HN Hlen ops w1 Hops Hfz)
      as (w2 & Hrun & Hfz2).
    exists w2. split; [exact Hrun|].
    split; [exact (proj1 (proj2 (proj2 (proj2 Hfz2))))|]. split.
    + destruct (frozen_lap (self w) rc arow Hrwf HD w2 Hfz2) as (Hl2 & Hfz3 & Hp3).
      eexists. split; [exact Hl2|].
      split; [exact (proj1 (proj2 (proj2 (proj2 Hfz3)))) | exact Hp3].
    + intros gs.
      destruct (frozen_status (self w) rc arow Hrwf HD HN Hlen w2 gs Hfz2)
        as (st & Hst & Hf & Hp & Hl & _).
      exists st. eexists. split; [exact Hst|]. auto.
Qed.

Lemma finish_or_restart_witness :
  run_from (sample_config false false) 100
    [OpWait 4; OpPlay; OpWait 30; OpLap; OpWait 30] = Some sample_end /\
  run_from (sample_config true false) 100
    [OpWait 4; OpPlay; OpWait 30; OpLap; OpWait 30] = Some sample_end_restarting /\
  (exists w1 w2 st w3,
     get_current_lap sample_end = Some (2, w1) /\
     run [OpWait 5; OpPlay; OpWait 7] w1 = Some w2 /\
     get_leaderboard_status [sample_group] w2 = Some (st, w3) /\
     st_finished st = true /\ st_paused st = true /\ st_current_lap st = 2) /\
  (exists w1 st,
     get_current_lap sample_end_restarting = Some (0, w1) /\
     get_leaderboard_status [sample_group] sample_end_restarting = Some (st, w1) /\
     st_current_round st = 0%nat /\ st_finished st = false).
Proof.
  split; [vm_compute; reflexivity|]. split; [vm_compute; reflexivity|]. split.
  - destruct (finish_or_restart sample_end
                {| lap_count := 3; lap_duration := 10; only_check_for_presence := true |}
                [Guess.helicopter; Guess.helicopter; Guess.fire]
                eq_refl eq_refl eq_refl)
      as (w1 & Hlap & _ & _ & Hlater);
      [vm_compute; discriminate | reflexivity | reflexivity |].
    destruct (Hlater [OpWait 5; OpPlay; OpWait 7]) as (w2 & Hrun & _ & _ & Hst).
    { repeat constructor; cbn; discriminate. }
    destruct (Hst [sample_group]) as (st & w3 & Hs & Hf & Hp & Hl).
    exists w1, w2, st, w3. auto 10.
  - destruct (finish_or_restart sample_end_restarting
                {| lap_count := 3; lap_duration := 10; only_check_for_presence := true |}
                [Guess.helicopter; Guess.helicopter; Guess.fire]
                eq_refl eq_refl eq_refl)
      as (w1 & _ & Hlap & _ & _ & _ & _ & _ & Hst);
      [vm_compute; discriminate | reflexivity | reflexivity |].
    destruct (Hst [sample_group]) as (st & Hs & Hr & _ & Hf).
    exists w1, st. auto.
Defined.

(** ** The rows of a status request *)

Section Rows.

Lemma ro_ret {A} (a : A) : reads_only (ret a).
Proof. intros w x w' [= _ <-]. reflexivity. Qed.

Lemma ro_lift {A} (o : option A) : reads_only (lift o).
Proof. intros w x w' H. now apply lift_inv in H. Qed.

Lemma ro_bind {A B} (c : M A) (k : A -> M B) :
  reads_only c -> (forall a, reads_only (k a)) -> reads_only (bind c k).
Proof.
  intros Hc Hk w b w' H. apply bind_inv in H.
  destruct H as (a & w1 & H1 & H2).
  rewrite (Hk a _ _ _ H2). exact (Hc _ _ _ H1).
Qed.

Lemma ro_attr {A} (f : Private -> A) : reads_only (attr f).
Proof. intros w x w' [= _ <-]. reflexivity. Qed.

Lemma ro_field {A} (f : RoundsConfig -> A) : reads_only (field f).
Proof. intros w x w' [= _ <-]. reflexivity. Qed.

Lemma ro_read_table : reads_only read_table.
Proof. intros w x w' [= _ <-]. reflexivity. Qed.

Lemma ro_foldM {A B} (f : B -> A -> M B) (l : list A) :
  (forall b x, reads_only (f b x)) -> forall b, reads_only (foldM f b l).
Proof.
  intros Hf. induction l as [|x l IH]; intros b; cbn [foldM]; [apply ro_ret|].
  apply ro_bind; [apply Hf | exact IH].
Qed.

Lemma ro_score_group r cl cas g : reads_only (score_group r cl cas g).
Proof.
  unfold score_group. apply ro_bind.
  - apply ro_foldM. intros [acc sc] [lap ca]. unfold score_lap.
    unfold Submission_get_submissions, Submission_is_disqualified,
      get_current_round_config, get_current_round.
    repeat first
      [ apply ro_ret | apply ro_lift | apply ro_attr | apply ro_field
      | apply ro_read_table
      | apply ro_bind; [|intros ?]
      | match goal with
        | |- reads_only (match ?x with _ => _ end) => destruct x
        end ].
  - intros [acc sc]. apply ro_ret.
Qed.

Lemma mapM_reads_only {A B} (f : A -> M B) (l : list A) :
  (forall x, reads_only (f x)) ->
  forall w ys w', mapM f l w = Some (ys, w') ->
    w' = w /\ Forall2 (fun x y => f x w = Some (y, w)) l ys.
Proof.
  intros Hf. induction l as [|x l IH]; intros w ys w' H; cbn [mapM] in H.
  - injection H as <- <-. split; [reflexivity | constructor].
  - apply bind_inv in H. destruct H as (y & w1 & Hy & H).
    apply bind_inv in H. destruct H as (ys' & w2 & Hys & H).
    injection H as <- <-.
    pose proof (Hf x _ _ _ Hy) as ->.
    destruct (IH _ _ _ Hys) as (-> & Hall).
    split; [reflexivity | now constructor].
Qed.

(** Every row of a status is the row the scoring loop computes, in
    roster order, for the round and lap the status reports, on the
    state the request ends in. *)
Lemma status_rows gs w st w' :
  get_leaderboard_status gs w = Some (st, w') ->
  exists cas,
    answers (priv w') !! current_round (priv w') = Some cas /\
    Forall2 (fun g row =>
               score_group (st_current_round st) (st_current_lap st) cas g w'
               = Some (row, w'))
            gs (leaderboard st).
Proof.
  intros H. unfold get_leaderboard_status in H.
  repeat (apply bind_inv in H; destruct H as (? & ? & ? & H)).
  unfold ret in H. injection H as <- <-. cbn [st_current_round st_current_lap leaderboard].
  match goal with
  | Hm : mapM _ _ _ = Some _ |- _ =>
      destruct (mapM_reads_only _ _ (ro_score_group _ _ _) _ _ _ Hm) as (-> & Hall)
  end.
  match goal with
  | Ha : get_current_round_answers _ = Some _ |- _ =>
      unfold get_current_round_answers in Ha;
      apply bind_inv in Ha; destruct Ha as (? & ? & Ha1 & Ha);
      apply bind_inv in Ha; destruct Ha as (? & ? & Ha2 & Ha);
      unfold attr in Ha1; injection Ha1 as <- <-;
      unfold get_current_round, attr in Ha2; injection Ha2 as <- <-;
      apply lift_inv in Ha; destruct Ha as (Ha & ->)
  end.
  eexists. split; [eassumption|]. exact Hall.
Qed.

End Rows.

(* ===================================================================== *)
(** * Further properties of the code *)

(** ** Keeping a property of the state *)

Create HintDb kp discriminated.

Lemma keeps_ret {A} P (a : A) : keeps P (ret a).
Proof. intros w x w' HP [= _ <-]. exact HP. Qed.

Lemma keeps_lift {A} P (o : option A) : keeps P (lift o).
Proof. intros w x w' HP H. apply lift_inv in H. now destruct H as [_ ->]. Qed.

Lemma keeps_bind {A B} P (c : M A) (k : A -> M B) :
  keeps P c -> (forall a, keeps P (k a)) -> keeps P (bind c k).
Proof.
  intros Hc Hk w b w' HP H. apply bind_inv in H.
  destruct H as (a & w1 & H1 & H2).
  exact (Hk a _ _ _ (Hc _ _ _ HP H1) H2).
Qed.

Lemma keeps_reads_only {A} P (c : M A) : reads_only c -> keeps P c.
Proof. intros Hc w a w' HP H. now rewrite (Hc _ _ _ H). Qed.

Lemma keeps_attr {A} P (f : Private -> A) : keeps P (attr f).
Proof. apply keeps_reads_only, ro_attr. Qed.

Lemma keeps_field {A} P (f : RoundsConfig -> A) : keeps P (field f).
Proof. apply keeps_reads_only, ro_field. Qed.

Lemma keeps_time_time P : keeps P time_time.
Proof. intros w x w' HP [= _ <-]. exact HP. Qed.

Lemma keeps_score_group P r cl cas g : keeps P (score_group r cl cas g).
Proof. apply keeps_reads_only, ro_score_group. Qed.

Lemma keeps_mapM {A B} P (f : A -> M B) (l : list A) :
  (forall x, keeps P (f x)) -> keeps P (mapM f l).
Proof.
  intros Hf. induction l as [|x l IH]; cbn [mapM]; [apply keeps_ret|].
  apply keeps_bind; [apply Hf|]. intros y.
  apply keeps_bind; [exact IH|]. intros ys. apply keeps_ret.
Qed.

#[local] Hint Resolve keeps_ret keeps_lift keeps_attr keeps_field
  keeps_time_time keeps_score_group : kp.

Ltac kp :=
  repeat lazymatch goal with
    | |- keeps _ (bind _ _) => apply keeps_bind; [|intros ?]
    | |- keeps _ (mapM _ _) => apply keeps_mapM; intros ?
    | |- keeps _ (match ?x with _ => _ end) => destruct x
    | |- keeps _ _ => solve [auto with kp]
    end.

(** Every method that touches the state does so through
    [get_current_lap]: what that call keeps, a status request keeps. *)
Lemma keeps_status P gs :
  keeps P get_current_lap -> keeps P (get_leaderboard_status gs).
Proof.
  intros Hlap.
  unfold get_leaderboard_status, get_current_correct_guess, get_current_round,
    get_number_of_rounds, get_current_number_of_laps, is_paused,
    time_before_next_lap, time_before_playing, get_current_play_delay,
    get_current_round_config, get_current_round, is_finished,
    get_current_round_answers, time.
  unfold get_current_round. kp.
Qed.

(** ** Well-formed states are kept *)

Lemma get_current_lap_no_round w :
  rounds (self w) !! current_round (priv w) = None -> get_current_lap w = None.
Proof.
  intros H. unfold get_current_lap.
  rewrite (bind_some _ _ _ _ _ (time_value w)).
  munfold. now rewrite H.
Qed.

Lemma well_formed_round w :
  well_formed w -> rounds (self w) <> [] ->
  exists rc, rounds (self w) !! current_round (priv w) = Some rc /\
             0 < lap_count rc /\ (0 < lap_duration rc)%Q.
Proof.
  intros (Hok & _ & Hcur & _) Hne.
  destruct (lookup_lt_is_Some_2 _ _ (Hcur Hne)) as (rc & Hrc).
  exists rc. split; [exact Hrc|]. exact (fields_ok_round _ _ _ Hok Hrc).
Qed.

Lemma well_formed_with_priv w p :
  well_formed w ->
  answers p = answers (priv w) ->
  play_delays p = play_delays (priv w) ->
  (rounds (self w) <> [] -> (current_round p < length (rounds (self w)))%nat) ->
  (finished p = true -> (current_round p + 1)%nat = length (rounds (self w))) ->
  (paused p = true -> (time_when_paused p <= wall w)%Q) ->
  well_formed (with_priv p w).
Proof.
  intros (Hok & Hv & _ & Ha & Hd & _) Hpa Hpd Hcur Hfin Hpt.
  unfold well_formed, with_priv. cbn [self priv wall].
  rewrite Hpa, Hpd. auto 10.
Qed.

Lemma paused_at_fields now p :
  answers (paused_at now p) = answers p /\
  play_delays (paused_at now p) = play_delays p /\
  current_round (paused_at now p) = current_round p /\
  finished (paused_at now p) = finished p /\
  round_start_time (paused_at now p) = round_start_time p /\
  paused (paused_at now p) = true /\
  time_when_paused (paused_at now p)
  = (if paused p then time_when_paused p else now).
Proof. unfold paused_at. destruct (paused p) eqn:E; cbn; auto 10. Qed.

Lemma paused_at_not_future now p :
  (paused p = true -> (time_when_paused p <= now)%Q) ->
  (time_when_paused (paused_at now p) <= now)%Q.
Proof.
  intros H. destruct (paused_at_fields now p) as (_ & _ & _ & _ & _ & _ & ->).
  destruct (paused p); [now apply H | lra].
Qed.

Lemma well_formed_restart w w' :
  well_formed w -> restart w = Some (tt, w') -> well_formed w'.
Proof.
  intros (Hok & Hv & _) H.
  destruct (restart_spec w) as (a & d & g' & Hrun & Hoka & Hokd & _).
  rewrite Hrun in H. injection H as <-.
  unfold well_formed. cbn [self priv wall restarted answers play_delays
                           current_round finished paused time_when_paused].
  repeat split; try assumption.
  - intros Hne. destruct (rounds (self w)); [congruence | cbn; lia].
  - discriminate.
  - intros _. lra.
Qed.

Lemma keeps_well_formed_lap : keeps well_formed get_current_lap.
Proof.
  intros w l w' Hwf H.
  destruct (rounds (self w) !! current_round (priv w)) as [rc|] eqn:Hrc;
    [|rewrite (get_current_lap_no_round w Hrc) in H; discriminate H].
  assert (Hne : rounds (self w) <> [])
    by (intros E; rewrite E in Hrc; discriminate Hrc).
  destruct (well_formed_round w Hwf Hne) as (rc' & Hrc' & HN & HD).
  rewrite Hrc in Hrc'. injection Hrc' as <-.
  assert (HD0 : ~ (lap_duration rc == 0)%Q) by lra.
  pose proof Hwf as (_ & _ & Hcur & _ & _ & Hfin & Hpt).
  destruct (Z_lt_le_dec (raw_lap w rc) (lap_count rc)) as [Hlt | Hge].
  { rewrite (get_current_lap_within w rc Hrc HD0 Hlt) in H.
    now injection H as _ <-. }
  destruct (decide ((current_round (priv w) + 1)%nat = length (rounds (self w))))
    as [Hlast | Hnl].
  - destruct (restart_when_finished (self w)) eqn:Hrwf.
    + rewrite (get_current_lap_restart w rc Hrc HD0 Hge Hlast Hrwf) in H.
      destruct (restart w) as [[[] w1]|] eqn:Hr; [|discriminate H].
      injection H as _ <-. exact (well_formed_restart w w1 Hwf Hr).
    + rewrite (get_current_lap_finish w rc Hrc HD0 Hge Hlast Hrwf) in H.
      injection H as _ <-.
      destruct (paused_at_fields (wall w) (set_finished true (priv w)))
        as (Ea & Ed & Ec & Ef & _).
      apply well_formed_with_priv;
        [exact Hwf | now rewrite Ea | now rewrite Ed | | |].
      * rewrite Ec. exact Hcur.
      * intros _. rewrite Ec. exact Hlast.
      * intros _. apply paused_at_not_future. exact Hpt.
  - rewrite (get_current_lap_next w rc Hrc HD0 Hge Hnl) in H.
    injection H as _ <-.
    assert (Hfalse : finished (priv w) = false).
    { destruct (finished (priv w)) eqn:E; [|reflexivity].
      now specialize (Hfin eq_refl). }
    cbv zeta.
    destruct (pause_between_rounds (self w)).
    + destruct (paused_at_fields (wall w)
                  (set_round_start_time (wall w)
                     (set_current_round (current_round (priv w) + 1)%nat (priv w))))
        as (Ea & Ed & Ec & Ef & _).
      apply well_formed_with_priv;
        [exact Hwf | now rewrite Ea | now rewrite Ed | | |].
      * rewrite Ec. cbn. intros _. specialize (Hcur Hne). lia.
      * rewrite Ef. cbn. congruence.
      * intros _. apply paused_at_not_future. exact Hpt.
    + apply well_formed_with_priv;
        [exact Hwf | reflexivity | reflexivity | | |].
      * cbn. intros _. specialize (Hcur Hne). lia.
      * cbn. congruence.
      * exact Hpt.
Qed.

Lemma well_formed_run_op o w w' :
  op_ok o -> well_formed w -> run_op o w = Some w' -> well_formed w'.
Proof.
  intros Hok Hwf. destruct o as [| | |gs|d|s]; cbn [run_op]; unfold after.
  - destruct (paused (priv w)) eqn:Hp.
    + rewrite (play_paused w Hp). intros [= <-].
      apply (well_formed_with_priv w); try reflexivity; try exact Hwf;
        cbn; try apply Hwf. discriminate.
    + rewrite (play_running w Hp). now intros [= <-].
  - rewrite pause_value. intros [= <-].
    destruct (paused_at_fields (wall w) (priv w)) as (Ea & Ed & Ec & Ef & _).
    apply well_formed_with_priv; [exact Hwf | exact Ea | exact Ed | | |];
      rewrite ?Ec, ?Ef; try apply Hwf.
    intros _. apply paused_at_not_future. apply Hwf.
  - destruct (get_current_lap w) as [[l u]|] eqn:E; [|discriminate].
    intros [= <-]. exact (keeps_well_formed_lap _ _ _ Hwf E).
  - destruct (get_leaderboard_status gs w) as [[st u]|] eqn:E; [|discriminate].
    intros [= <-].
    exact (keeps_status well_formed gs keeps_well_formed_lap _ _ _ Hwf E).
  - intros [= <-]. destruct Hwf as (H1 & H2 & H3 & H4 & H5 & H6 & H7).
    unfold well_formed, advance. cbn [self priv wall].
    repeat split; try assumption. intros Hp. specialize (H7 Hp).
    cbn in Hok. lra.
  - intros [= <-]. exact Hwf.
Qed.

Lemma well_formed_run ops : forall w w',
  Forall op_ok ops -> well_formed w -> run ops w = Some w' -> well_formed w'.
Proof.
  induction ops as [|o ops IH]; intros w w' Hok Hwf; cbn [run].
  - now intros [= <-].
  - apply Forall_cons in Hok. destruct Hok as [Ho Hops].
    destruct (run_op o w) as [u|] eqn:E; [|discriminate].
    apply IH; [exact Hops|]. exact (well_formed_run_op _ _ _ Ho Hwf E).
Qed.

Lemma reachable_is_well_formed w : reachable w -> well_formed w.
Proof.
  intros (c & g0 & g & tbl & now & w0 & ops & Hinit & Hboot & Hops & Hrun).
  apply (well_formed_run ops w0 w); [exact Hops| |exact Hrun].
  unfold RoundsConfig_init in Hinit.
  destruct (RoundsConfig_fields_ok c && validate_timing c) eqn:E; [|discriminate].
  apply andb_prop in E. destruct E as [Hok Hv].
  unfold boot in Hboot.
  destruct (restart_spec {| self := c; priv := blank; rng := g; table := tbl;
                            wall := now |})
    as (a & d & g' & Hr & Hoka & Hokd & _).
  rewrite Hr in Hboot. injection Hboot as <-.
  unfold well_formed. cbn [self priv wall restarted answers play_delays
                           current_round finished paused time_when_paused] in *.
  repeat split; try assumption.
  - intros Hne. destruct (rounds c); [congruence | cbn; lia].
  - discriminate.
  - intros _. lra.
Qed.

(** A run from a constructed configuration ends in a reachable state. *)
Lemma run_from_reachable c now ops w :
  Forall op_ok ops -> run_from c now ops = Some w -> reachable w.
Proof.
  intros Hops H. unfold run_from in H.
  destruct (RoundsConfig_init c (MT.mk [] 0)) as [g|] eqn:Hi; [|discriminate H].
  destruct (boot c g [] now) as [w0|] eqn:Hb; [|discriminate H].
  now exists c, (MT.mk [] 0), g, [], now, w0, ops.
Qed.



(** ** What a position query leaves behind *)

Lemma raw_lap_nonpos w rc :
  (0 < lap_duration rc)%Q -> (shown w <= 0)%Q -> raw_lap w rc <= 0.
Proof.
  intros HD H. unfold raw_lap.
  apply Z.le_trans with (Qfloor 0); [|reflexivity].
  apply Qfloor_resp_le. apply Qle_shift_div_r; [exact HD | lra].
Qed.

Lemma raw_lap_nonneg w rc :
  (0 < lap_duration rc)%Q -> (0 <= shown w)%Q -> 0 <= raw_lap w rc.
Proof.
  intros HD H. unfold raw_lap.
  apply Z.le_trans with (Qfloor 0); [reflexivity|].
  apply Qfloor_resp_le. apply Qle_shift_div_l; [exact HD | lra].
Qed.

Lemma raw_lap_zero w rc :
  (0 < lap_duration rc)%Q -> (shown w == 0)%Q -> raw_lap w rc = 0.
Proof.
  intros HD H. unfold raw_lap. rewrite (Qfloor_eq _ 0); [reflexivity|].
  rewrite H. field. lra.
Qed.

(** The state after a round advance shows no positive elapsed time. *)
Lemma next_state_shown w :
  (paused (priv w) = true -> (time_when_paused (priv w) <= wall w)%Q) ->
  let w1 :=
    with_priv
      (let p := set_round_start_time (wall w)
                  (set_current_round (current_round (priv w) + 1)%nat (priv w)) in
       if pause_between_rounds (self w) then paused_at (wall w) p else p) w in
  (shown w1 <= 0)%Q /\
  (paused (priv w) = false -> (shown w1 == 0)%Q) /\
  current_round (priv w1) = (current_round (priv w) + 1)%nat /\
  self w1 = self w /\
  answers (priv w1) = answers (priv w) /\
  play_delays (priv w1) = play_delays (priv w).
Proof.
  intros Hpt. cbv zeta. unfold shown, with_priv, paused_at.
  destruct (pause_between_rounds (self w)); mred;
    destruct (paused (priv w)) eqn:Hp; mred; rewrite ?Hp;
    (split; [try specialize (Hpt eq_refl); lra|]);
    (split; [intros; try discriminate; lra|]); auto.
Qed.

(** A position query on a well-formed state with a round: it returns,
    the state it leaves is well formed, the lap it returns is below the
    lap count of the round before and of the round after, and a second
    query right away changes nothing.  The second query returns the same
    lap unless the clock was paused with a boundary of a non-final round
    pending. *)
Lemma get_current_lap_outcome w rc :
  well_formed w ->
  rounds (self w) !! current_round (priv w) = Some rc ->
  exists l w1 rc1,
    get_current_lap w = Some (l, w1) /\
    well_formed w1 /\
    self w1 = self w /\
    rounds (self w1) !! current_round (priv w1) = Some rc1 /\
    l < lap_count rc /\
    l < lap_count rc1 /\
    ((0 <= shown w)%Q -> 0 <= l) /\
    exists l',
      get_current_lap w1 = Some (l', w1) /\
      ((paused (priv w) = true -> lap_count rc <= raw_lap w rc ->
        (current_round (priv w) + 1)%nat = length (rounds (self w))) ->
       l' = l) /\
      (finished (priv w1) = true \/
       (raw_lap w1 rc1 = l' /\ l' < lap_count rc1)).
Proof.
  intros Hwf Hrc.
  assert (Hne : rounds (self w) <> [])
    by (intros E; rewrite E in Hrc; discriminate Hrc).
  destruct (well_formed_round w Hwf Hne) as (rc' & Hrc' & HN & HD).
  rewrite Hrc in Hrc'. injection Hrc' as <-.
  assert (HD0 : ~ (lap_duration rc == 0)%Q) by lra.
  pose proof Hwf as (Hok & _ & Hcur & Hoka & Hokd & Hfin & Hpt).
  destruct (Z_lt_le_dec (raw_lap w rc) (lap_count rc)) as [Hlt | Hge].
  { pose proof (get_current_lap_within w rc Hrc HD0 Hlt) as Hlap.
    exists (raw_lap w rc), w, rc. split; [exact Hlap|].
    split; [exact Hwf|]. split; [reflexivity|]. split; [exact Hrc|].
    split; [exact Hlt|]. split; [exact Hlt|].
    split; [now apply raw_lap_nonneg|].
    exists (raw_lap w rc). auto. }
  destruct (decide ((current_round (priv w) + 1)%nat = length (rounds (self w))))
    as [Hlast | Hnl].
  - destruct (restart_when_finished (self w)) eqn:Hrwf.
    + destruct (restart_spec w) as (a & d & g' & Hrun & Ha & Hd & _).
      set (w1 := {| self := self w; priv := restarted (self w) a d (wall w);
                    rng := g'; table := []; wall := wall w |}) in *.
      assert (Hlap : get_current_lap w = Some (0, w1))
        by (rewrite (get_current_lap_restart w rc Hrc HD0 Hge Hlast Hrwf);
            now rewrite Hrun).
      destruct (lookup_lt_is_Some_2 (rounds (self w)) 0%nat) as (rc0 & Hrc0);
        [apply lookup_lt_Some in Hrc; lia|].
      destruct (restarted_stable w1 a d (wall w) g' [] rc0 eq_refl Hok Hrc0 Ha Hd)
        as (Hlap1 & _ & _ & _ & Hrc1).
      destruct (fields_ok_round _ _ _ Hok Hrc0) as [HN0 HD00].
      exists 0, w1, rc0. split; [exact Hlap|].
      split; [exact (well_formed_restart w w1 Hwf Hrun)|].
      split; [reflexivity|]. split; [exact Hrc1|]. split; [exact HN|].
      split; [exact HN0|].
      split; [intros _; lia|]. exists 0. split; [exact Hlap1|].
      split; [reflexivity|]. right. split; [|exact HN0].
      apply raw_lap_zero; [exact HD00 | apply shown_restarted].
    + set (w1 := with_priv (paused_at (wall w) (set_finished true (priv w))) w).
      assert (Hlap : get_current_lap w = Some (lap_count rc - 1, w1))
        by exact (get_current_lap_finish w rc Hrc HD0 Hge Hlast Hrwf).
      destruct (Forall2_lookup_l _ _ _ _ _ Hoka Hrc) as (arow & Harow & _).
      assert (Hfz : frozen (self w) rc arow w1).
      { subst w1. unfold frozen, with_priv, paused_at, raw_lap, shown in *.
        cbn [self priv wall]. mred.
        destruct (paused (priv w)) eqn:Hp; mred; rewrite ?Hp; auto 10. }
      assert (Hp1 : paused (priv w1) = true).
      { subst w1. unfold with_priv, paused_at. cbn [priv]. mred.
        destruct (paused (priv w)) eqn:Hp; mred; rewrite ?Hp; reflexivity. }
      exists (lap_count rc - 1), w1, rc. split; [exact Hlap|].
      split; [exact (keeps_well_formed_lap _ _ _ Hwf Hlap)|].
      split; [reflexivity|].
      split; [exact (proj1 (proj2 Hfz))|]. split; [lia|]. split; [lia|].
      split; [lia|].
      exists (lap_count rc - 1).
      split; [exact (frozen_lap_paused (self w) rc arow Hrwf HD w1 Hfz Hp1)|].
      split; [reflexivity|]. left.
      exact (proj1 (proj2 (proj2 (proj2 Hfz)))).
  - pose proof (get_current_lap_next w rc Hrc HD0 Hge Hnl) as Hlap.
    destruct (next_state_shown w Hpt) as (Hle & Hz & Hc1 & Hs1 & _).
    cbv zeta in *.
    set (w1 := with_priv _ w) in *.
    pose proof (keeps_well_formed_lap _ _ _ Hwf Hlap) as Hwf1.
    destruct (well_formed_round w1 Hwf1) as (rc1 & Hrc1 & HN1 & HD1);
      [now rewrite Hs1|].
    assert (HD10 : ~ (lap_duration rc1 == 0)%Q) by lra.
    pose proof (raw_lap_nonpos w1 rc1 HD1 Hle) as Hraw.
    exists 0, w1, rc1. split; [exact Hlap|]. split; [exact Hwf1|].
    split; [exact Hs1|]. split; [exact Hrc1|]. split; [exact HN|].
    split; [exact HN1|].
    split; [intros _; lia|].
    exists (raw_lap w1 rc1). split.
    + apply get_current_lap_within; [exact Hrc1 | exact HD10 | lia].
    + split.
      * intros G. apply raw_lap_zero; [exact HD1|]. apply Hz.
        destruct (paused (priv w)) eqn:Hp; [|reflexivity].
        now specialize (G eq_refl Hge).
      * right. split; [reflexivity | lia].
Qed.


Lemma sample_running_well_formed : well_formed sample_running.
Proof.
  apply reachable_is_well_formed.
  apply (run_from_reachable (sample_config false false) 100 [OpWait 4; OpPlay]).
  - repeat constructor; cbn; discriminate.
  - vm_compute. reflexivity.
Qed.

Lemma sample_boundary_well_formed : well_formed sample_boundary.
Proof. exact (reachable_is_well_formed _ sample_boundary_reachable). Qed.

Lemma sample_paused_late_well_formed : well_formed sample_paused_late.
Proof.
  apply reachable_is_well_formed.
  apply (run_from_reachable (sample_config false true) 100
           [OpWait 4; OpPlay; OpWait 31; OpPause; OpWait 5]).
  - repeat constructor; cbn; discriminate.
  - vm_compute. reflexivity.
Qed.

(** X2. The position query is idempotent.  In a well-formed state with a
    current round, unless the clock was paused while a boundary of a
    non-final round was pending, [get_current_lap()] returns a lap and a
    second call right after it returns the same lap and leaves the state
    as the first call left it, whether the first call advanced the
    round, finished, restarted or changed nothing. *)
Theorem get_current_lap_idempotent (w : World) (rc : RoundConfig) :
  well_formed w ->
  rounds (self w) !! current_round (priv w) = Some rc ->
  (paused (priv w) = true -> lap_count rc <= raw_lap w rc ->
   (current_round (priv w) + 1)%nat = length (rounds (self w))) ->
  exists l w1,
    get_current_lap w = Some (l, w1) /\
    get_current_lap w1 = Some (l, w1).
Proof.
  intros Hwf Hrc G.
  destruct (get_current_lap_outcome w rc Hwf Hrc)
    as (l & w1 & rc1 & Hlap & _ & _ & _ & _ & _ & _ & l' & Hlap' & Heq & _).
  exists l, w1. split; [exact Hlap|]. now rewrite <- (Heq G).
Qed.

Lemma get_current_lap_idempotent_witness :
  exists w1,
    get_current_lap sample_boundary = Some (0, w1) /\
    get_current_lap w1 = Some (0, w1) /\
    current_round (priv w1) = 1%nat.
Proof.
  destruct (get_current_lap_idempotent sample_boundary
              {| lap_count := 3; lap_duration := 10; only_check_for_presence := false |}
              sample_boundary_well_formed eq_refl)
    as (l & w1 & H1 & H2); [discriminate|].
  assert (E : get_current_lap sample_boundary
              = Some (0, force (after get_current_lap sample_boundary)))
    by (vm_compute; reflexivity).
  rewrite E in H1. injection H1 as <- <-.
  eexists. split; [exact E|]. split; [exact H2|]. vm_compute. reflexivity.
Defined.

(** X3. The lap index is always inside the round.  In a well-formed
    state with a current round and a non-negative elapsed time,
    [get_current_lap()] returns a lap [l] with [0 <= l < lap_count] of
    the round the machine is in after the call, and the answers and the
    play delays of that round have an entry at index [l]. *)
Theorem get_current_lap_in_range (w : World) (rc : RoundConfig) :
  well_formed w ->
  rounds (self w) !! current_round (priv w) = Some rc ->
  (0 <= shown w)%Q ->
  exists l w1 rc1 arow drow g x,
    get_current_lap w = Some (l, w1) /\
    rounds (self w1) !! current_round (priv w1) = Some rc1 /\
    0 <= l < lap_count rc1 /\
    answers (priv w1) !! current_round (priv w1) = Some arow /\
    play_delays (priv w1) !! current_round (priv w1) = Some drow /\
    py_index arow l = Some g /\
    py_index drow l = Some x.
Proof.
  intros Hwf Hrc Hsh.
  destruct (get_current_lap_outcome w rc Hwf Hrc)
    as (l & w1 & rc1 & Hlap & Hwf1 & _ & Hrc1 & _ & Hlt & Hge & _).
  specialize (Hge Hsh).
  destruct Hwf1 as (_ & _ & _ & Ha & Hd & _).
  destruct (Forall2_lookup_l _ _ _ _ _ Ha Hrc1) as (arow & Harow & Hla & _).
  destruct (Forall2_lookup_l _ _ _ _ _ Hd Hrc1) as (drow & Hdrow & Hld & _).
  destruct (lookup_lt_is_Some_2 arow (Z.to_nat l)) as (g & Hg); [lia|].
  destruct (lookup_lt_is_Some_2 drow (Z.to_nat l)) as (x & Hx); [lia|].
  exists l, w1, rc1, arow, drow, g, x.
  split; [exact Hlap|]. split; [exact Hrc1|]. split; [lia|].
  split; [exact Harow|]. split; [exact Hdrow|].
  rewrite !py_index_nat by exact Hge. now rewrite Hg, Hx.
Qed.

Lemma get_current_lap_in_range_witness :
  exists w1 g x,
    get_current_lap (advance 25 sample_running) = Some (2, w1) /\
    answers (priv w1) !! 0%nat = Some [Guess.helicopter; Guess.fire; Guess.birds] /\
    py_index [Guess.helicopter; Guess.fire; Guess.birds] 2 = Some g /\
    (exists drow, play_delays (priv w1) !! 0%nat = Some drow /\
                  py_index drow 2 = Some x).
Proof.
  assert (Hwf : well_formed (advance 25 sample_running)).
  { apply (well_formed_run_op (OpWait 25) sample_running);
      [cbn; discriminate | exact sample_running_well_formed | reflexivity]. }
  destruct (get_current_lap_in_range (advance 25 sample_running)
              {| lap_count := 3; lap_duration := 10; only_check_for_presence := false |}
              Hwf eq_refl)
    as (l & w1 & rc1 & arow & drow & g & x & Hlap & Hrc1 & Hl & Ha & Hd & Hg & Hx);
    [vm_compute; discriminate|].
  assert (E : get_current_lap (advance 25 sample_running)
              = Some (2, advance 25 sample_running))
    by (vm_compute; reflexivity).
  rewrite E in Hlap. injection Hlap as <- <-.
  assert (Ea : answers (priv (advance 25 sample_running)) !! 0%nat
               = Some [Guess.helicopter; Guess.fire; Guess.birds])
    by reflexivity.
  change (current_round (priv (advance 25 sample_running))) with 0%nat in Ha, Hd.
  rewrite Ea in Ha. injection Ha as <-.
  exists (advance 25 sample_running), g, x.
  split; [exact E|]. split; [exact Ea|]. split; [exact Hg|].
  exists drow. split; [exact Hd | exact Hx].
Defined.


Lemma raw_lap_neg w rc :
  (0 < lap_duration rc)%Q -> (shown w < 0)%Q -> raw_lap w rc < 0.
Proof.
  intros HD H. unfold raw_lap.
  assert (Hq : (shown w / lap_duration rc < 0)%Q)
    by (apply Qlt_shift_div_r; [exact HD | lra]).
  pose proof (Qfloor_le (shown w / lap_duration rc)) as Hle.
  apply Z.lt_nge. intros Hge. rewrite Zle_Qle in Hge.
  change (inject_Z 0) with 0%Q in Hge.
  generalize dependent (inject_Z (Qfloor (shown w / lap_duration rc))).
  intros F HF1 HF2. lra.
Qed.

(** X4. Pausing across a round boundary yields a negative lap.  In a
    well-formed state whose clock was paused, strictly before the
    current time, after the elapsed time of a non-final round had
    reached [lap_count * lap_duration], the next position query advances
    the round and returns lap 0, and every query after that returns a
    negative lap index: the new round starts at the wall-clock time of
    the query while the clock still shows the earlier pause instant. *)
Theorem paused_boundary_negative_lap (w : World) (rc : RoundConfig) :
  well_formed w ->
  rounds (self w) !! current_round (priv w) = Some rc ->
  paused (priv w) = true ->
  lap_count rc <= raw_lap w rc ->
  (current_round (priv w) + 1)%nat <> length (rounds (self w)) ->
  (time_when_paused (priv w) < wall w)%Q ->
  exists w1 l',
    get_current_lap w = Some (0, w1) /\
    current_round (priv w1) = (current_round (priv w) + 1)%nat /\
    paused (priv w1) = true /\
    get_current_lap w1 = Some (l', w1) /\
    l' < 0.
Proof.
  intros Hwf Hrc Hp Hge Hnl Hlate.
  destruct (well_formed_round w Hwf) as (rc' & Hrc' & HN & HD);
    [intros E; rewrite E in Hrc; discriminate Hrc|].
  rewrite Hrc in Hrc'. injection Hrc' as <-.
  assert (HD0 : ~ (lap_duration rc == 0)%Q) by lra.
  pose proof (get_current_lap_next w rc Hrc HD0 Hge Hnl) as Hlap.
  cbv zeta in Hlap.
  set (w1 := with_priv _ w) in *.
  pose proof (keeps_well_formed_lap _ _ _ Hwf Hlap) as Hwf1.
  assert (Hfacts : current_round (priv w1) = (current_round (priv w) + 1)%nat /\
                   paused (priv w1) = true /\
                   (shown w1 < 0)%Q /\ self w1 = self w).
  { subst w1. unfold shown, with_priv, paused_at.
    destruct (pause_between_rounds (self w)); mred; rewrite ?Hp; mred;
      rewrite ?Hp; repeat split; try reflexivity; lra. }
  destruct Hfacts as (Hc1 & Hp1 & Hneg & Hs1).
  destruct (well_formed_round w1 Hwf1) as (rc1 & Hrc1 & HN1 & HD1).
  { rewrite Hs1. intros E. rewrite E in Hrc. discriminate Hrc. }
  assert (HD10 : ~ (lap_duration rc1 == 0)%Q) by lra.
  pose proof (raw_lap_neg w1 rc1 HD1 Hneg) as Hraw.
  exists w1, (raw_lap w1 rc1). split; [exact Hlap|]. split; [exact Hc1|].
  split; [exact Hp1|]. split; [|exact Hraw].
  apply get_current_lap_within; [exact Hrc1 | exact HD10 | lia].
Qed.

Lemma paused_boundary_negative_lap_witness :
  run_from (sample_config false true) 100
    [OpWait 4; OpPlay; OpWait 31; OpPause; OpWait 5] = Some sample_paused_late /\
  exists w1,
    get_current_lap sample_paused_late = Some (0, w1) /\
    get_current_lap w1 = Some (-1, w1).
Proof.
  split; [vm_compute; reflexivity|].
  destruct (paused_boundary_negative_lap sample_paused_late
              {| lap_count := 3; lap_duration := 10; only_check_for_presence := false |}
              sample_paused_late_well_formed eq_refl eq_refl)
    as (w1 & l' & H1 & _ & _ & H2 & _);
    [vm_compute; discriminate | cbn; lia | vm_compute; reflexivity |].
  assert (E : get_current_lap sample_paused_late
              = Some (0, force (after get_current_lap sample_paused_late)))
    by (vm_compute; reflexivity).
  rewrite E in H1. injection H1 as <-.
  assert (E2 : get_current_lap (force (after get_current_lap sample_paused_late))
               = Some (-1, force (after get_current_lap sample_paused_late)))
    by (vm_compute; reflexivity).
  eexists. split; [exact E | exact E2].
Defined.


(** ** What a status request reports *)

Lemma possible_value_in_CATEGORIES g :
  g ∈ Guess.possible_values -> Guess_value g ∈ CATEGORIES.
Proof.
  rewrite possible_values_eq. unfold CATEGORIES. intros H.
  repeat (apply elem_of_cons in H; destruct H as [-> | H];
          [cbn; repeat first [apply list_elem_of_here | apply list_elem_of_further]|]).
  now apply elem_of_nil in H.
Qed.

(** A status request on a well-formed state with a current round, a
    non-negative elapsed time and no pause across a pending boundary. *)
Lemma status_outcome w rc gs :
  well_formed w ->
  rounds (self w) !! current_round (priv w) = Some rc ->
  (0 <= shown w)%Q ->
  (paused (priv w) = true -> lap_count rc <= raw_lap w rc ->
   (current_round (priv w) + 1)%nat = length (rounds (self w))) ->
  exists l w1 rc1 arow g tn tp cas rows,
    get_current_lap w = Some (l, w1) /\
    get_current_lap w1 = Some (l, w1) /\
    well_formed w1 /\
    self w1 = self w /\
    rounds (self w1) !! current_round (priv w1) = Some rc1 /\
    0 <= l < lap_count rc1 /\
    answers (priv w) !! current_round (priv w) = Some arow /\
    py_index arow l = Some g /\
    g ∈ Guess.possible_values /\
    answers (priv w1) !! current_round (priv w1) = Some cas /\
    length cas = Z.to_nat (lap_count rc1) /\
    Forall2 (fun g row =>
               score_group (current_round (priv w1)) l cas g w1 = Some (row, w1))
            gs rows /\
    get_leaderboard_status gs w
    = Some ({| st_current_correct_guess := g;
               st_current_round := current_round (priv w1);
               st_current_lap := l;
               st_number_of_rounds := length (rounds (self w1));
               st_number_of_laps := lap_count rc1;
               st_paused := paused (priv w1);
               st_time_before_next_lap := tn;
               st_time_before_playing := tp;
               st_finished := finished (priv w1);
               leaderboard := rows |}, w1).
Proof.
  intros Hwf Hrc Hsh G.
  destruct (get_current_lap_outcome w rc Hwf Hrc)
    as (l & w1 & rc1 & Hlap & Hwf1 & Hs1 & Hrc1 & Hlt & Hlt1 & Hge & l' & Hlap'
        & Heq & Hst).
  specialize (Hge Hsh). specialize (Heq G). subst l'.
  pose proof Hwf as (_ & _ & _ & Ha & _).
  destruct (Forall2_lookup_l _ _ _ _ _ Ha Hrc) as (arow & Harow & Hla & Hma).
  destruct (lookup_lt_is_Some_2 arow (Z.to_nat l)) as (g & Hg); [lia|].
  assert (Hpy : py_index arow l = Some g)
    by (rewrite py_index_nat by exact Hge; exact Hg).
  assert (Hguess : get_current_correct_guess w = Some (g, w1)).
  { unfold get_current_correct_guess.
    unfold bind at 1, attr at 1, bind at 1, get_current_round at 1, attr at 1.
    rewrite Harow. unfold lift at 1, bind at 1, ret at 1.
    rewrite (bind_some _ _ _ _ _ Hlap). now rewrite Hpy. }
  pose proof Hwf1 as (Hok1 & _ & _ & Ha1 & Hd1 & _).
  destruct (fields_ok_round _ _ _ Hok1 Hrc1) as [HN1 HD1].
  assert (HD10 : ~ (lap_duration rc1 == 0)%Q) by lra.
  destruct (Forall2_lookup_l _ _ _ _ _ Ha1 Hrc1) as (cas & Hcas & Hlc & _).
  destruct (Forall2_lookup_l _ _ _ _ _ Hd1 Hrc1) as (drow & Hdrow & Hld & _).
  destruct (time_before_next_lap_total w1 rc1 Hrc1 HD10) as (tn & Htn).
  assert (Htp : exists tp, time_before_playing w1 = Some (tp, w1)).
  { destruct Hst as [Hf | [Hraw Hl1]].
    - exists (-1)%Q. unfold time_before_playing, bind, attr. now rewrite Hf.
    - apply (time_before_playing_within w1 rc1 Hrc1 HD10) with (drow := drow);
        [lia | lia | exact Hdrow | exact Hld]. }
  destruct Htp as (tp & Htp).
  destruct (status_run gs w w1 rc1 g l tn tp cas Hguess Hlap' Hrc1 Htn Htp Hcas)
    as (rows & Hrows & Hstatus).
  exists l, w1, rc1, arow, g, tn, tp, cas, rows.
  split; [exact Hlap|]. split; [exact Hlap'|]. split; [exact Hwf1|].
  split; [exact Hs1|]. split; [exact Hrc1|]. split; [lia|].
  split; [exact Harow|]. split; [exact Hpy|].
  split; [apply Hma; apply list_elem_of_lookup; eauto|].
  split; [exact Hcas|]. split; [exact Hlc|]. split; [exact Hrows | exact Hstatus].
Qed.

(** X5. A status request returns a consistent snapshot.  In a
    well-formed state with a current round and a non-negative elapsed
    time (and no pause across a pending boundary of a non-final round),
    [get_leaderboard_status()] returns; it ends in the state the
    position query ends in; the round it reports is inside the round
    list, the lap it reports is inside that round, the number of laps is
    that round's lap count, the reported correct guess is a guessable
    category, one of [CATEGORIES] of the playback client, and there is
    one row per group. *)
Theorem status_consistent (w : World) (rc : RoundConfig) (gs : list GroupConfig) :
  well_formed w ->
  rounds (self w) !! current_round (priv w) = Some rc ->
  (0 <= shown w)%Q ->
  (paused (priv w) = true -> lap_count rc <= raw_lap w rc ->
   (current_round (priv w) + 1)%nat = length (rounds (self w))) ->
  exists st w1 rc1,
    get_leaderboard_status gs w = Some (st, w1) /\
    get_current_lap w = Some (st_current_lap st, w1) /\
    well_formed w1 /\
    st_current_round st = current_round (priv w1) /\
    st_number_of_rounds st = length (rounds (self w)) /\
    (st_current_round st < st_number_of_rounds st)%nat /\
    rounds (self w) !! st_current_round st = Some rc1 /\
    st_number_of_laps st = lap_count rc1 /\
    0 <= st_current_lap st < st_number_of_laps st /\
    st_paused st = paused (priv w1) /\
    st_finished st = finished (priv w1) /\
    st_current_correct_guess st ∈ Guess.possible_values /\
    Guess_value (st_current_correct_guess st) ∈ CATEGORIES /\
    length (leaderboard st) = length gs.
Proof.
  intros Hwf Hrc Hsh G.
  destruct (status_outcome w rc gs Hwf Hrc Hsh G)
    as (l & w1 & rc1 & arow & g & tn & tp & cas & rows & Hlap & _ & Hwf1 & Hs1
        & Hrc1 & Hl & _ & _ & Hg & _ & _ & Hrows & Hst).
  eexists. exists w1, rc1. split; [exact Hst|].
  cbn [st_current_lap st_current_round st_number_of_rounds st_number_of_laps
       st_paused st_finished st_current_correct_guess leaderboard].
  rewrite Hs1 in *.
  split; [exact Hlap|]. split; [exact Hwf1|]. split; [reflexivity|].
  split; [reflexivity|]. split; [now apply lookup_lt_Some in Hrc1|].
  split; [exact Hrc1|]. split; [reflexivity|]. split; [exact Hl|].
  split; [reflexivity|]. split; [reflexivity|]. split; [exact Hg|].
  split; [now apply possible_value_in_CATEGORIES|].
  symmetry. exact (Forall2_length _ _ _ Hrows).
Qed.

Lemma status_consistent_witness :
  exists st w1,
    get_leaderboard_status [sample_group] sample_boundary = Some (st, w1) /\
    st_current_round st = 1%nat /\
    st_number_of_rounds st = 2%nat /\
    st_current_lap st = 0 /\
    st_number_of_laps st = 3 /\
    length (leaderboard st) = 1%nat.
Proof.
  destruct (status_consistent sample_boundary
              {| lap_count := 3; lap_duration := 10; only_check_for_presence := false |}
              [sample_group] sample_boundary_well_formed eq_refl)
    as (st & w1 & rc1 & Hst & Hlap & _ & Hcur & Hnr & _ & Hrc1 & Hnl & _ & _ & _
        & _ & _ & Hlen);
    [vm_compute; discriminate | discriminate |].
  assert (E : get_current_lap sample_boundary
              = Some (0, force (after get_current_lap sample_boundary)))
    by (vm_compute; reflexivity).
  rewrite E in Hlap. injection Hlap as Hl <-.
  exists st. eexists. split; [exact Hst|].
  assert (Hc : st_current_round st = 1%nat) by (rewrite Hcur; reflexivity).
  rewrite Hc in Hrc1. cbn in Hrc1. injection Hrc1 as <-.
  repeat split; auto.
Defined.


Lemma get_current_correct_guess_value w l w1 arow g :
  answers (priv w) !! current_round (priv w) = Some arow ->
  get_current_lap w = Some (l, w1) ->
  py_index arow l = Some g ->
  get_current_correct_guess w = Some (g, w1).
Proof.
  intros Ha Hlap Hg. unfold get_current_correct_guess.
  unfold bind at 1, attr at 1, bind at 1, get_current_round at 1, attr at 1.
  rewrite Ha. unfold lift at 1, bind at 1, ret at 1.
  rewrite (bind_some _ _ _ _ _ Hlap). now rewrite Hg.
Qed.

(** X6. The correct guess of a status request that crosses a round
    boundary belongs to the round that ended.  When a running game has
    run past the last lap of a round that is not the last one,
    [get_leaderboard_status()] reports the next round, lap 0, and as
    correct guess the first answer of the round that ended:
    [get_current_correct_guess()] fetches the answer row of the current
    round before its call of [get_current_lap()] advances the round.  The
    schedule is unchanged, and asked again in the state the request ends
    in, [get_current_correct_guess()] returns the first answer of the
    round now reported. *)
Theorem status_guess_of_ended_round (w : World) (rc : RoundConfig)
    (gs : list GroupConfig) :
  well_formed w ->
  rounds (self w) !! current_round (priv w) = Some rc ->
  paused (priv w) = false ->
  lap_count rc <= raw_lap w rc ->
  (current_round (priv w) + 1)%nat <> length (rounds (self w)) ->
  exists st w1 arow g arow' g',
    get_leaderboard_status gs w = Some (st, w1) /\
    st_current_round st = (current_round (priv w) + 1)%nat /\
    st_current_lap st = 0 /\
    answers (priv w1) = answers (priv w) /\
    answers (priv w) !! current_round (priv w) = Some arow /\
    arow !! 0%nat = Some g /\
    st_current_correct_guess st = g /\
    answers (priv w) !! st_current_round st = Some arow' /\
    arow' !! 0%nat = Some g' /\
    get_current_correct_guess w1 = Some (g', w1).
Proof.
  intros Hwf Hrc Hp Hge Hlast.
  pose proof Hwf as (Hok & _).
  destruct (fields_ok_round _ _ _ Hok Hrc) as [HN HD].
  assert (HD0 : ~ (lap_duration rc == 0)%Q) by lra.
  assert (Hsh : (0 <= shown w)%Q).
  { apply Qnot_lt_le. intros Hneg.
    pose proof (raw_lap_neg w rc HD Hneg). lia. }
  destruct (status_outcome w rc gs Hwf Hrc Hsh)
    as (l & w1 & rc1 & arow & g & tn & tp & cas & rows & Hlap & Hlap' & Hwf1
        & Hs1 & Hrc1 & Hl & Harow & Hpy & _ & Hcas & Hlc & _ & Hst);
    [congruence|].
  rewrite (get_current_lap_next w rc Hrc HD0 Hge Hlast) in Hlap.
  injection Hlap as <- Hw1.
  destruct (next_state_shown w) as (_ & _ & Hcur & _ & Hans & _); [congruence|].
  cbv zeta in Hcur, Hans. rewrite Hw1 in Hcur, Hans.
  destruct (lookup_lt_is_Some_2 cas 0%nat) as (g' & Hg'); [lia|].
  eexists. exists w1, arow, g, cas, g'.
  split; [exact Hst|].
  cbn [st_current_lap st_current_round st_current_correct_guess].
  split; [exact Hcur|]. split; [reflexivity|]. split; [exact Hans|].
  split; [exact Harow|]. split; [exact Hpy|]. split; [reflexivity|].
  split; [now rewrite <- Hans|]. split; [exact Hg'|].
  apply get_current_correct_guess_value with (l := 0) (arow := cas);
    [exact Hcas | exact Hlap' | exact Hg'].
Qed.

Lemma status_guess_of_ended_round_witness :
  exists st w1,
    get_leaderboard_status [sample_group] sample_boundary = Some (st, w1) /\
    st_current_round st = 1%nat /\
    st_current_lap st = 0 /\
    answers (priv sample_boundary) !! 0%nat
    = Some [st_current_correct_guess st; Guess.fire; Guess.birds].
Proof.
  destruct (status_guess_of_ended_round sample_boundary
              {| lap_count := 3; lap_duration := 10; only_check_for_presence := false |}
              [sample_group] sample_boundary_well_formed eq_refl eq_refl)
    as (st & w1 & arow & g & arow' & g' & Hst & Hcur & Hl & _ & Harow & Hg
        & Hguess & _);
    [vm_compute; discriminate | cbn; lia |].
  exists st, w1. split; [exact Hst|]. split; [exact Hcur|]. split; [exact Hl|].
  vm_compute in Harow. injection Harow as <-.
  vm_compute in Hg. injection Hg as <-.
  rewrite Hguess. reflexivity.
Defined.


(** ** The shape of the leaderboard *)

Lemma get_current_lap_zero_duration w rc :
  rounds (self w) !! current_round (priv w) = Some rc ->
  (lap_duration rc == 0)%Q ->
  get_current_lap w = None.
Proof.
  intros Hrc HD. unfold get_current_lap.
  rewrite (bind_some _ _ _ _ _ (time_value w)).
  munfold. rewrite Hrc. mred. unfold py_floordiv.
  apply Qeq_bool_iff in HD. now rewrite HD.
Qed.

(** The position query never leaves the round list. *)
Lemma keeps_round_lap :
  keeps (fun w => is_Some (rounds (self w) !! current_round (priv w)))
        get_current_lap.
Proof.
  intros w l w' [rc Hrc] H.
  destruct (Qeq_dec (lap_duration rc) 0) as [HD | HD0];
    [rewrite (get_current_lap_zero_duration w rc Hrc HD) in H; discriminate H|].
  destruct (Z_lt_le_dec (raw_lap w rc) (lap_count rc)) as [Hlt | Hge].
  { rewrite (get_current_lap_within w rc Hrc HD0 Hlt) in H.
    injection H as _ <-. now exists rc. }
  destruct (decide ((current_round (priv w) + 1)%nat = length (rounds (self w))))
    as [Hlast | Hnl].
  - destruct (restart_when_finished (self w)) eqn:Hrwf.
    + rewrite (get_current_lap_restart w rc Hrc HD0 Hge Hlast Hrwf) in H.
      destruct (restart_spec w) as (a & d & g' & Hr & _). rewrite Hr in H.
      injection H as _ <-. cbn.
      destruct (rounds (self w)) as [|rc0 rs]; [discriminate Hrc|]. now exists rc0.
    + rewrite (get_current_lap_finish w rc Hrc HD0 Hge Hlast Hrwf) in H.
      injection H as _ <-.
      destruct (paused_at_fields (wall w) (set_finished true (priv w)))
        as (_ & _ & Ec & _).
      cbn [self priv with_priv]. rewrite Ec. now exists rc.
  - rewrite (get_current_lap_next w rc Hrc HD0 Hge Hnl) in H.
    injection H as _ <-. cbv zeta.
    apply lookup_lt_Some in Hrc.
    apply lookup_lt_is_Some_2. cbn [self priv with_priv].
    destruct (pause_between_rounds (self w)).
    + destruct (paused_at_fields (wall w)
                  (set_round_start_time (wall w)
                     (set_current_round (current_round (priv w) + 1)%nat (priv w))))
        as (_ & _ & Ec & _).
      rewrite Ec. cbn. lia.
    + cbn. lia.
Qed.

(** A status request that returns ends in a round of the list. *)
Lemma status_round_exists gs w st w' :
  get_leaderboard_status gs w = Some (st, w') ->
  is_Some (rounds (self w') !! current_round (priv w')).
Proof.
  intros H.
  apply (keeps_status _ gs keeps_round_lap w st w'); [|exact H].
  destruct (rounds (self w) !! current_round (priv w)) as [rc|] eqn:Hrc;
    [now exists rc|].
  exfalso. unfold get_leaderboard_status in H.
  apply bind_inv in H. destruct H as (g & w1 & Hg & _).
  unfold get_current_correct_guess in Hg.
  repeat (apply bind_inv in Hg; destruct Hg as (? & ? & ? & Hg)).
  repeat match goal with
  | Ha : attr _ _ = Some _ |- _ => unfold attr in Ha; injection Ha as <- <-
  | Ha : get_current_round _ = Some _ |- _ =>
      unfold get_current_round, attr in Ha; injection Ha as <- <-
  | Ha : lift _ _ = Some _ |- _ => apply lift_inv in Ha; destruct Ha as (? & ->)
  end.
  match goal with
  | Hl : get_current_lap w = Some _ |- _ =>
      rewrite (get_current_lap_no_round w Hrc) in Hl; discriminate Hl
  end.
Qed.

Section Slots.

Variables (w : World) (g : GroupConfig) (r : nat) (rc : RoundConfig).
Hypothesis Hrc : rounds (self w) !! current_round (priv w) = Some rc.

(** One entry of a row: its hide flag and what its lap adds to the score. *)
Lemma slot_entry cl it a :
  lap_entry w g r cl it = Some a ->
  hide a = (cl <? Z.of_nat (fst it)) /\
  (lap_points w g r it
   == (if correct a then 1 else 0)
      - (if Submission.is_disqualified (table w) (key g) (Z.of_nat r)
              (Z.of_nat (fst it))
         then 1 # 2 else 0))%Q.
Proof.
  destruct it as [lap ca]. unfold lap_points, lap_entry. cbn [fst].
  destruct (Submission.is_disqualified (table w) (key g) (Z.of_nat r) (Z.of_nat lap))
    eqn:Hd.
  - rewrite !(score_lap_disqualified w g r _ [] 0%Q lap ca Hd).
    cbn [app last]. intros [= <-]. cbn [hide correct]. split; [reflexivity | lra].
  - destruct (get_submissions_last_total (table w) (key g) (Z.of_nat r) (Z.of_nat lap))
      as (g0 & Hg0).
    rewrite !(score_lap_regular w g r _ [] 0%Q lap ca rc g0 Hrc Hd Hg0).
    destruct (only_check_for_presence rc);
      [destruct (Guess.eqb g0 Guess.nothing) | destruct (Guess.eqb g0 ca)];
      cbn [app last]; intros [= <-]; cbn [hide correct];
      (split; [reflexivity | lra]).
Qed.

Lemma slots_sum cl its entries :
  Forall2 (fun it a => lap_entry w g r cl it = Some a) its entries ->
  (Qsum (map (lap_points w g r) its)
   == inject_Z (Z.of_nat (correct_count entries))
      - (1 # 2) * inject_Z (Z.of_nat (disqualified_laps (table w) (key g) r
                                        (map fst its))))%Q.
Proof.
  unfold correct_count, disqualified_laps.
  induction 1 as [|it a its entries Hit _ IH].
  - unfold Qsum. cbn [map foldr]. rewrite !filter_nil. reflexivity.
  - destruct (slot_entry cl it a Hit) as (_ & Hp).
    unfold Qsum in *. cbn [map foldr]. rewrite IH, Hp. clear IH Hp.
    rewrite !filter_cons.
    destruct (decide (correct a = true)) as [Hc | Hc];
      [rewrite Hc | apply not_true_is_false in Hc; rewrite Hc];
      (destruct (decide (Submission.is_disqualified (table w) (key g) (Z.of_nat r)
                           (Z.of_nat (fst it)) = true)) as [Hd | Hd];
       [rewrite Hd | apply not_true_is_false in Hd; rewrite Hd]);
      cbn [length]; rewrite ?Nat2Z.inj_succ, ?inject_Z_plus; unfold Z.succ;
      rewrite ?inject_Z_plus; change (inject_Z 1) with 1%Q; lra.
Qed.

End Slots.

Lemma py_enumerate_fst {A} (l : list A) : map fst (py_enumerate l) = seq 0 (length l).
Proof. unfold py_enumerate. apply fst_zip. now rewrite length_seq. Qed.

Lemma disqualified_laps_le tbl k r laps :
  (disqualified_laps tbl k r laps <= length laps)%nat.
Proof. unfold disqualified_laps. apply length_filter. Qed.

Lemma correct_count_le entries : (correct_count entries <= length entries)%nat.
Proof. unfold correct_count. apply length_filter. Qed.

(** X7. The shape of every leaderboard.  Whenever
    [get_leaderboard_status()] returns, the leaderboard has one row per
    group, in the order of the roster and under the group's name; every
    row has one entry per lap of the current round, the entry of lap [i]
    is hidden exactly when [i] is beyond the reported lap, and the score
    is the number of entries marked correct minus one half per lap in
    which a stored row of the group for the reported round is flagged
    disqualified; so the score lies between minus half the number of
    laps and the number of laps. *)
Theorem leaderboard_shape (gs : list GroupConfig) (w : World)
    (st : LeaderboardStatus) (w' : World) :
  get_leaderboard_status gs w = Some (st, w') ->
  exists cas,
    answers (priv w') !! current_round (priv w') = Some cas /\
    map row_name (leaderboard st) = map name gs /\
    Forall2 (fun g row =>
      row_name row = name g /\
      length (row_answers row) = length cas /\
      (forall i a, row_answers row !! i = Some a ->
                   hide a = (st_current_lap st <? Z.of_nat i)) /\
      (score row
       == inject_Z (Z.of_nat (correct_count (row_answers row)))
          - (1 # 2) * inject_Z (Z.of_nat
              (disqualified_laps (table w') (key g) (st_current_round st)
                 (seq 0 (length cas)))))%Q /\
      (- (1 # 2) * inject_Z (Z.of_nat (length cas)) <= score row
       <= inject_Z (Z.of_nat (length cas)))%Q)
      gs (leaderboard st).
Proof.
  intros H.
  destruct (status_round_exists gs w st w' H) as [rc Hrc].
  destruct (status_rows gs w st w' H) as (cas & Hcas & Hrows).
  exists cas. split; [exact Hcas|].
  assert (Hall : Forall2 (fun g row =>
      row_name row = name g /\
      length (row_answers row) = length cas /\
      (forall i a, row_answers row !! i = Some a ->
                   hide a = (st_current_lap st <? Z.of_nat i)) /\
      (score row
       == inject_Z (Z.of_nat (correct_count (row_answers row)))
          - (1 # 2) * inject_Z (Z.of_nat
              (disqualified_laps (table w') (key g) (st_current_round st)
                 (seq 0 (length cas)))))%Q /\
      (- (1 # 2) * inject_Z (Z.of_nat (length cas)) <= score row
       <= inject_Z (Z.of_nat (length cas)))%Q)
      gs (leaderboard st)).
  { eapply Forall2_impl; [exact Hrows|]. intros g row Hrow. cbv beta in Hrow.
    destruct (score_group_row w' g (st_current_round st) rc (st_current_lap st) cas Hrc)
      as (row' & Hrow' & Hname & Hscore & Hent).
    rewrite Hrow in Hrow'. injection Hrow' as <-.
    pose proof (Forall2_length _ _ _ Hent) as Hlen.
    rewrite length_py_enumerate in Hlen.
    pose proof (slots_sum w' g (st_current_round st) rc Hrc _ _ _ Hent) as Hsum.
    rewrite py_enumerate_fst in Hsum. rewrite Hsum in Hscore. clear Hsum.
    split; [exact Hname|]. split; [now symmetry|]. split.
    - intros i a Ha.
      destruct (Forall2_lookup_r _ _ _ _ _ Hent Ha) as (it & Hit & Hla).
      destruct (slot_entry w' g (st_current_round st) rc Hrc _ _ _ Hla) as (Hh & _).
      rewrite Hh. f_equal. f_equal.
      destruct (lookup_lt_is_Some_2 cas i) as (x & Hx);
        [rewrite Hlen; now apply lookup_lt_Some in Ha|].
      rewrite (py_enumerate_lookup cas i x Hx) in Hit. now injection Hit as <-.
    - split; [exact Hscore|].
      pose proof (correct_count_le (row_answers row)) as Hc.
      pose proof (disqualified_laps_le (table w') (key g) (st_current_round st)
                    (seq 0 (length cas))) as Hd.
      rewrite length_seq in Hd. rewrite <- Hlen in Hc.
      apply Nat2Z.inj_le in Hc, Hd. rewrite Zle_Qle in Hc, Hd.
      assert (H0c : (0 <= inject_Z (Z.of_nat (correct_count (row_answers row))))%Q)
        by (rewrite <- (Zle_Qle 0); lia).
      assert (H0d : (0 <= inject_Z (Z.of_nat
                       (disqualified_laps (table w') (key g) (st_current_round st)
                          (seq 0 (length cas)))))%Q)
        by (rewrite <- (Zle_Qle 0); lia).
      rewrite Hscore.
      generalize dependent (inject_Z (Z.of_nat (correct_count (row_answers row)))).
      generalize dependent (inject_Z (Z.of_nat
                       (disqualified_laps (table w') (key g) (st_current_round st)
                          (seq 0 (length cas))))).
      generalize dependent (inject_Z (Z.of_nat (length cas))).
      intros. lra. }
  split; [|exact Hall].
  clear -Hall. induction Hall as [|g row gs rows (Hn & _) _ IH]; [reflexivity|].
  cbn [map]. now rewrite Hn, IH.
Qed.

Lemma leaderboard_shape_witness :
  exists st w',
    get_leaderboard_status [sample_group] sample_scored = Some (st, w') /\
    map row_name (leaderboard st) = ["team one"] /\
    map (fun row => length (row_answers row)) (leaderboard st) = [3%nat] /\
    Forall (fun row => (- (3 # 2) <= score row <= 3)%Q) (leaderboard st).
Proof.
  destruct (get_leaderboard_status [sample_group] sample_scored)
    as [[st w']|] eqn:E; [|vm_compute in E; discriminate E].
  destruct (leaderboard_shape [sample_group] sample_scored st w' E)
    as (cas & Hcas & Hnames & Hrows).
  assert (Ew : w' = sample_scored)
    by (vm_compute in E; now injection E as _ <-).
  subst w'. vm_compute in Hcas. injection Hcas as <-.
  apply Forall2_cons_inv_l in Hrows.
  destruct Hrows as (row & rows & (_ & Hl & _ & _ & Hb) & Hnil & Eq).
  apply Forall2_nil_inv_l in Hnil. subst rows.
  exists st, sample_scored. split; [reflexivity|]. split; [exact Hnames|].
  rewrite Eq. cbn [map]. rewrite Hl. split; [reflexivity|].
  constructor; [|constructor]. cbn [length] in Hb.
  change (inject_Z (Z.of_nat 3)) with 3%Q in Hb. lra.
Defined.


(** ** A group that has not submitted *)

(** What a returning position query does to the state. *)
Lemma get_current_lap_cases w l w' :
  get_current_lap w = Some (l, w') ->
  w' = w \/ (exists p, w' = with_priv p w) \/ restart w = Some (tt, w').
Proof.
  intros H.
  destruct (rounds (self w) !! current_round (priv w)) as [rc|] eqn:Hrc;
    [|rewrite (get_current_lap_no_round w Hrc) in H; discriminate H].
  destruct (Qeq_dec (lap_duration rc) 0) as [HD | HD0];
    [rewrite (get_current_lap_zero_duration w rc Hrc HD) in H; discriminate H|].
  destruct (Z_lt_le_dec (raw_lap w rc) (lap_count rc)) as [Hlt | Hge].
  { rewrite (get_current_lap_within w rc Hrc HD0 Hlt) in H.
    injection H as _ <-. now left. }
  destruct (decide ((current_round (priv w) + 1)%nat = length (rounds (self w))))
    as [Hlast | Hnl].
  - destruct (restart_when_finished (self w)) eqn:Hrwf.
    + rewrite (get_current_lap_restart w rc Hrc HD0 Hge Hlast Hrwf) in H.
      destruct (restart w) as [[[] w1]|] eqn:Hr; [|discriminate H].
      injection H as _ <-. now right; right.
    + rewrite (get_current_lap_finish w rc Hrc HD0 Hge Hlast Hrwf) in H.
      injection H as _ <-. right; left. now eexists.
  - rewrite (get_current_lap_next w rc Hrc HD0 Hge Hnl) in H.
    injection H as _ <-. right; left. now eexists.
Qed.

(** The position query stores no row: it keeps the table or empties it. *)
Lemma keeps_table_lap (Q : Submission.t -> Prop) :
  keeps (fun w => forall s, s ∈ table w -> Q s) get_current_lap.
Proof.
  intros w l w' HQ H.
  destruct (get_current_lap_cases w l w' H) as [-> | [(p & ->) | Hr]];
    [exact HQ | exact HQ |].
  destruct (restart_spec w) as (a & d & g' & Hr' & _). rewrite Hr' in Hr.
  injection Hr as <-. cbn [table]. intros s Hs. now apply elem_of_nil in Hs.
Qed.

Lemma filter_by_no_key tbl k r l :
  (forall s, s ∈ tbl -> Submission.key s <> k) ->
  Submission.filter_by k r l tbl = [].
Proof.
  intros H. unfold Submission.filter_by.
  induction tbl as [|s tbl IH]; [reflexivity|].
  rewrite filter_cons. destruct (decide _) as [(Hk & _) | _].
  - exfalso. apply (H s); [apply list_elem_of_here | exact Hk].
  - apply IH. intros s' Hs'. apply H. now apply list_elem_of_further.
Qed.

Lemma nothing_not_possible : Guess.nothing ∉ Guess.possible_values.
Proof.
  rewrite possible_values_eq. intros H.
  repeat (apply elem_of_cons in H; destruct H as [H | H]; [discriminate H|]).
  now apply elem_of_nil in H.
Qed.

(** One slot of a group without stored rows. *)
Lemma silent_slot w g r rc cl lap ca :
  rounds (self w) !! current_round (priv w) = Some rc ->
  (forall s, s ∈ table w -> Submission.key s <> key g) ->
  ca <> Guess.nothing ->
  lap_entry w g r cl (lap, ca)
  = Some {| guess := Guess.nothing; correct := false;
            hide := cl <? Z.of_nat lap |} /\
  lap_points w g r (lap, ca) = 0%Q.
Proof.
  intros Hrc Hno Hca.
  assert (Hf := filter_by_no_key (table w) (key g) (Z.of_nat r) (Z.of_nat lap) Hno).
  assert (Hd : Submission.is_disqualified (table w) (key g) (Z.of_nat r) (Z.of_nat lap)
               = false)
    by (unfold Submission.is_disqualified; now rewrite Hf).
  assert (Hg0 : py_index (Submission.get_submissions (table w) (key g) (Z.of_nat r)
                            (Z.of_nat lap)) (-1) = Some Guess.nothing)
    by (unfold Submission.get_submissions; now rewrite Hf).
  assert (He : Guess.eqb Guess.nothing ca = false)
    by (unfold Guess.eqb; apply bool_decide_eq_false; congruence).
  unfold lap_entry, lap_points.
  rewrite !(score_lap_regular w g r _ [] 0%Q lap ca rc Guess.nothing Hrc Hd Hg0).
  rewrite He. change (Guess.eqb Guess.nothing Guess.nothing) with true.
  now destruct (only_check_for_presence rc).
Qed.

Lemma silent_row w g r rc cl cas row :
  rounds (self w) !! current_round (priv w) = Some rc ->
  (forall s, s ∈ table w -> Submission.key s <> key g) ->
  Guess.nothing ∉ cas ->
  score_group r cl cas g w = Some (row, w) ->
  row_name row = name g /\
  (score row == 0)%Q /\
  length (row_answers row) = length cas /\
  Forall (fun a => guess a = Guess.nothing /\ correct a = false) (row_answers row).
Proof.
  intros Hrc Hno Hcas Hrow.
  destruct (score_group_row w g r rc cl cas Hrc)
    as (row' & Hrow' & Hname & Hscore & Hent).
  rewrite Hrow in Hrow'. injection Hrow' as <-.
  assert (Hits : forall it, it ∈ py_enumerate cas -> snd it <> Guess.nothing).
  { intros [lap ca] Hit Eq. cbn [snd] in Eq. subst ca.
    apply Hcas. unfold py_enumerate in Hit. exact (elem_of_zip_r _ _ _ _ Hit). }
  pose proof (Forall2_length _ _ _ Hent) as Hlen.
  rewrite length_py_enumerate in Hlen.
  split; [exact Hname|].
  revert Hscore Hent Hits. generalize (py_enumerate cas). intros its Hscore Hent Hits.
  split; [|split; [now symmetry|]].
  - rewrite Hscore. clear -Hits Hrc Hno. unfold Qsum.
    induction its as [|[lap ca] its IH]; [reflexivity|].
    cbn [map foldr].
    destruct (silent_slot w g r rc 0 lap ca Hrc Hno) as (_ & ->).
    { apply (Hits (lap, ca)). apply list_elem_of_here. }
    rewrite IH; [reflexivity|].
    intros it Hit. apply Hits. now apply list_elem_of_further.
  - clear Hscore Hlen. induction Hent as [|[lap ca] a its entries Ha _ IH];
      constructor.
    + destruct (silent_slot w g r rc cl lap ca Hrc Hno) as (He & _).
      { apply (Hits (lap, ca)). apply list_elem_of_here. }
      rewrite He in Ha. injection Ha as <-. split; reflexivity.
    + apply IH. intros it Hit. apply Hits. now apply list_elem_of_further.
Qed.

(** X8. A group without stored submissions scores zero.  In a
    well-formed state whose table holds no row under the key of a group
    of the roster, the row of that group in any status that is returned
    carries the group's name, a score of zero, and for every lap of the
    round the request ends in the entry (nothing, not correct): the empty query
    result is replaced by [[Guess.nothing]], which is never a scheduled
    answer and never counts as present. *)
Theorem silent_group_scores_zero (gs : list GroupConfig) (w : World)
    (st : LeaderboardStatus) (w' : World) (i : nat) (g : GroupConfig) :
  well_formed w ->
  get_leaderboard_status gs w = Some (st, w') ->
  (forall s, s ∈ table w -> Submission.key s <> key g) ->
  gs !! i = Some g ->
  exists row rc,
    leaderboard st !! i = Some row /\
    row_name row = name g /\
    (score row == 0)%Q /\
    rounds (self w') !! current_round (priv w') = Some rc /\
    Z.of_nat (length (row_answers row)) = lap_count rc /\
    Forall (fun a => guess a = Guess.nothing /\ correct a = false)
           (row_answers row).
Proof.
  intros Hwf H Hno Hg.
  assert (Hwf' : well_formed w')
    by exact (keeps_status _ gs keeps_well_formed_lap w st w' Hwf H).
  assert (Hno' : forall s, s ∈ table w' -> Submission.key s <> key g)
    by exact (keeps_status _ gs (keeps_table_lap _) w st w' Hno H).
  destruct (status_round_exists gs w st w' H) as [rc Hrc].
  destruct (status_rows gs w st w' H) as (cas & Hcas & Hrows).
  destruct (Forall2_lookup_l _ _ _ _ _ Hrows Hg) as (row & Hrow & Hsc).
  pose proof Hwf' as (Hok & _ & _ & Ha & _).
  destruct (Forall2_lookup_l _ _ _ _ _ Ha Hrc) as (cas' & Hcas' & Hlen & Hposs).
  rewrite Hcas in Hcas'. injection Hcas' as <-.
  destruct (fields_ok_round _ _ _ Hok Hrc) as [HN _].
  assert (Hnot : Guess.nothing ∉ cas)
    by (intros Hin; exact (nothing_not_possible (Hposs _ Hin))).
  destruct (silent_row w' g _ rc _ cas row Hrc Hno' Hnot Hsc)
    as (Hname & Hscore & Hl & Hall).
  exists row, rc. split; [exact Hrow|]. split; [exact Hname|].
  split; [exact Hscore|]. split; [exact Hrc|]. split; [|exact Hall].
  rewrite Hl, Hlen. lia.
Qed.

Lemma silent_group_scores_zero_witness :
  exists st w' row,
    get_leaderboard_status [sample_group] sample_running = Some (st, w') /\
    leaderboard st !! 0%nat = Some row /\
    (score row == 0)%Q /\
    length (row_answers row) = 3%nat.
Proof.
  destruct (get_leaderboard_status [sample_group] sample_running)
    as [[st w']|] eqn:E; [|vm_compute in E; discriminate E].
  destruct (silent_group_scores_zero [sample_group] sample_running st w' 0 sample_group
              sample_running_well_formed E)
    as (row & rc & Hrow & _ & Hscore & Hrc & Hlen & _);
    [intros s Hs; vm_compute in Hs; now apply elem_of_nil in Hs | reflexivity |].
  assert (Ew : w' = sample_running)
    by (vm_compute in E; now injection E as _ <-).
  subst w'. vm_compute in Hrc. injection Hrc as <-. cbn in Hlen.
  exists st, sample_running, row. repeat split; [exact Hrow | exact Hscore | lia].
Defined.


(** ** Time inside a lap and the submission window *)

Lemma py_mod_value (x D : Q) :
  (0 < D)%Q -> py_mod x D = Some (x - D * inject_Z (Qfloor (x / D)))%Q.
Proof.
  intros HD. unfold py_mod.
  destruct (Qeq_bool D 0) eqn:E; [|reflexivity].
  apply Qeq_bool_iff in E. lra.
Qed.

Lemma py_mod_range (x D : Q) :
  (0 < D)%Q ->
  (0 <= x - D * inject_Z (Qfloor (x / D))
   /\ x - D * inject_Z (Qfloor (x / D)) < D)%Q.
Proof.
  intros HD.
  pose proof (Qfloor_le (x / D)) as Hlo.
  pose proof (Qlt_floor (x / D)) as Hhi.
  rewrite inject_Z_plus in Hhi. change (inject_Z 1) with 1%Q in Hhi.
  assert (Hx : (x == (x / D) * D)%Q) by (field; lra).
  generalize dependent (inject_Z (Qfloor (x / D))). intros F Hlo Hhi.
  generalize dependent (x / D)%Q. intros q Hx Hlo Hhi.
  split; nra.
Qed.

Lemma get_current_time_within_lap_value w rc :
  rounds (self w) !! current_round (priv w) = Some rc ->
  (0 < lap_duration rc)%Q ->
  get_current_time_within_lap w
  = Some ((shown w - lap_duration rc * inject_Z (raw_lap w rc))%Q, w).
Proof.
  intros Hrc HD. unfold get_current_time_within_lap.
  rewrite (bind_some _ _ _ _ _ (time_value w)).
  pose proof (py_mod_value (shown w) (lap_duration rc) HD) as Hm.
  unfold shown in Hm. munfold. rewrite Hrc. mred. rewrite Hm. reflexivity.
Qed.

(** X9. The time inside the lap.  In a round with a positive lap
    duration [D], [get_current_time_within_lap()] returns a value [m]
    with [0 <= m < D] and leaves the state alone; the elapsed time of the
    round is [k * D + m] for the integer [k] that [get_current_lap()]
    compares with the lap count; and while the game is not finished,
    [time_before_next_lap()] returns [D - m], a value in [(0, D]]. *)
Theorem time_within_lap_decomposition (w : World) (rc : RoundConfig) :
  rounds (self w) !! current_round (priv w) = Some rc ->
  (0 < lap_duration rc)%Q ->
  exists m,
    get_current_time_within_lap w = Some (m, w) /\
    (0 <= m /\ m < lap_duration rc)%Q /\
    (shown w == inject_Z (raw_lap w rc) * lap_duration rc + m)%Q /\
    (finished (priv w) = false ->
     time_before_next_lap w = Some ((lap_duration rc - m)%Q, w) /\
     (0 < lap_duration rc - m /\ lap_duration rc - m <= lap_duration rc)%Q).
Proof.
  intros Hrc HD.
  exists (shown w - lap_duration rc * inject_Z (raw_lap w rc))%Q.
  split; [exact (get_current_time_within_lap_value w rc Hrc HD)|].
  pose proof (py_mod_range (shown w) (lap_duration rc) HD) as Hr.
  fold (raw_lap w rc) in Hr.
  split; [exact Hr|]. split; [ring|].
  intros Hf. split; [|lra].
  pose proof (py_mod_value (shown w) (lap_duration rc) HD) as Hm.
  unfold shown in Hm.
  unfold time_before_next_lap. unfold bind at 1, attr at 1. rewrite Hf.
  rewrite (bind_some _ _ _ _ _ (time_value w)).
  munfold. rewrite Hrc. mred. rewrite Hm. reflexivity.
Qed.

Lemma time_within_lap_decomposition_witness :
  get_current_time_within_lap sample_scored = Some (4%Q, sample_scored) /\
  time_before_next_lap sample_scored = Some ((10 - 4)%Q, sample_scored).
Proof.
  destruct (time_within_lap_decomposition sample_scored
              {| lap_count := 3; lap_duration := 10; only_check_for_presence := false |}
              eq_refl eq_refl)
    as (m & Hm & _ & _ & Hn).
  assert (E : get_current_time_within_lap sample_scored = Some (4%Q, sample_scored))
    by (vm_compute; reflexivity).
  rewrite E in Hm. injection Hm as <-.
  split; [exact E|]. exact (proj1 (Hn eq_refl)).
Defined.

Lemma get_current_play_delay_value w l w1 drow x :
  play_delays (priv w) !! current_round (priv w) = Some drow ->
  get_current_lap w = Some (l, w1) ->
  py_index drow l = Some x ->
  get_current_play_delay w = Some (x, w1).
Proof.
  intros Hd Hlap Hx. unfold get_current_play_delay.
  unfold bind at 1, attr at 1, bind at 1, get_current_round at 1, attr at 1.
  rewrite Hd. unfold lift at 1, bind at 1, ret at 1.
  rewrite (bind_some _ _ _ _ _ Hlap). now rewrite Hx.
Qed.

(** X10. The submission window.  In a well-formed state inside a lap
    of the current round, [accepts_submissions()] returns without
    changing the state; it answers [True] exactly when the time inside
    the lap lies between the play delay of the lap and that delay plus
    the sound duration plus the latency margin; while the game is not
    finished that is exactly when [time_before_playing()] lies between
    minus that sum and zero; and a time at which submissions are accepted
    is never in the first [delay_before_playing] seconds of the lap nor in
    its last [delay_after_playing] seconds. *)
Theorem accepts_submissions_window (w : World) (rc : RoundConfig) :
  well_formed w ->
  rounds (self w) !! current_round (priv w) = Some rc ->
  0 <= raw_lap w rc < lap_count rc ->
  exists b m x,
    accepts_submissions w = Some (b, w) /\
    get_current_time_within_lap w = Some (m, w) /\
    get_current_play_delay w = Some (x, w) /\
    (b = true <->
     (x <= m /\ m <= x + sound_duration (self w) + latency_margin (self w))%Q) /\
    (finished (priv w) = false ->
     exists t, time_before_playing w = Some (t, w) /\
       (b = true <->
        (- (sound_duration (self w) + latency_margin (self w)) <= t /\ t <= 0)%Q)) /\
    (b = true ->
     (delay_before_playing (self w) <= m
      /\ m <= lap_duration rc - delay_after_playing (self w))%Q).
Proof.
  intros Hwf Hrc [Hlo Hhi].
  pose proof Hwf as (Hok & Hvt & _ & _ & Hd & _).
  destruct (fields_ok_round _ _ _ Hok Hrc) as [HN HD].
  assert (HD0 : ~ (lap_duration rc == 0)%Q) by lra.
  destruct (Forall2_lookup_l _ _ _ _ _ Hd Hrc) as (drow & Hdrow & Hlen & Hdel).
  destruct (lookup_lt_is_Some_2 drow (Z.to_nat (raw_lap w rc))) as (x & Hx); [lia|].
  assert (Hpy : py_index drow (raw_lap w rc) = Some x)
    by (rewrite py_index_nat by exact Hlo; exact Hx).
  pose proof (get_current_lap_within w rc Hrc HD0 Hhi) as Hlap.
  pose proof (get_current_play_delay_value w _ w drow x Hdrow Hlap Hpy) as Hdelay.
  pose proof (get_current_time_within_lap_value w rc Hrc HD) as Hm.
  set (m := (shown w - lap_duration rc * inject_Z (raw_lap w rc))%Q) in *.
  assert (Hacc : accepts_submissions w
                 = Some (Qle_bool x m
                         && Qle_bool m (x + sound_duration (self w)
                                        + latency_margin (self w)), w)).
  { unfold accepts_submissions.
    rewrite (bind_some _ _ _ _ _ Hm), (bind_some _ _ _ _ _ Hdelay). reflexivity. }
  assert (Hiff : Qle_bool x m
                 && Qle_bool m (x + sound_duration (self w) + latency_margin (self w))
                 = true
                 <-> (x <= m /\ m <= x + sound_duration (self w)
                                      + latency_margin (self w))%Q)
    by (rewrite andb_true_iff, !Qle_bool_iff; reflexivity).
  eexists. exists m, x.
  split; [exact Hacc|]. split; [exact Hm|]. split; [exact Hdelay|].
  split; [exact Hiff|]. split.
  - intros Hf. exists (x - m)%Q. split.
    + pose proof (py_mod_value (shown w) (lap_duration rc) HD) as Hmod.
      unfold shown in Hmod.
      unfold time_before_playing. unfold bind at 1, attr at 1. rewrite Hf.
      rewrite (bind_some _ _ _ _ _ (time_value w)).
      unfold bind at 1, attr at 1.
      unfold bind at 1, get_current_round_config at 1, bind at 1, field at 1,
        bind at 1, get_current_round at 1, attr at 1.
      rewrite Hrc. unfold lift at 1, ret at 1.
      rewrite (bind_some _ _ _ _ _ Hdelay).
      rewrite Hmod. reflexivity.
    + rewrite Hiff. split; intros [H1 H2]; split; lra.
  - intros Hb. apply Hiff in Hb. destruct Hb as [H1 H2].
    destruct (Hdel x) as (r & [Hr0 Hr1] & ->);
      [apply list_elem_of_lookup; eauto|].
    assert (Hle : (total_overhead (self w) <= lap_duration rc)%Q).
    { unfold validate_timing in Hvt. rewrite forallb_forall in Hvt.
      apply Qle_bool_iff. apply Hvt.
      apply list_elem_of_In, list_elem_of_lookup. eauto. }
    assert (Hp0 : (0 <= r * (lap_duration rc - total_overhead (self w)))%Q)
      by (apply Qmult_le_0_compat; lra).
    assert (Hp1 : (r * (lap_duration rc - total_overhead (self w))
                   <= 1 * (lap_duration rc - total_overhead (self w)))%Q)
      by (apply Qmult_le_compat_r; lra).
    clearbody m.
    set (P := (r * (lap_duration rc - total_overhead (self w)))%Q) in *.
    clearbody P. unfold total_overhead in *. split; lra.
Qed.

Lemma accepts_submissions_window_witness :
  accepts_submissions sample_scored = Some (true, sample_scored) /\
  exists m, get_current_time_within_lap sample_scored = Some (m, sample_scored) /\
            (2 <= m <= 10 - 1)%Q.
Proof.
  destruct (accepts_submissions_window sample_scored
              {| lap_count := 3; lap_duration := 10; only_check_for_presence := false |})
    as (b & m & x & Hacc & Hm & _ & _ & _ & Hin).
  - apply reachable_is_well_formed.
    apply (run_from_reachable (sample_config false false) 100
             ([OpWait 4; OpPlay; OpWait 14] ++ map OpSubmit sample_table)).
    + repeat constructor; cbn; discriminate.
    + vm_compute. reflexivity.
  - reflexivity.
  - vm_compute. split; [discriminate | reflexivity].
  - assert (E : accepts_submissions sample_scored = Some (true, sample_scored))
      by (vm_compute; reflexivity).
    rewrite E in Hacc. injection Hacc as <-.
    split; [exact E|]. exists m. split; [exact Hm|]. exact (Hin eq_refl).
Defined.


(** ** Looking up a group *)

Lemma head_filter_first {A} (P : A -> Prop) `{forall x, Decision (P x)}
    (l : list A) :
  match head (filter P l) with
  | Some x =>
      P x /\ exists i, l !! i = Some x /\
                       forall j y, (j < i)%nat -> l !! j = Some y -> ~ P y
  | None => forall x, x ∈ l -> ~ P x
  end.
Proof.
  induction l as [|a l IH].
  - cbn. intros x Hx. now apply elem_of_nil in Hx.
  - rewrite filter_cons. destruct (decide (P a)) as [Ha | Ha].
    + cbn [head]. split; [exact Ha|]. exists 0%nat. split; [reflexivity|].
      intros j y Hj. lia.
    + destruct (head (filter P l)) as [x|].
      * destruct IH as (Hx & i & Hi & Hfirst). split; [exact Hx|].
        exists (S i). split; [exact Hi|].
        intros [|j] y Hj Hy; [cbn in Hy; injection Hy as <-; exact Ha|].
        apply (Hfirst j y); [lia | exact Hy].
      * intros x Hx. apply elem_of_cons in Hx. destruct Hx as [-> | Hx];
          [exact Ha | now apply IH].
Qed.

Lemma head_filter_NoDup {A B} `{EqDecision B} (f : A -> B) (l : list A) (x : A) :
  NoDup (map f l) -> x ∈ l -> head (filter (fun y => f y = f x) l) = Some x.
Proof.
  induction l as [|a l IH]; intros Hnd Hx; [now apply elem_of_nil in Hx|].
  cbn [map] in Hnd. apply NoDup_cons in Hnd. destruct Hnd as [Hna Hnd].
  rewrite filter_cons. apply elem_of_cons in Hx.
  destruct (decide (f a = f x)) as [Heq | Hne].
  - cbn [head]. f_equal. destruct Hx as [-> | Hx]; [reflexivity|].
    exfalso. apply Hna. rewrite Heq. apply list_elem_of_In, in_map.
    now apply list_elem_of_In.
  - destruct Hx as [-> | Hx]; [congruence|]. now apply IH.
Qed.

(** X11. Looking a group up by what identifies it.  On a roster the
    validator [unique_names_and_keys] accepts, [get_group_by_key] with
    the key of a group of the roster returns that very group, and
    [get_group_by_name] with its name does too: name and key each
    identify a group, whatever its position in the roster. *)
Theorem group_lookup_round_trip (gs : list GroupConfig) (g : GroupConfig) :
  unique_names_and_keys gs = Some gs ->
  g ∈ gs ->
  get_group_by_key gs (key g) = Some g /\
  get_group_by_name gs (name g) = Some g.
Proof.
  intros Hu Hg. unfold unique_names_and_keys in Hu.
  destruct (unique_loop gs ∅ ∅) eqn:E; [|discriminate Hu].
  apply unique_loop_spec in E. destruct E as (Hk & Hn & _).
  split.
  - exact (head_filter_NoDup key gs g Hk Hg).
  - exact (head_filter_NoDup name gs g Hn Hg).
Qed.

Lemma group_lookup_round_trip_witness :
  get_group_by_key [sample_group; sample_group_two] "k2" = Some sample_group_two /\
  get_group_by_name [sample_group; sample_group_two] "team two"
  = Some sample_group_two.
Proof.
  apply (group_lookup_round_trip [sample_group; sample_group_two] sample_group_two).
  - vm_compute. reflexivity.
  - apply list_elem_of_further, list_elem_of_here.
Defined.

(** X12. What a lookup returns on any roster.  [get_group_by_key]
    returns the first group of the roster that has the key, and raises
    exactly when no group has it; [get_group_by_name] does the same with
    names.  This holds for every list of groups, also one with repeated
    keys or names. *)
Theorem group_lookup_first_match (gs : list GroupConfig) (s : string) :
  match get_group_by_key gs s with
  | Some g =>
      key g = s /\
      exists i, gs !! i = Some g /\
                forall j g', (j < i)%nat -> gs !! j = Some g' -> key g' <> s
  | None => forall g, g ∈ gs -> key g <> s
  end /\
  match get_group_by_name gs s with
  | Some g =>
      name g = s /\
      exists i, gs !! i = Some g /\
                forall j g', (j < i)%nat -> gs !! j = Some g' -> name g' <> s
  | None => forall g, g ∈ gs -> name g <> s
  end.
Proof.
  split.
  - exact (head_filter_first (fun group_config => key group_config = s) gs).
  - exact (head_filter_first (fun group_config => name group_config = s) gs).
Qed.

(** ** The prefix middleware *)

Lemma py_startswith_split (s p : string) :
  py_startswith s p = true ->
  String.append p (py_slice_from (String.length p) s) = s.
Proof.
  unfold py_startswith. revert s.
  induction p as [|a p IH]; intros s H; [reflexivity|].
  destruct s as [|b s]; [discriminate H|].
  cbn [String.prefix] in H. destruct (Ascii.ascii_dec a b) as [-> | _];
    [|discriminate H].
  change (String b (String.append p (py_slice_from (String.length p) s))
          = String b s).
  f_equal. now apply IH.
Qed.

(** X13. What the prefix middleware does with a request.  For a
    request whose environment has a [PATH_INFO]: if the path starts with
    the prefix, the wrapped application is called, with an environment
    in which [SCRIPT_NAME] is the prefix, [PATH_INFO] is the rest of the
    path (prefix and rest together give the path back) and every other
    entry is as it was, and its answer is returned; otherwise the answer
    is a 404 that does not depend on the wrapped application. *)
Theorem prefix_middleware_routes {R : Type} (prefix : string)
    (app : gmap string string -> R) (environ : gmap string string)
    (path_info : string) :
  environ !! "PATH_INFO" = Some path_info ->
  (py_startswith path_info prefix = true ->
   exists environ' rest,
     PrefixMiddleware_call prefix app environ
     = Some (Passed environ' (app environ')) /\
     environ' !! "SCRIPT_NAME" = Some prefix /\
     environ' !! "PATH_INFO" = Some rest /\
     String.append prefix rest = path_info /\
     forall k, k <> "PATH_INFO" -> k <> "SCRIPT_NAME" ->
               environ' !! k = environ !! k) /\
  (py_startswith path_info prefix = false ->
   forall app' : gmap string string -> R,
     PrefixMiddleware_call prefix app' environ
     = Some (Rejected "404" [("Content-Type", "text/plain")]
               ["This url does not belong to the app."])).
Proof.
  intros Hp. unfold PrefixMiddleware_call. rewrite Hp. split.
  - intros Hs. rewrite Hs. cbv zeta.
    eexists. exists (py_slice_from (String.length prefix) path_info).
    split; [reflexivity|]. split; [apply lookup_insert_eq|].
    split; [rewrite lookup_insert_ne by discriminate; apply lookup_insert_eq|].
    split; [exact (py_startswith_split _ _ Hs)|].
    intros k Hk1 Hk2. now rewrite !lookup_insert_ne by congruence.
  - intros Hs app'. now rewrite Hs.
Qed.

Lemma prefix_middleware_routes_witness :
  (exists environ',
     PrefixMiddleware_call "/lelec" (fun e => e !! "PATH_INFO") sample_environ
     = Some (Passed environ' (Some "/leaderboard")) /\
     environ' !! "REQUEST_METHOD" = Some "GET") /\
  PrefixMiddleware_call "/other" (fun e => e !! "PATH_INFO") sample_environ
  = Some (Rejected "404" [("Content-Type", "text/plain")]
            ["This url does not belong to the app."]).
Proof.
  split.
  - destruct (prefix_middleware_routes "/lelec" (fun e => e !! "PATH_INFO")
                sample_environ "/lelec/leaderboard" eq_refl)
      as [Hyes _].
    destruct (Hyes eq_refl) as (environ' & rest & Hcall & _ & Hpath & Hrest & Hk).
    exists environ'. split.
    + rewrite Hcall. cbv beta. rewrite Hpath. do 3 f_equal.
      cbn in Hrest. now injection Hrest.
    + rewrite Hk by discriminate. reflexivity.
  - destruct (prefix_middleware_routes "/other" (fun e => e !! "PATH_INFO")
                sample_environ "/lelec/leaderboard" eq_refl)
      as [_ Hno].
    exact (Hno eq_refl (fun e => e !! "PATH_INFO")).
Defined.

(** ** A configuration without rounds *)

Lemma get_leaderboard_status_no_round gs w :
  rounds (self w) !! current_round (priv w) = None ->
  get_leaderboard_status gs w = None.
Proof.
  intros Hrc.
  destruct (get_leaderboard_status gs w) as [[st w']|] eqn:H; [|reflexivity].
  exfalso. unfold get_leaderboard_status in H.
  apply bind_inv in H. destruct H as (g & w1 & Hg & _).
  unfold get_current_correct_guess in Hg.
  repeat (apply bind_inv in Hg; destruct Hg as (? & ? & ? & Hg)).
  repeat match goal with
  | Ha : attr _ _ = Some _ |- _ => unfold attr in Ha; injection Ha as <- <-
  | Ha : get_current_round _ = Some _ |- _ =>
      unfold get_current_round, attr in Ha; injection Ha as <- <-
  | Ha : lift _ _ = Some _ |- _ => apply lift_inv in Ha; destruct Ha as (? & ->)
  end.
  match goal with
  | Hl : get_current_lap w = Some _ |- _ =>
      rewrite (get_current_lap_no_round w Hrc) in Hl; discriminate Hl
  end.
Qed.

(** X14. A configuration without rounds is accepted and then fails.
    A configuration whose list of rounds is empty and whose other fields
    are valid passes construction, and its first [restart()] returns;
    but in the state it leaves, [get_current_lap()],
    [get_current_time_within_lap()], [accepts_submissions()] and every
    [get_leaderboard_status()] raise: each indexes the empty list of
    rounds. *)
Theorem no_rounds_accepted_then_raises (c : RoundsConfig) (g0 : MT.state)
    (tbl : list Submission.t) (now : Q) :
  rounds c = [] ->
  RoundsConfig_fields_ok c = true ->
  exists g w,
    RoundsConfig_init c g0 = Some g /\
    boot c g tbl now = Some w /\
    get_current_lap w = None /\
    get_current_time_within_lap w = None /\
    accepts_submissions w = None /\
    forall gs, get_leaderboard_status gs w = None.
Proof.
  intros Hr Hok.
  assert (Hvt : validate_timing c = true)
    by (unfold validate_timing; now rewrite Hr).
  exists (MT.seed (seed c)).
  destruct (restart_spec {| self := c; priv := blank; rng := MT.seed (seed c);
                            table := tbl; wall := now |})
    as (a & d & g' & Hrs & _).
  cbn [self wall] in Hrs.
  eexists. split; [unfold RoundsConfig_init; now rewrite Hok, Hvt|].
  split; [unfold boot; rewrite Hrs; reflexivity|].
  match goal with
  | |- get_current_lap ?w = None /\ _ =>
      assert (Hnone : rounds (self w) !! current_round (priv w) = None)
        by (cbn [self]; rewrite Hr; reflexivity);
      assert (Ht : get_current_time_within_lap w = None)
  end.
  { unfold get_current_time_within_lap.
    rewrite (bind_some _ _ _ _ _ (time_value _)).
    munfold. now rewrite Hnone. }
  split; [exact (get_current_lap_no_round _ Hnone)|].
  split; [exact Ht|].
  split; [unfold accepts_submissions, bind; now rewrite Ht|].
  intros gs. exact (get_leaderboard_status_no_round gs _ Hnone).
Qed.

Lemma no_rounds_accepted_then_raises_witness :
  exists g w,
    RoundsConfig_init no_rounds_config (MT.mk [] 0) = Some g /\
    boot no_rounds_config g [] 100 = Some w /\
    get_leaderboard_status [sample_group] w = None.
Proof.
  destruct (no_rounds_accepted_then_raises no_rounds_config (MT.mk [] 0) [] 100
              eq_refl eq_refl)
    as (g & w & Hinit & Hboot & _ & _ & _ & Hst).
  exists g, w. split; [exact Hinit|]. split; [exact Hboot|]. apply Hst.
Defined.


(** ** Restarting, and asking twice *)

(** X15. A restart wipes the leaderboard.  From a well-formed state
    of a configuration with at least one round, [restart()] returns, and
    a status request in the state it leaves changes nothing and reports
    round 0, lap 0, not finished, paused exactly when [start_paused] is
    set, and for every group of the roster a row with score zero whose
    entries are all (nothing, not correct): the stored submissions are
    gone. *)
Theorem restart_then_status (w : World) (gs : list GroupConfig) :
  well_formed w ->
  rounds (self w) <> [] ->
  exists w1 st,
    restart w = Some (tt, w1) /\
    table w1 = [] /\
    get_leaderboard_status gs w1 = Some (st, w1) /\
    st_current_round st = 0%nat /\
    st_current_lap st = 0 /\
    st_finished st = false /\
    st_paused st = start_paused (self w) /\
    Forall2 (fun g row =>
               row_name row = name g /\
               (score row == 0)%Q /\
               Forall (fun a => guess a = Guess.nothing /\ correct a = false)
                      (row_answers row))
            gs (leaderboard st).
Proof.
  intros Hwf Hne.
  destruct (restart_spec w) as (a & d & g' & Hr & _).
  pose proof (well_formed_restart w _ Hwf Hr) as Hwf1.
  set (w1 := {| self := self w; priv := restarted (self w) a d (wall w);
                rng := g'; table := []; wall := wall w |}) in *.
  destruct (well_formed_round w1 Hwf1 Hne) as (rc0 & Hrc0 & HN & HD).
  assert (HD0 : ~ (lap_duration rc0 == 0)%Q) by lra.
  pose proof (shown_restarted (self w) a d (wall w) g' []) as Hsh. fold w1 in Hsh.
  pose proof (raw_lap_zero w1 rc0 HD Hsh) as Hraw.
  assert (Hlt : raw_lap w1 rc0 < lap_count rc0) by lia.
  pose proof (get_current_lap_within w1 rc0 Hrc0 HD0 Hlt) as Hwithin.
  destruct (status_outcome w1 rc0 gs Hwf1 Hrc0)
    as (l & w2 & rc1 & arow & g & tn & tp & cas & rows & Hlap & _ & _ & _
        & Hrc1 & _ & _ & _ & _ & Hcas & _ & Hrows & Hst);
    [lra | intros _ Hge; lia |].
  rewrite Hwithin in Hlap. injection Hlap as <- <-. rewrite Hraw in *.
  exists w1. eexists. split; [exact Hr|]. split; [reflexivity|].
  split; [exact Hst|].
  cbn [st_current_round st_current_lap st_finished st_paused leaderboard].
  split; [reflexivity|]. split; [reflexivity|]. split; [reflexivity|].
  split; [reflexivity|].
  pose proof Hwf1 as (_ & _ & _ & Ha & _).
  destruct (Forall2_lookup_l _ _ _ _ _ Ha Hrc1) as (cas' & Hcas' & _ & Hposs).
  rewrite Hcas in Hcas'. injection Hcas' as <-.
  assert (Hnot : Guess.nothing ∉ cas)
    by (intros Hin; exact (nothing_not_possible (Hposs _ Hin))).
  eapply Forall2_impl; [exact Hrows|]. intros g0 row Hrow. cbv beta in Hrow.
  destruct (silent_row w1 g0 (current_round (priv w1)) rc1 0 cas row Hrc1)
    as (Hname & Hscore & _ & Hall);
    [intros s Hs; now apply elem_of_nil in Hs | exact Hnot | exact Hrow |].
  split; [exact Hname|]. split; [exact Hscore | exact Hall].
Qed.

Lemma restart_then_status_witness :
  exists w1 st,
    restart sample_scored = Some (tt, w1) /\
    get_leaderboard_status [sample_group] w1 = Some (st, w1) /\
    st_current_lap st = 0 /\
    Forall (fun row => (score row == 0)%Q) (leaderboard st).
Proof.
  destruct (restart_then_status sample_scored [sample_group])
    as (w1 & st & Hr & _ & Hst & _ & Hl & _ & _ & Hrows).
  - apply reachable_is_well_formed.
    apply (run_from_reachable (sample_config false false) 100
             ([OpWait 4; OpPlay; OpWait 14] ++ map OpSubmit sample_table)).
    + repeat constructor; cbn; discriminate.
    + vm_compute. reflexivity.
  - discriminate.
  - exists w1, st. split; [exact Hr|]. split; [exact Hst|]. split; [exact Hl|].
    apply Forall2_cons_inv_l in Hrows.
    destruct Hrows as (row & rows & (_ & Hs & _) & Hnil & ->).
    apply Forall2_nil_inv_l in Hnil. subst rows.
    constructor; [exact Hs | constructor].
Defined.

Ltac bind_step H :=
  let Hi := fresh "Hi" in
  apply bind_inv in H; destruct H as (? & ? & Hi & H);
  cbv beta; rewrite (bind_some _ _ _ _ _ Hi).

(** A status request is the rest of the request run after its first
    query, and only the reported correct guess depends on the result of
    that query. *)
Lemma status_guess_swap gs w wa w1 g g' st w2 :
  get_current_correct_guess w = Some (g, w1) ->
  get_current_correct_guess wa = Some (g', w1) ->
  get_leaderboard_status gs w = Some (st, w2) ->
  get_leaderboard_status gs wa
  = Some ({| st_current_correct_guess := g';
             st_current_round := st_current_round st;
             st_current_lap := st_current_lap st;
             st_number_of_rounds := st_number_of_rounds st;
             st_number_of_laps := st_number_of_laps st;
             st_paused := st_paused st;
             st_time_before_next_lap := st_time_before_next_lap st;
             st_time_before_playing := st_time_before_playing st;
             st_finished := st_finished st;
             leaderboard := leaderboard st |}, w2).
Proof.
  intros Hg Hg' H. unfold get_leaderboard_status in *.
  rewrite (bind_some _ _ _ _ _ Hg) in H. rewrite (bind_some _ _ _ _ _ Hg').
  repeat bind_step H.
  unfold ret in *. injection H as <- <-. reflexivity.
Qed.

(** X16. Asking twice gives the same answer.  After a status request
    in a well-formed state (current round present, elapsed time not
    negative, no pause across a pending boundary of a non-final round),
    a second request in the state the first one leaves changes nothing
    and returns the same status, except that the correct guess it
    reports is the scheduled answer of the reported round and lap; and
    when the first request did not change the state, the two statuses
    are equal. *)
Theorem status_repeatable (w : World) (rc : RoundConfig) (gs : list GroupConfig) :
  well_formed w ->
  rounds (self w) !! current_round (priv w) = Some rc ->
  (0 <= shown w)%Q ->
  (paused (priv w) = true -> lap_count rc <= raw_lap w rc ->
   (current_round (priv w) + 1)%nat = length (rounds (self w))) ->
  exists st w1 cas g',
    get_leaderboard_status gs w = Some (st, w1) /\
    answers (priv w1) !! st_current_round st = Some cas /\
    py_index cas (st_current_lap st) = Some g' /\
    get_leaderboard_status gs w1
    = Some ({| st_current_correct_guess := g';
               st_current_round := st_current_round st;
               st_current_lap := st_current_lap st;
               st_number_of_rounds := st_number_of_rounds st;
               st_number_of_laps := st_number_of_laps st;
               st_paused := st_paused st;
               st_time_before_next_lap := st_time_before_next_lap st;
               st_time_before_playing := st_time_before_playing st;
               st_finished := st_finished st;
               leaderboard := leaderboard st |}, w1) /\
    (w1 = w -> get_leaderboard_status gs w1 = Some (st, w1)).
Proof.
  intros Hwf Hrc Hsh G.
  destruct (status_outcome w rc gs Hwf Hrc Hsh G)
    as (l & w1 & rc1 & arow & g & tn & tp & cas & rows & Hlap & Hlap' & Hwf1 & Hs1
        & Hrc1 & Hl & Harow & Hpy & _ & Hcas & Hlc & _ & Hst).
  destruct (lookup_lt_is_Some_2 cas (Z.to_nat l)) as (g' & Hg'); [lia|].
  assert (Hpy' : py_index cas l = Some g')
    by (rewrite py_index_nat by lia; exact Hg').
  pose proof (get_current_correct_guess_value w l w1 arow g Harow Hlap Hpy) as Hguess.
  pose proof (get_current_correct_guess_value w1 l w1 cas g' Hcas Hlap' Hpy')
    as Hguess'.
  pose proof (status_guess_swap gs w w1 w1 g g' _ w1 Hguess Hguess' Hst) as Hsecond.
  cbn [st_current_round st_current_lap st_number_of_rounds st_number_of_laps
       st_paused st_time_before_next_lap st_time_before_playing st_finished
       leaderboard] in Hsecond.
  eexists. exists w1, cas, g'. split; [exact Hst|].
  cbn [st_current_round st_current_lap st_number_of_rounds st_number_of_laps
       st_paused st_time_before_next_lap st_time_before_playing st_finished
       leaderboard].
  split; [exact Hcas|]. split; [exact Hpy'|]. split; [exact Hsecond|].
  intros Ew. rewrite Hsecond. rewrite Ew in Hguess'. rewrite Hguess' in Hguess.
  now injection Hguess as ->.
Qed.

Lemma status_repeatable_witness :
  exists st,
    get_leaderboard_status [sample_group] sample_scored = Some (st, sample_scored) /\
    st_current_lap st = 1.
Proof.
  destruct (status_repeatable sample_scored
              {| lap_count := 3; lap_duration := 10; only_check_for_presence := false |}
              [sample_group])
    as (st & w1 & cas & g' & Hst & _ & _ & _ & Hsame).
  - apply reachable_is_well_formed.
    apply (run_from_reachable (sample_config false false) 100
             ([OpWait 4; OpPlay; OpWait 14] ++ map OpSubmit sample_table)).
    + repeat constructor; cbn; discriminate.
    + vm_compute. reflexivity.
  - reflexivity.
  - vm_compute. discriminate.
  - discriminate.
  - assert (E : exists st0, get_leaderboard_status [sample_group] sample_scored
                            = Some (st0, sample_scored) /\ st_current_lap st0 = 1)
      by (vm_compute; eexists; split; reflexivity).
    destruct E as (st0 & E & El). rewrite E in Hst. injection Hst as <- <-.
    exists st0. split; [exact (Hsame eq_refl) | exact El].
Defined.


(** ** A status request inside a lap *)

Lemma time_before_next_lap_value w rc :
  rounds (self w) !! current_round (priv w) = Some rc ->
  (0 < lap_duration rc)%Q ->
  time_before_next_lap w
  = Some (if finished (priv w) then 0%Q
          else (lap_duration rc
                - (shown w - lap_duration rc * inject_Z (raw_lap w rc)))%Q, w).
Proof.
  intros Hrc HD.
  pose proof (py_mod_value (shown w) (lap_duration rc) HD) as Hm.
  unfold shown in Hm.
  unfold time_before_next_lap. unfold bind at 1, attr at 1.
  destruct (finished (priv w)); [reflexivity|].
  rewrite (bind_some _ _ _ _ _ (time_value w)).
  munfold. rewrite Hrc. mred. rewrite Hm. reflexivity.
Qed.

Lemma time_before_playing_value w rc x :
  rounds (self w) !! current_round (priv w) = Some rc ->
  (0 < lap_duration rc)%Q ->
  get_current_play_delay w = Some (x, w) ->
  time_before_playing w
  = Some (if finished (priv w) then (-1)%Q
          else (x - (shown w - lap_duration rc * inject_Z (raw_lap w rc)))%Q, w).
Proof.
  intros Hrc HD Hx.
  pose proof (py_mod_value (shown w) (lap_duration rc) HD) as Hm.
  unfold shown in Hm.
  unfold time_before_playing. unfold bind at 1, attr at 1.
  destruct (finished (priv w)); [reflexivity|].
  rewrite (bind_some _ _ _ _ _ (time_value w)).
  unfold bind at 1, attr at 1.
  unfold bind at 1, get_current_round_config at 1, bind at 1, field at 1,
    bind at 1, get_current_round at 1, attr at 1.
  rewrite Hrc. unfold lift at 1, ret at 1.
  rewrite (bind_some _ _ _ _ _ Hx).
  rewrite Hm. reflexivity.
Qed.

(** Inside a lap a status request only reads, and this is what it
    reports. *)
Lemma status_within gs w rc arow drow g x :
  rounds (self w) !! current_round (priv w) = Some rc ->
  (0 < lap_duration rc)%Q ->
  0 <= raw_lap w rc -> raw_lap w rc < lap_count rc ->
  answers (priv w) !! current_round (priv w) = Some arow ->
  play_delays (priv w) !! current_round (priv w) = Some drow ->
  arow !! Z.to_nat (raw_lap w rc) = Some g ->
  drow !! Z.to_nat (raw_lap w rc) = Some x ->
  exists rows,
    Forall2 (fun gc row =>
               score_group (current_round (priv w)) (raw_lap w rc) arow gc w
               = Some (row, w))
            gs rows /\
    get_leaderboard_status gs w
    = Some ({| st_current_correct_guess := g;
               st_current_round := current_round (priv w);
               st_current_lap := raw_lap w rc;
               st_number_of_rounds := length (rounds (self w));
               st_number_of_laps := lap_count rc;
               st_paused := paused (priv w);
               st_time_before_next_lap :=
                 if finished (priv w) then 0%Q
                 else (lap_duration rc
                       - (shown w - lap_duration rc * inject_Z (raw_lap w rc)))%Q;
               st_time_before_playing :=
                 if finished (priv w) then (-1)%Q
                 else (x - (shown w - lap_duration rc * inject_Z (raw_lap w rc)))%Q;
               st_finished := finished (priv w);
               leaderboard := rows |}, w).
Proof.
  intros Hrc HD Hlo Hhi Harow Hdrow Hg Hx.
  assert (HD0 : ~ (lap_duration rc == 0)%Q) by lra.
  pose proof (get_current_lap_within w rc Hrc HD0 Hhi) as Hlap.
  assert (Hpg : py_index arow (raw_lap w rc) = Some g)
    by (rewrite py_index_nat by exact Hlo; exact Hg).
  assert (Hpx : py_index drow (raw_lap w rc) = Some x)
    by (rewrite py_index_nat by exact Hlo; exact Hx).
  pose proof (get_current_correct_guess_value w _ w arow g Harow Hlap Hpg) as Hguess.
  pose proof (get_current_play_delay_value w _ w drow x Hdrow Hlap Hpx) as Hdelay.
  exact (status_run gs w w rc g (raw_lap w rc) _ _ arow Hguess Hlap Hrc
           (time_before_next_lap_value w rc Hrc HD)
           (time_before_playing_value w rc x Hrc HD Hdelay) Harow).
Qed.

(** The data of a well-formed state inside a lap. *)
Lemma well_formed_slot w rc :
  well_formed w ->
  rounds (self w) !! current_round (priv w) = Some rc ->
  0 <= raw_lap w rc < lap_count rc ->
  (0 < lap_duration rc)%Q /\
  exists arow drow g x,
    answers (priv w) !! current_round (priv w) = Some arow /\
    play_delays (priv w) !! current_round (priv w) = Some drow /\
    arow !! Z.to_nat (raw_lap w rc) = Some g /\
    drow !! Z.to_nat (raw_lap w rc) = Some x.
Proof.
  intros (Hok & _ & _ & Ha & Hd & _) Hrc [Hlo Hhi].
  destruct (fields_ok_round _ _ _ Hok Hrc) as [HN HD].
  destruct (Forall2_lookup_l _ _ _ _ _ Ha Hrc) as (arow & Harow & Hla & _).
  destruct (Forall2_lookup_l _ _ _ _ _ Hd Hrc) as (drow & Hdrow & Hld & _).
  destruct (lookup_lt_is_Some_2 arow (Z.to_nat (raw_lap w rc))) as (g & Hg); [lia|].
  destruct (lookup_lt_is_Some_2 drow (Z.to_nat (raw_lap w rc))) as (x & Hx); [lia|].
  split; [exact HD|]. now exists arow, drow, g, x.
Qed.

(** The scoring loop in two states with the same configuration and the
    same private attributes, whose tables agree on the rows of the
    group for the round. *)
Section Transfer.

Variables (w v : World) (g : GroupConfig) (r : nat) (rc : RoundConfig).
Hypothesis Hself : self v = self w.
Hypothesis Hpriv : priv v = priv w.
Hypothesis Hrows : forall l,
  Submission.filter_by (key g) (Z.of_nat r) l (table v)
  = Submission.filter_by (key g) (Z.of_nat r) l (table w).
Hypothesis Hrc : rounds (self w) !! current_round (priv w) = Some rc.

Lemma score_lap_transfer cl acc it res :
  score_lap g r cl acc it w = Some (res, w) ->
  score_lap g r cl acc it v = Some (res, v).
Proof.
  destruct acc as [acc sc], it as [lap ca]. intros H.
  assert (Hrcv : rounds (self v) !! current_round (priv v) = Some rc)
    by (now rewrite Hself, Hpriv).
  assert (Hdv : Submission.is_disqualified (table v) (key g) (Z.of_nat r) (Z.of_nat lap)
                = Submission.is_disqualified (table w) (key g) (Z.of_nat r)
                    (Z.of_nat lap))
    by (unfold Submission.is_disqualified; now rewrite Hrows).
  assert (Hgv : Submission.get_submissions (table v) (key g) (Z.of_nat r) (Z.of_nat lap)
                = Submission.get_submissions (table w) (key g) (Z.of_nat r)
                    (Z.of_nat lap))
    by (unfold Submission.get_submissions; now rewrite Hrows).
  destruct (Submission.is_disqualified (table w) (key g) (Z.of_nat r) (Z.of_nat lap))
    eqn:Hd.
  - rewrite (score_lap_disqualified w g r cl acc sc lap ca Hd) in H.
    rewrite (score_lap_disqualified v g r cl acc sc lap ca Hdv).
    now injection H as <-.
  - destruct (get_submissions_last_total (table w) (key g) (Z.of_nat r) (Z.of_nat lap))
      as (g0 & Hg0).
    rewrite (score_lap_regular w g r cl acc sc lap ca rc g0 Hrc Hd Hg0) in H.
    rewrite <- Hgv in Hg0.
    rewrite (score_lap_regular v g r cl acc sc lap ca rc g0 Hrcv Hdv Hg0).
    now injection H as <-.
Qed.

Lemma foldM_score_lap_transfer cl its : forall acc res,
  foldM (score_lap g r cl) acc its w = Some (res, w) ->
  foldM (score_lap g r cl) acc its v = Some (res, v).
Proof.
  induction its as [|it its IH]; intros [acc sc] res H; cbn [foldM] in *.
  - unfold ret in *. now injection H as <-.
  - destruct (score_lap_step w g r rc cl acc sc it Hrc) as (a & sc' & Hstep & _).
    rewrite (bind_some _ _ _ _ _ Hstep) in H.
    rewrite (bind_some _ _ _ _ _ (score_lap_transfer _ _ _ _ Hstep)).
    now apply IH.
Qed.

Lemma score_group_transfer cl cas row :
  score_group r cl cas g w = Some (row, w) ->
  score_group r cl cas g v = Some (row, v).
Proof.
  unfold score_group. intros H.
  apply bind_inv in H. destruct H as ([entries sc] & w1 & Hfold & H).
  unfold ret in H. injection H as <- ->.
  now rewrite (bind_some _ _ _ _ _ (foldM_score_lap_transfer _ _ _ _ Hfold)).
Qed.

End Transfer.

Lemma raw_lap_same w v rc :
  priv v = priv w ->
  (paused (priv w) = true \/ wall v = wall w) ->
  shown v = shown w /\ raw_lap v rc = raw_lap w rc.
Proof.
  intros Hp Hc.
  assert (Hs : shown v = shown w).
  { unfold shown. rewrite Hp. destruct Hc as [-> | ->]; reflexivity. }
  split; [exact Hs|]. unfold raw_lap. now rewrite Hs.
Qed.

(** X17. While the clock is paused, time does not show.  In a
    well-formed state that is paused inside a lap, a status request
    changes nothing, and the same request after the wall clock has moved
    by any amount returns the very same status, again without changing
    anything: lap, countdowns and leaderboard are frozen with the clock. *)
Theorem paused_status_ignores_time (w : World) (rc : RoundConfig)
    (gs : list GroupConfig) (d : Q) :
  well_formed w ->
  rounds (self w) !! current_round (priv w) = Some rc ->
  paused (priv w) = true ->
  0 <= raw_lap w rc < lap_count rc ->
  exists st,
    get_leaderboard_status gs w = Some (st, w) /\
    get_leaderboard_status gs (advance d w) = Some (st, advance d w).
Proof.
  intros Hwf Hrc Hp Hin.
  destruct (well_formed_slot w rc Hwf Hrc Hin)
    as (HD & arow & drow & g & x & Harow & Hdrow & Hg & Hx).
  destruct Hin as [Hlo Hhi].
  destruct (raw_lap_same w (advance d w) rc eq_refl (or_introl Hp)) as [Hs Hr].
  destruct (status_within gs w rc arow drow g x Hrc HD Hlo Hhi Harow Hdrow Hg Hx)
    as (rows & Hrows & Hst).
  destruct (status_within gs (advance d w) rc arow drow g x)
    as (rows' & Hrows' & Hst'); try rewrite Hr; try assumption.
  rewrite Hs, Hr in Hst'. cbn [self priv advance] in Hst', Hrows'.
  rewrite Hr in Hrows'.
  assert (Heq : rows' = rows).
  { clear -Hrows Hrows' Hrc. revert rows' Hrows'.
    induction Hrows as [|gc row gs rows Hrow _ IH]; intros rows' Hrows'.
    - now apply Forall2_nil_inv_l in Hrows'.
    - apply Forall2_cons_inv_l in Hrows'.
      destruct Hrows' as (row' & rows'' & Hrow' & Hrest & ->).
      f_equal; [|now apply IH].
      pose proof (score_group_transfer w (advance d w) gc _ rc eq_refl eq_refl
                    (fun _ => eq_refl) Hrc _ _ _ Hrow) as Ht.
      rewrite Ht in Hrow'. now injection Hrow'. }
  subst rows'. eexists. split; [exact Hst | exact Hst'].
Qed.

Lemma paused_status_ignores_time_witness :
  exists st,
    get_leaderboard_status [sample_group] sample_paused = Some (st, sample_paused) /\
    get_leaderboard_status [sample_group] (advance 1000 sample_paused)
    = Some (st, advance 1000 sample_paused).
Proof.
  apply (paused_status_ignores_time sample_paused
           {| lap_count := 3; lap_duration := 10; only_check_for_presence := false |}).
  - apply reachable_is_well_formed.
    apply (run_from_reachable (sample_config false false) 100 []).
    + constructor.
    + vm_compute. reflexivity.
  - reflexivity.
  - reflexivity.
  - vm_compute. split; [discriminate | reflexivity].
Defined.

Lemma filter_by_append_other s k r l tbl :
  Submission.key s <> k \/ Submission.round s <> r ->
  Submission.filter_by k r l (tbl ++ [s]) = Submission.filter_by k r l tbl.
Proof.
  intros Hne. unfold Submission.filter_by.
  rewrite filter_app, filter_cons, filter_nil.
  destruct (decide _) as [(Hk & Hr & _) | _]; [|apply app_nil_r].
  destruct Hne; contradiction.
Qed.

(** X18. A submission touches the rows of its own group only.  In a
    well-formed state inside a lap, storing one more row in the table
    leaves every field of the status other than the leaderboard as it
    was, and leaves unchanged the leaderboard row of every group whose
    key is not the key of the stored row; and when the stored row is for
    another round than the current one, every row is unchanged. *)
Theorem submission_touches_own_row (w : World) (rc : RoundConfig)
    (gs : list GroupConfig) (s : Submission.t) :
  well_formed w ->
  rounds (self w) !! current_round (priv w) = Some rc ->
  0 <= raw_lap w rc < lap_count rc ->
  exists st rows',
    get_leaderboard_status gs w = Some (st, w) /\
    get_leaderboard_status gs (append_row s w)
    = Some ({| st_current_correct_guess := st_current_correct_guess st;
               st_current_round := st_current_round st;
               st_current_lap := st_current_lap st;
               st_number_of_rounds := st_number_of_rounds st;
               st_number_of_laps := st_number_of_laps st;
               st_paused := st_paused st;
               st_time_before_next_lap := st_time_before_next_lap st;
               st_time_before_playing := st_time_before_playing st;
               st_finished := st_finished st;
               leaderboard := rows' |}, append_row s w) /\
    length rows' = length (leaderboard st) /\
    (forall i gc, gs !! i = Some gc ->
       Submission.key s <> key gc
       \/ Submission.round s <> Z.of_nat (st_current_round st) ->
       rows' !! i = leaderboard st !! i).
Proof.
  intros Hwf Hrc Hin.
  destruct (well_formed_slot w rc Hwf Hrc Hin)
    as (HD & arow & drow & g & x & Harow & Hdrow & Hg & Hx).
  destruct Hin as [Hlo Hhi].
  destruct (raw_lap_same w (append_row s w) rc eq_refl (or_intror eq_refl))
    as [Hs Hr].
  destruct (status_within gs w rc arow drow g x Hrc HD Hlo Hhi Harow Hdrow Hg Hx)
    as (rows & Hrows & Hst).
  destruct (status_within gs (append_row s w) rc arow drow g x)
    as (rows' & Hrows' & Hst'); try rewrite Hr; try assumption.
  rewrite Hs, Hr in Hst'. cbn [self priv append_row] in Hst', Hrows'.
  rewrite Hr in Hrows'.
  eexists. exists rows'. split; [exact Hst|].
  cbn [st_current_correct_guess st_current_round st_current_lap
       st_number_of_rounds st_number_of_laps st_paused st_time_before_next_lap
       st_time_before_playing st_finished leaderboard].
  split; [exact Hst'|].
  split; [now rewrite <- (Forall2_length _ _ _ Hrows), (Forall2_length _ _ _ Hrows')|].
  intros i gc Hgc Hne.
  destruct (Forall2_lookup_l _ _ _ _ _ Hrows Hgc) as (row & Hrow & Hsc).
  destruct (Forall2_lookup_l _ _ _ _ _ Hrows' Hgc) as (row' & Hrow' & Hsc').
  rewrite Hrow, Hrow'. f_equal.
  pose proof (score_group_transfer w (append_row s w) gc _ rc eq_refl eq_refl
                (fun l => filter_by_append_other s _ _ l (table w) Hne)
                Hrc _ _ _ Hsc) as Ht.
  rewrite Ht in Hsc'. now injection Hsc'.
Qed.

Lemma submission_touches_own_row_witness :
  exists st rows',
    get_leaderboard_status [sample_group] sample_scored = Some (st, sample_scored) /\
    length rows' = length (leaderboard st) /\
    rows' !! 0%nat = leaderboard st !! 0%nat.
Proof.
  destruct (submission_touches_own_row sample_scored
              {| lap_count := 3; lap_duration := 10; only_check_for_presence := false |}
              [sample_group] (sample_row 7 118 1 "k2" Guess.birds false))
    as (st & rows' & Hst & _ & Hlen & Hsame).
  - apply reachable_is_well_formed.
    apply (run_from_reachable (sample_config false false) 100
             ([OpWait 4; OpPlay; OpWait 14] ++ map OpSubmit sample_table)).
    + repeat constructor; cbn; discriminate.
    + vm_compute. reflexivity.
  - reflexivity.
  - vm_compute. split; [discriminate | reflexivity].
  - exists st, rows'. split; [exact Hst|]. split; [exact Hlen|].
    apply (Hsame 0%nat sample_group eq_refl). left. discriminate.
Defined.


(** ** What a run never touches *)

Section Kept.

Variables (c : RoundsConfig) (a : list (list Guess.t)) (d : list (list Q))
          (g : MT.state) (t : list Submission.t).
Hypothesis Hrwf : restart_when_finished c = false.

Let kept (w : World) : Prop :=
  self w = c /\ answers (priv w) = a /\ play_delays (priv w) = d /\
  rng w = g /\ exists new, table w = t ++ new.

Lemma kept_with_priv w p :
  kept w -> answers p = answers (priv w) -> play_delays p = play_delays (priv w) ->
  kept (with_priv p w).
Proof.
  intros (Hs & Ha & Hd & Hg & Ht) Ea Ed. unfold kept.
  cbn [self priv rng table with_priv]. rewrite Ea, Ed. auto.
Qed.

Lemma keeps_kept_lap : keeps kept get_current_lap.
Proof.
  intros w l w' Hk H.
  destruct (rounds (self w) !! current_round (priv w)) as [rc|] eqn:Hrc;
    [|rewrite (get_current_lap_no_round w Hrc) in H; discriminate H].
  destruct (Qeq_dec (lap_duration rc) 0) as [HD | HD0];
    [rewrite (get_current_lap_zero_duration w rc Hrc HD) in H; discriminate H|].
  destruct (Z_lt_le_dec (raw_lap w rc) (lap_count rc)) as [Hlt | Hge].
  { rewrite (get_current_lap_within w rc Hrc HD0 Hlt) in H.
    now injection H as _ <-. }
  destruct (decide ((current_round (priv w) + 1)%nat = length (rounds (self w))))
    as [Hlast | Hnl].
  - assert (Hr : restart_when_finished (self w) = false)
      by (destruct Hk as (-> & _); exact Hrwf).
    rewrite (get_current_lap_finish w rc Hrc HD0 Hge Hlast Hr) in H.
    injection H as _ <-.
    destruct (paused_at_fields (wall w) (set_finished true (priv w)))
      as (Ea & Ed & _).
    apply kept_with_priv; [exact Hk | exact Ea | exact Ed].
  - rewrite (get_current_lap_next w rc Hrc HD0 Hge Hnl) in H.
    injection H as _ <-. cbv zeta.
    destruct (pause_between_rounds (self w)).
    + destruct (paused_at_fields (wall w)
                  (set_round_start_time (wall w)
                     (set_current_round (current_round (priv w) + 1)%nat (priv w))))
        as (Ea & Ed & _).
      apply kept_with_priv; [exact Hk | exact Ea | exact Ed].
    + apply kept_with_priv; [exact Hk | reflexivity | reflexivity].
Qed.

Lemma kept_run_op o w w' : kept w -> run_op o w = Some w' -> kept w'.
Proof.
  intros Hk. destruct o as [| | |gs|x|s]; cbn [run_op]; unfold after.
  - destruct (paused (priv w)) eqn:Hp.
    + rewrite (play_paused w Hp). intros [= <-]. exact Hk.
    + rewrite (play_running w Hp). now intros [= <-].
  - rewrite pause_value. intros [= <-].
    destruct (paused_at_fields (wall w) (priv w)) as (Ea & Ed & _).
    apply kept_with_priv; [exact Hk | exact Ea | exact Ed].
  - destruct (get_current_lap w) as [[l u]|] eqn:E; [|discriminate].
    intros [= <-]. exact (keeps_kept_lap _ _ _ Hk E).
  - destruct (get_leaderboard_status gs w) as [[st u]|] eqn:E; [|discriminate].
    intros [= <-]. exact (keeps_status kept gs keeps_kept_lap _ _ _ Hk E).
  - intros [= <-]. exact Hk.
  - intros [= <-]. destruct Hk as (Hs & Ha & Hd & Hg & new & Ht).
    unfold kept, append_row. cbn [self priv rng table].
    repeat split; try assumption. exists (new ++ [s]). now rewrite Ht, app_assoc.
Qed.

Lemma kept_run ops : forall w w', kept w -> run ops w = Some w' -> kept w'.
Proof.
  induction ops as [|o ops IH]; intros w w' Hk; cbn [run].
  - now intros [= <-].
  - destruct (run_op o w) as [u|] eqn:E; [|discriminate].
    apply IH. exact (kept_run_op _ _ _ Hk E).
Qed.

End Kept.

(** X19. Without [restart_when_finished], a run keeps the schedule.
    When [restart_when_finished] is off, no sequence of calls of
    [play()], [pause()], [get_current_lap()] and
    [get_leaderboard_status()], of waits and of stored submissions
    changes the configuration, the answers, the play delays or the state
    of the random generator, and the table only grows: every row stored
    before is still there, in its place. *)
Theorem run_keeps_schedule (w0 w : World) (ops : list op) :
  restart_when_finished (self w0) = false ->
  run ops w0 = Some w ->
  self w = self w0 /\
  answers (priv w) = answers (priv w0) /\
  play_delays (priv w) = play_delays (priv w0) /\
  rng w = rng w0 /\
  exists new, table w = table w0 ++ new.
Proof.
  intros Hrwf Hrun.
  apply (kept_run (self w0) (answers (priv w0)) (play_delays (priv w0)) (rng w0)
           (table w0) Hrwf ops w0 w); [|exact Hrun].
  repeat split. exists []. now rewrite app_nil_r.
Qed.

Lemma run_keeps_schedule_witness :
  answers (priv sample_finished) = answers (priv sample_paused) /\
  rng sample_finished = rng sample_paused.
Proof.
  destruct (run_keeps_schedule sample_paused sample_finished
              [OpWait 4; OpPlay; OpWait 30; OpLap; OpWait 30; OpLap] eq_refl)
    as (_ & Ha & _ & Hg & _).
  - vm_compute. reflexivity.
  - split; [exact Ha | exact Hg].
Defined.


(** ** The countdowns *)

Lemma Qfloor_unique (x : Q) (n : Z) :
  (inject_Z n <= x)%Q -> (x < inject_Z (n + 1))%Q -> Qfloor x = n.
Proof.
  intros Hlo Hhi.
  pose proof (Qfloor_le x) as Hfl. pose proof (Qlt_floor x) as Hfh.
  assert (H1 : (inject_Z (Qfloor x) < inject_Z (n + 1))%Q) by lra.
  assert (H2 : (inject_Z n < inject_Z (Qfloor x + 1))%Q) by lra.
  rewrite <- Zlt_Qlt in H1, H2. lia.
Qed.

Lemma raw_lap_advance w rc d (k : Z) :
  paused (priv w) = false ->
  (0 < lap_duration rc)%Q ->
  (inject_Z k * lap_duration rc <= shown w + d)%Q ->
  (shown w + d < inject_Z (k + 1) * lap_duration rc)%Q ->
  raw_lap (advance d w) rc = k.
Proof.
  intros Hp HD Hlo Hhi. unfold raw_lap.
  assert (Hs : (shown (advance d w) == shown w + d)%Q)
    by (unfold shown, advance; cbn [priv wall]; rewrite Hp; ring).
  apply Qfloor_unique.
  - apply Qle_shift_div_l; [exact HD|]. now rewrite Hs.
  - apply Qlt_shift_div_r; [exact HD|]. now rewrite Hs.
Qed.

Lemma accepts_submissions_value w rc drow x :
  rounds (self w) !! current_round (priv w) = Some rc ->
  (0 < lap_duration rc)%Q ->
  0 <= raw_lap w rc -> raw_lap w rc < lap_count rc ->
  play_delays (priv w) !! current_round (priv w) = Some drow ->
  drow !! Z.to_nat (raw_lap w rc) = Some x ->
  accepts_submissions w
  = Some (Qle_bool x (shown w - lap_duration rc * inject_Z (raw_lap w rc))
          && Qle_bool (shown w - lap_duration rc * inject_Z (raw_lap w rc))
               (x + sound_duration (self w) + latency_margin (self w)), w).
Proof.
  intros Hrc HD Hlo Hhi Hdrow Hx.
  assert (HD0 : ~ (lap_duration rc == 0)%Q) by lra.
  pose proof (get_current_lap_within w rc Hrc HD0 Hhi) as Hlap.
  assert (Hpx : py_index drow (raw_lap w rc) = Some x)
    by (rewrite py_index_nat by exact Hlo; exact Hx).
  unfold accepts_submissions.
  rewrite (bind_some _ _ _ _ _ (get_current_time_within_lap_value w rc Hrc HD)).
  rewrite (bind_some _ _ _ _ _
             (get_current_play_delay_value w _ w drow x Hdrow Hlap Hpx)).
  reflexivity.
Qed.

(** X20. The two countdowns tell the truth.  In a well-formed state
    that is running, not finished and inside a lap, let [tn] and [tp] be
    what [time_before_next_lap()] and [time_before_playing()] return.
    Then [tn] is positive, and [get_current_lap()] keeps returning the
    same lap, without changing the state, after any wait shorter than
    [tn], and returns the next lap after a wait of exactly [tn] (when the
    round has a next lap).  And [tp] is smaller than [tn], and
    [accepts_submissions()] answers [False] after any wait shorter than
    [tp] and [True] after a wait of exactly [tp]: the window opens when
    the countdown reaches zero, in the same lap. *)
Theorem countdowns_are_accurate (w : World) (rc : RoundConfig) :
  well_formed w ->
  rounds (self w) !! current_round (priv w) = Some rc ->
  paused (priv w) = false ->
  finished (priv w) = false ->
  0 <= raw_lap w rc < lap_count rc ->
  exists tn tp,
    time_before_next_lap w = Some (tn, w) /\
    time_before_playing w = Some (tp, w) /\
    (0 < tn)%Q /\ (tp < tn)%Q /\
    (forall d, (0 <= d)%Q -> (d < tn)%Q ->
       get_current_lap (advance d w) = Some (raw_lap w rc, advance d w)) /\
    (raw_lap w rc + 1 < lap_count rc ->
     get_current_lap (advance tn w) = Some (raw_lap w rc + 1, advance tn w)) /\
    (forall d, (0 <= d)%Q -> (d < tp)%Q ->
       accepts_submissions (advance d w) = Some (false, advance d w)) /\
    ((0 <= tp)%Q ->
     accepts_submissions (advance tp w) = Some (true, advance tp w)).
Proof.
  intros Hwf Hrc Hp Hf Hin.
  destruct (well_formed_slot w rc Hwf Hrc Hin)
    as (HD & arow & drow & g & x & Harow & Hdrow & Hg & Hx).
  destruct Hin as [Hlo Hhi].
  assert (HD0 : ~ (lap_duration rc == 0)%Q) by lra.
  pose proof Hwf as (Hok & Hvt & _ & _ & Hd & _).
  destruct (Forall2_lookup_l _ _ _ _ _ Hd Hrc) as (drow' & Hdrow' & _ & Hdel).
  rewrite Hdrow in Hdrow'. injection Hdrow' as <-.
  destruct (Hdel x) as (r & [Hr0 Hr1] & Ex); [apply list_elem_of_lookup; eauto|].
  assert (Hle : (total_overhead (self w) <= lap_duration rc)%Q).
  { unfold validate_timing in Hvt. rewrite forallb_forall in Hvt.
    apply Qle_bool_iff. apply Hvt.
    apply list_elem_of_In, list_elem_of_lookup. eauto. }
  assert (Hpos : (0 < latency_margin (self w) /\ 0 < delay_after_playing (self w)
                  /\ 0 < sound_duration (self w))%Q).
  { unfold RoundsConfig_fields_ok in Hok.
    repeat (apply andb_prop in Hok; destruct Hok as [Hok ?]).
    repeat match goal with
    | H : negb (Qle_bool ?a 0) = true |- _ =>
        apply negb_true_iff in H;
        assert (0 < a)%Q
          by (apply Qnot_le_lt; intros Hc; apply Qle_bool_iff in Hc; congruence);
        clear H
    end.
    auto. }
  assert (Hxlt : (x < lap_duration rc)%Q).
  { assert (Hp1 : (r * (lap_duration rc - total_overhead (self w))
                   <= 1 * (lap_duration rc - total_overhead (self w)))%Q)
      by (apply Qmult_le_compat_r; lra).
    rewrite Ex. unfold total_overhead in *.
    set (P := (r * (lap_duration rc
                    - (latency_margin (self w) + delay_before_playing (self w)
                       + delay_after_playing (self w) + sound_duration (self w))))%Q)
      in *.
    clearbody P. lra. }
  clear Ex Hdel r Hr0 Hr1.
  pose proof (py_mod_range (shown w) (lap_duration rc) HD) as [Hm0 Hm1].
  fold (raw_lap w rc) in Hm0, Hm1.
  assert (Hpx : py_index drow (raw_lap w rc) = Some x)
    by (rewrite py_index_nat by exact Hlo; exact Hx).
  pose proof (get_current_lap_within w rc Hrc HD0 Hhi) as Hlap.
  pose proof (get_current_play_delay_value w _ w drow x Hdrow Hlap Hpx) as Hdelay.
  pose proof (time_before_next_lap_value w rc Hrc HD) as Htn.
  pose proof (time_before_playing_value w rc x Hrc HD Hdelay) as Htp.
  rewrite Hf in Htn, Htp.
  set (l := raw_lap w rc) in *.
  set (m := (shown w - lap_duration rc * inject_Z l)%Q) in *.
  assert (Hsame : forall d, (0 <= d)%Q -> (d < lap_duration rc - m)%Q ->
                            raw_lap (advance d w) rc = l).
  { intros d Hd0 Hd1. apply raw_lap_advance; [exact Hp | exact HD | |].
    - subst m. lra.
    - rewrite inject_Z_plus. change (inject_Z 1) with 1%Q. subst m. lra. }
  assert (Hshown : forall d, (shown (advance d w) == shown w + d)%Q)
    by (intros d; unfold shown, advance; cbn [priv wall]; rewrite Hp; ring).
  assert (Hacc : forall d, (0 <= d)%Q -> (d < lap_duration rc - m)%Q ->
            accepts_submissions (advance d w)
            = Some (Qle_bool x (shown (advance d w) - lap_duration rc * inject_Z l)
                    && Qle_bool (shown (advance d w) - lap_duration rc * inject_Z l)
                         (x + sound_duration (self w) + latency_margin (self w)),
                    advance d w)).
  { intros d Hd0 Hd1.
    pose proof (Hsame d Hd0 Hd1) as Hl.
    rewrite (accepts_submissions_value (advance d w) rc drow x);
      rewrite ?Hl; try assumption; reflexivity. }
  exists (lap_duration rc - m)%Q, (x - m)%Q.
  split; [exact Htn|]. split; [exact Htp|].
  split; [lra|]. split; [lra|]. split; [|split; [|split]].
  - intros d Hd0 Hd1.
    rewrite <- (Hsame d Hd0 Hd1) at 1.
    apply get_current_lap_within; [exact Hrc | exact HD0 |].
    now rewrite (Hsame d Hd0 Hd1).
  - intros Hnext.
    assert (Hl1 : raw_lap (advance (lap_duration rc - m) w) rc = l + 1).
    { apply raw_lap_advance; [exact Hp | exact HD | |];
        rewrite !inject_Z_plus; change (inject_Z 1) with 1%Q; subst m; lra. }
    rewrite <- Hl1 at 1.
    apply get_current_lap_within; [exact Hrc | exact HD0 |]. now rewrite Hl1.
  - intros d Hd0 Hd1. rewrite Hacc by lra.
    f_equal. f_equal. apply andb_false_iff. left.
    apply not_true_is_false. intros Hc. apply Qle_bool_iff in Hc.
    rewrite (Hshown d) in Hc. subst m. lra.
  - intros Htp0. rewrite Hacc by lra.
    f_equal. f_equal. apply andb_true_iff.
    split; apply Qle_bool_iff; rewrite (Hshown (x - m)%Q); subst m; lra.
Qed.

Lemma countdowns_are_accurate_witness :
  exists tn,
    time_before_next_lap sample_running = Some (tn, sample_running) /\
    get_current_lap (advance tn sample_running)
    = Some (1, advance tn sample_running).
Proof.
  destruct (countdowns_are_accurate sample_running
              {| lap_count := 3; lap_duration := 10; only_check_for_presence := false |}
              sample_running_well_formed eq_refl eq_refl eq_refl)
    as (tn & tp & Htn & _ & _ & _ & _ & Hnext & _).
  - vm_compute. split; [discriminate | reflexivity].
  - exists tn. split; [exact Htn|].
    assert (E : raw_lap sample_running
                  {| lap_count := 3; lap_duration := 10;
                     only_check_for_presence := false |} = 0)
      by (vm_compute; reflexivity).
    rewrite E in Hnext. apply Hnext. reflexivity.
Defined.


(** ** The guesses of a slot *)

Section Newest.

Import Submission.

Lemma insert_desc_perm s l : insert_desc s l ≡ₚ s :: l.
Proof.
  induction l as [|y l IH]; cbn [insert_desc]; [reflexivity|].
  destruct (timestamp y <=? timestamp s); [reflexivity|].
  rewrite IH. apply Permutation_swap.
Qed.

Lemma order_by_perm l : order_by_timestamp_desc l ≡ₚ l.
Proof.
  induction l as [|y l IH]; cbn [order_by_timestamp_desc foldr]; [reflexivity|].
  fold (order_by_timestamp_desc l). now rewrite insert_desc_perm, IH.
Qed.

Lemma insert_desc_sorted s l :
  newest_first l -> newest_first (insert_desc s l).
Proof.
  induction l as [|y l IH]; cbn [insert_desc newest_first].
  - intros _. split; [constructor | exact I].
  - intros [Hy Hl]. destruct (timestamp y <=? timestamp s) eqn:E.
    + apply Z.leb_le in E. cbn [newest_first]. split; [|now split].
      constructor; [exact E|].
      eapply Forall_impl; [exact Hy|]. intros x Hx. cbv beta in *. lia.
    + apply Z.leb_gt in E. cbn [newest_first]. split; [|now apply IH].
      apply Forall_forall. intros x Hx. apply elem_of_insert_desc in Hx.
      destruct Hx as [-> | Hx]; [lia|].
      rewrite Forall_forall in Hy. now apply Hy.
Qed.

Lemma order_by_sorted l : newest_first (order_by_timestamp_desc l).
Proof.
  induction l as [|y l IH]; cbn [order_by_timestamp_desc foldr]; [exact I|].
  fold (order_by_timestamp_desc l). now apply insert_desc_sorted.
Qed.

Lemma sorted_lookup l : forall i j x y,
  newest_first l -> (i < j)%nat ->
  l !! i = Some x -> l !! j = Some y -> timestamp y <= timestamp x.
Proof.
  induction l as [|a l IH]; intros i j x y Hs Hij Hi Hj; [discriminate Hi|].
  destruct Hs as [Ha Hl].
  destruct j as [|j]; [lia|]. cbn in Hj. destruct i as [|i].
  - cbn in Hi. injection Hi as <-. rewrite Forall_forall in Ha.
    apply Ha. apply list_elem_of_lookup. eauto.
  - cbn in Hi. apply (IH i j); [exact Hl | lia | exact Hi | exact Hj].
Qed.

End Newest.

(** X21. The guesses of a slot, newest first.  For a slot without a
    stored row [get_submissions] returns the one-element list
    [[Guess.nothing]].  Otherwise it returns exactly one guess per stored
    row of the slot: the guesses of a rearrangement of those rows in
    which no row comes before a row with a greater timestamp. *)
Theorem get_submissions_newest_first (tbl : list Submission.t) (k : string)
    (r l : Z) :
  (Submission.filter_by k r l tbl = [] ->
   Submission.get_submissions tbl k r l = [Guess.nothing]) /\
  (Submission.filter_by k r l tbl <> [] ->
   exists rows,
     rows ≡ₚ Submission.filter_by k r l tbl /\
     Submission.get_submissions tbl k r l = map Submission.guess rows /\
     forall i j x y, (i < j)%nat -> rows !! i = Some x -> rows !! j = Some y ->
       Submission.timestamp y <= Submission.timestamp x).
Proof.
  unfold Submission.get_submissions. split.
  - intros ->. reflexivity.
  - intros Hne.
    exists (Submission.order_by_timestamp_desc (Submission.filter_by k r l tbl)).
    split; [apply order_by_perm|]. split.
    + destruct (Submission.order_by_timestamp_desc (Submission.filter_by k r l tbl))
        eqn:E; [|reflexivity].
      now apply order_by_nil_inv in E.
    + intros i j x y. apply sorted_lookup. apply order_by_sorted.
Qed.

Lemma get_submissions_newest_first_witness :
  Submission.get_submissions sample_table "k1" 0 0
  = [Guess.birds; Guess.helicopter; Guess.fire] /\
  Submission.get_submissions sample_table "k2" 0 0 = [Guess.nothing].
Proof.
  destruct (get_submissions_newest_first sample_table "k2" 0 0) as [Hnone _].
  split; [vm_compute; reflexivity | exact (Hnone eq_refl)].
Defined.


(** ** Progress *)

Section Forward.

Variables (c : RoundsConfig) (r0 : nat) (f0 : bool).
Hypothesis Hrwf : restart_when_finished c = false.

Let ahead (w : World) : Prop :=
  self w = c /\ (r0 <= current_round (priv w))%nat /\
  (f0 = true -> finished (priv w) = true).

Lemma ahead_with_priv w p :
  ahead w -> (current_round (priv w) <= current_round p)%nat ->
  (finished (priv w) = true -> finished p = true) ->
  ahead (with_priv p w).
Proof.
  intros (Hs & Hr & Hf) Ec Ef. unfold ahead. cbn [self priv with_priv].
  split; [exact Hs|]. split; [lia | auto].
Qed.

Lemma keeps_ahead_lap : keeps ahead get_current_lap.
Proof.
  intros w l w' Hk H.
  destruct (rounds (self w) !! current_round (priv w)) as [rc|] eqn:Hrc;
    [|rewrite (get_current_lap_no_round w Hrc) in H; discriminate H].
  destruct (Qeq_dec (lap_duration rc) 0) as [HD | HD0];
    [rewrite (get_current_lap_zero_duration w rc Hrc HD) in H; discriminate H|].
  destruct (Z_lt_le_dec (raw_lap w rc) (lap_count rc)) as [Hlt | Hge].
  { rewrite (get_current_lap_within w rc Hrc HD0 Hlt) in H.
    now injection H as _ <-. }
  destruct (decide ((current_round (priv w) + 1)%nat = length (rounds (self w))))
    as [Hlast | Hnl].
  - assert (Hr : restart_when_finished (self w) = false)
      by (destruct Hk as (-> & _); exact Hrwf).
    rewrite (get_current_lap_finish w rc Hrc HD0 Hge Hlast Hr) in H.
    injection H as _ <-.
    destruct (paused_at_fields (wall w) (set_finished true (priv w)))
      as (_ & _ & Ec & Ef & _).
    apply ahead_with_priv; [exact Hk | rewrite Ec; cbn; lia |].
    intros _. rewrite Ef. reflexivity.
  - rewrite (get_current_lap_next w rc Hrc HD0 Hge Hnl) in H.
    injection H as _ <-. cbv zeta.
    destruct (pause_between_rounds (self w)).
    + destruct (paused_at_fields (wall w)
                  (set_round_start_time (wall w)
                     (set_current_round (current_round (priv w) + 1)%nat (priv w))))
        as (_ & _ & Ec & Ef & _).
      apply ahead_with_priv; [exact Hk | rewrite Ec; cbn; lia |].
      rewrite Ef. cbn. auto.
    + apply ahead_with_priv; [exact Hk | cbn; lia | cbn; auto].
Qed.

Lemma ahead_run_op o w w' : ahead w -> run_op o w = Some w' -> ahead w'.
Proof.
  intros Hk. destruct o as [| | |gs|x|s]; cbn [run_op]; unfold after.
  - destruct (paused (priv w)) eqn:Hp.
    + rewrite (play_paused w Hp). intros [= <-]. exact Hk.
    + rewrite (play_running w Hp). now intros [= <-].
  - rewrite pause_value. intros [= <-].
    destruct (paused_at_fields (wall w) (priv w)) as (_ & _ & Ec & Ef & _).
    apply ahead_with_priv; [exact Hk | rewrite Ec; lia | now rewrite Ef].
  - destruct (get_current_lap w) as [[l u]|] eqn:E; [|discriminate].
    intros [= <-]. exact (keeps_ahead_lap _ _ _ Hk E).
  - destruct (get_leaderboard_status gs w) as [[st u]|] eqn:E; [|discriminate].
    intros [= <-]. exact (keeps_status ahead gs keeps_ahead_lap _ _ _ Hk E).
  - intros [= <-]. exact Hk.
  - intros [= <-]. exact Hk.
Qed.

Lemma ahead_run ops : forall w w', ahead w -> run ops w = Some w' -> ahead w'.
Proof.
  induction ops as [|o ops IH]; intros w w' Hk; cbn [run].
  - now intros [= <-].
  - destruct (run_op o w) as [u|] eqn:E; [|discriminate].
    apply IH. exact (ahead_run_op _ _ _ Hk E).
Qed.

End Forward.

(** X22. Without [restart_when_finished], the game never goes back.
    When [restart_when_finished] is off, along any sequence of calls of
    [play()], [pause()], [get_current_lap()] and
    [get_leaderboard_status()], of waits and of stored submissions, the
    current round never decreases, and once the game is finished it
    stays finished: [play()] after the end does not reopen it. *)
Theorem run_never_goes_back (w0 w : World) (ops : list op) :
  restart_when_finished (self w0) = false ->
  run ops w0 = Some w ->
  (current_round (priv w0) <= current_round (priv w))%nat /\
  (finished (priv w0) = true -> finished (priv w) = true).
Proof.
  intros Hrwf Hrun.
  destruct (ahead_run (self w0) (current_round (priv w0)) (finished (priv w0)) Hrwf
              ops w0 w) as (_ & Hr & Hf); [|exact Hrun|].
  - repeat split; auto.
  - split; [exact Hr | exact Hf].
Qed.

Lemma run_never_goes_back_witness :
  exists w,
    run [OpPlay; OpWait 100; OpStatus [sample_group]] sample_finished = Some w /\
    finished (priv w) = true /\ current_round (priv w) = 1%nat.
Proof.
  destruct (run [OpPlay; OpWait 100; OpStatus [sample_group]] sample_finished)
    as [w|] eqn:E; [|vm_compute in E; discriminate E].
  destruct (run_never_goes_back sample_finished w
              [OpPlay; OpWait 100; OpStatus [sample_group]] eq_refl E)
    as (Hr & Hf).
  exists w. split; [reflexivity|]. split; [exact (Hf eq_refl)|].
  assert (Hw : well_formed w).
  { apply reachable_is_well_formed.
    apply (run_from_reachable (sample_config false false) 100
             ([OpWait 4; OpPlay; OpWait 30; OpLap; OpWait 30; OpLap]
              ++ [OpPlay; OpWait 100; OpStatus [sample_group]])).
    - repeat constructor; cbn; discriminate.
    - unfold run_from in *. vm_compute. vm_compute in E. exact E. }
  destruct Hw as (_ & _ & _ & _ & _ & Hfin & _).
  specialize (Hfin (Hf eq_refl)).
  assert (Hs : length (rounds (self w)) = 2%nat).
  { vm_compute in E. injection E as <-. reflexivity. }
  rewrite Hs in Hfin. lia.
Defined.


(** ** Clearing the table *)

(** X23. Clearing the table resets the scores and nothing else.  In a
    well-formed state inside a lap, [Submission.clear()] (the [clear]
    command of the command line) returns, and a status request after it
    reports the same round, lap, countdowns, flags and correct guess as
    a request before it, with for every group of the roster a row with
    its name, score zero and only (nothing, not correct) entries; the
    request changes nothing. *)
Theorem clear_then_status (w : World) (rc : RoundConfig) (gs : list GroupConfig) :
  well_formed w ->
  rounds (self w) !! current_round (priv w) = Some rc ->
  0 <= raw_lap w rc < lap_count rc ->
  exists st w0 rows',
    get_leaderboard_status gs w = Some (st, w) /\
    Submission_clear w = Some (tt, w0) /\
    table w0 = [] /\
    get_leaderboard_status gs w0
    = Some ({| st_current_correct_guess := st_current_correct_guess st;
               st_current_round := st_current_round st;
               st_current_lap := st_current_lap st;
               st_number_of_rounds := st_number_of_rounds st;
               st_number_of_laps := st_number_of_laps st;
               st_paused := st_paused st;
               st_time_before_next_lap := st_time_before_next_lap st;
               st_time_before_playing := st_time_before_playing st;
               st_finished := st_finished st;
               leaderboard := rows' |}, w0) /\
    Forall2 (fun g row =>
               row_name row = name g /\
               (score row == 0)%Q /\
               Forall (fun a => guess a = Guess.nothing /\ correct a = false)
                      (row_answers row))
            gs rows'.
Proof.
  intros Hwf Hrc Hin.
  destruct (well_formed_slot w rc Hwf Hrc Hin)
    as (HD & arow & drow & g & x & Harow & Hdrow & Hg & Hx).
  destruct Hin as [Hlo Hhi].
  set (w0 := {| self := self w; priv := priv w; rng := rng w;
                table := Submission.clear (table w); wall := wall w |}).
  destruct (raw_lap_same w w0 rc eq_refl (or_intror eq_refl)) as [Hs Hr].
  destruct (status_within gs w rc arow drow g x Hrc HD Hlo Hhi Harow Hdrow Hg Hx)
    as (rows & Hrows & Hst).
  destruct (status_within gs w0 rc arow drow g x)
    as (rows' & Hrows' & Hst'); try rewrite Hr; try assumption.
  rewrite Hs, Hr in Hst'. cbn [self priv w0] in Hst', Hrows'.
  rewrite Hr in Hrows'.
  eexists. exists w0, rows'. split; [exact Hst|].
  cbn [st_current_correct_guess st_current_round st_current_lap
       st_number_of_rounds st_number_of_laps st_paused st_time_before_next_lap
       st_time_before_playing st_finished leaderboard].
  split; [reflexivity|]. split; [reflexivity|]. split; [exact Hst'|].
  pose proof Hwf as (_ & _ & _ & Ha & _).
  destruct (Forall2_lookup_l _ _ _ _ _ Ha Hrc) as (arow' & Harow' & _ & Hposs).
  rewrite Harow in Harow'. injection Harow' as <-.
  assert (Hnot : Guess.nothing ∉ arow)
    by (intros Hi; exact (nothing_not_possible (Hposs _ Hi))).
  eapply Forall2_impl; [exact Hrows'|]. intros g0 row Hrow. cbv beta in Hrow.
  destruct (silent_row w0 g0 (current_round (priv w)) rc (raw_lap w rc) arow row)
    as (Hname & Hscore & _ & Hall);
    [exact Hrc | intros s Hs0; now apply elem_of_nil in Hs0 | exact Hnot
    | exact Hrow |].
  split; [exact Hname|]. split; [exact Hscore | exact Hall].
Qed.

Lemma clear_then_status_witness :
  exists st w0 rows',
    get_leaderboard_status [sample_group] sample_scored = Some (st, sample_scored) /\
    Submission_clear sample_scored = Some (tt, w0) /\
    Forall (fun row => (score row == 0)%Q) rows' /\
    length rows' = 1%nat.
Proof.
  destruct (clear_then_status sample_scored
              {| lap_count := 3; lap_duration := 10; only_check_for_presence := false |}
              [sample_group])
    as (st & w0 & rows' & Hst & Hclear & _ & _ & Hrows).
  - apply reachable_is_well_formed.
    apply (run_from_reachable (sample_config false false) 100
             ([OpWait 4; OpPlay; OpWait 14] ++ map OpSubmit sample_table)).
    + repeat constructor; cbn; discriminate.
    + vm_compute. reflexivity.
  - reflexivity.
  - vm_compute. split; [discriminate | reflexivity].
  - exists st, w0, rows'. split; [exact Hst|]. split; [exact Hclear|].
    apply Forall2_cons_inv_l in Hrows.
    destruct Hrows as (row & rows & (_ & Hs & _) & Hnil & ->).
    apply Forall2_nil_inv_l in Hnil. subst rows.
    split; [constructor; [exact Hs | constructor] | reflexivity].
Defined.
